(** * Source tracking on a drainage network

    A shallow embedding of
    [landlab/components/landslides/SourceTrackingAlgorithm.py]:
    the Arc flow-direction decoder, the elevation-ordered source
    tracker [track_source] and the aggregation of upstream HSD
    identifiers into fractions.

    Conventions of the embedding.
    - Node identifiers and array indices are [Z]; a numpy array or
      Python list is a [list], indexed the numpy way (a negative
      index counts from the end, anything else out of range raises).
    - A Python dict keyed by node is a [gmap Z _].
    - Integer counters ([flow_accum], the float counter [a]) are
      unbounded [Z]: the values never exceed the number of core nodes
      times the number of segments, far below 2^53.
    - Fractions, floats in the source, are exact rationals [Q].
    - Exceptions and non-termination are explicit: every operation
      that can raise lives in the [outcome] monad, and the [while True]
      loop is driven by a fuel argument; [OutOfFuel] means that the
      loop was still running when the fuel ran out.
    - Dicts and [Counter]s keep their keys in insertion order, as
      Python does since 3.7.

    The functions are first given as functions of the values of their
    arguments.  [track_source] and the decoder are then given a second
    time over a heap of mutable objects, to state what a call does to
    the objects it is handed; the two versions are proved to agree. *)

From Stdlib Require Import ZArith QArith Lia.
From stdpp Require Import base option list gmap strings fin_maps.

Local Open Scope Z_scope.

(** ** Outcomes of a Python call *)

Inductive exn : Type :=
  | LookupError        (* IndexError or KeyError *)
  | ValueError
  | ZeroDivisionError
  | TypeError.

Inductive outcome (A : Type) : Type :=
  | Done (a : A)
  | Raise (e : exn)
  | OutOfFuel.

Arguments Done {A} a.
Arguments Raise {A} e.
Arguments OutOfFuel {A}.

Definition obind {A B} (f : A → outcome B) (m : outcome A) : outcome B :=
  match m with
  | Done a => f a
  | Raise e => Raise e
  | OutOfFuel => OutOfFuel
  end.

#[global] Instance outcome_ret : MRet outcome := λ A a, Done a.
#[global] Instance outcome_bind : MBind outcome := λ A B f m, obind f m.

Fixpoint omapM {A B} (f : A → outcome B) (l : list A) : outcome (list B) :=
  match l with
  | [] => Done []
  | x :: l' => y ← f x; ys ← omapM f l'; Done (y :: ys)
  end.

(** ** numpy-style indexing *)

(** Position designated by index [i] in a sequence of length [n]. *)
Definition np_index (n : nat) (i : Z) : option nat :=
  if bool_decide (0 ≤ i < Z.of_nat n) then Some (Z.to_nat i)
  else if bool_decide (- Z.of_nat n ≤ i < 0) then Some (Z.to_nat (Z.of_nat n + i))
  else None.

(** [l[i]] *)
Definition np_get {A} (l : list A) (i : Z) : outcome A :=
  match np_index (length l) i with
  | Some k => match l !! k with Some x => Done x | None => Raise LookupError end
  | None => Raise LookupError
  end.

(** [l[i] = x] *)
Definition np_set {A} (l : list A) (i : Z) (x : A) : outcome (list A) :=
  match np_index (length l) i with
  | Some k => Done (<[k:=x]> l)
  | None => Raise LookupError
  end.

(** [l[idx]] for an index array [idx] (a fresh array). *)
Definition np_take {A} (l : list A) (idx : list Z) : outcome (list A) :=
  omapM (np_get l) idx.

(** [d[k]] on a dict. *)
Definition dict_get {A} (d : gmap Z A) (k : Z) : outcome A :=
  match d !! k with Some x => Done x | None => Raise LookupError end.

(** ** Sorting by elevation *)

(** [np.argsort]: the indices that sort the array in ascending order.
    Insertion into the sorted tail, in front of the first element that
    is not strictly smaller, keeps equal elevations in index order.
    numpy leaves the order of ties open for its default sort; the
    results below do not depend on it, they rest on lemmas about
    [track_loop] that hold for the core nodes in any order. *)
Fixpoint insert_by_elev (x : nat * Q) (l : list (nat * Q)) : list (nat * Q) :=
  match l with
  | [] => [x]
  | y :: l' =>
      if Qle_bool (snd x) (snd y) then x :: y :: l'
      else y :: insert_by_elev x l'
  end.

Definition sort_by_elev (l : list (nat * Q)) : list (nat * Q) :=
  foldr insert_by_elev [] l.

Definition argsort (v : list Q) : list nat :=
  map fst (sort_by_elev (zip (seq 0 (length v)) v)).

(** ** The mesh *)

Record Grid : Type := {
  number_of_nodes : nat;
  core_nodes : list Z;
  topographic__elevation : list Q;       (* grid.at_node['topographic__elevation'] *)
  neighbors_at_node : list (list Z);     (* one row [E; N; W; S] per node *)
  diagonals_at_node : list (list Z)      (* one row [NE; NW; SW; SE] per node *)
}.

(** ** track_source *)

Section SourceTracker.

Context {Id : Type}.

(** [r] and [hsd_ids] are only ever subscripted: any object with
    [__getitem__] will do (an array through [np_get], a dict through
    [dict_get]). *)
Variable r : Z → outcome Z.
Variable hsd_ids : Z → outcome Id.
Variable grid : Grid.

(** The three containers the traversal mutates. *)
Record tstate : Type := {
  alr_counted : list Z;
  flow_accum : list Z;
  hsd_upstr : gmap Z (list Id)
}.

(** The [while True] loop at one segment.  [j], [switch_i], [a] and
    [stream_buffer] are the loop's local variables; one unit of fuel
    is one iteration. *)
Fixpoint walk (fuel : nat) (switch_i : bool) (j : Z) (a : Z)
    (stream_buffer : list Id) (st : tstate) : outcome tstate :=
  match fuel with
  | O => OutOfFuel
  | S fuel' =>
      nxt ← (if switch_i then Done (Some j)
             else j' ← r j;
                  Done (if bool_decide (j' ∈ core_nodes grid) then Some j' else None));
      match nxt with
      | None => Done st                                   (* break *)
      | Some j =>
          fj ← np_get (flow_accum st) j;
          '(a, alr, stream_buffer) ←
            (if bool_decide (fj = 0)
             then h ← hsd_ids j;
                  Done (a + 1, alr_counted st ++ [j], stream_buffer ++ [h])
             else Done (a, alr_counted st, stream_buffer));
          fa ← np_set (flow_accum st) j (fj + a);
          let hu :=
            match hsd_upstr st !! j with
            | Some l => <[j := l ++ stream_buffer]> (hsd_upstr st)
            | None => <[j := stream_buffer]> (hsd_upstr st)
            end in
          let st' := {| alr_counted := alr; flow_accum := fa; hsd_upstr := hu |} in
          rj ← r j;
          if bool_decide (rj = j) then Done st'            (* break *)
          else walk fuel' false j a stream_buffer st'
      end
  end.

(** The [for i in sor_z] loop. *)
Fixpoint track_loop (fuel : nat) (sor_z : list Z) (st : tstate) : outcome tstate :=
  match sor_z with
  | [] => Done st
  | i :: rest =>
      if bool_decide (i ∈ alr_counted st) then track_loop fuel rest st
      else
        ri ← r i;
        if bool_decide (ri = i) then
          h ← hsd_ids i;
          let hu := <[i := [h]]> (hsd_upstr st) in
          fi ← np_get (flow_accum st) i;
          fa ← np_set (flow_accum st) i (fi + 1);
          track_loop fuel rest
            {| alr_counted := alr_counted st ++ [i]; flow_accum := fa; hsd_upstr := hu |}
        else
          st' ← walk fuel true i 0 [] st;
          track_loop fuel rest st'
  end.

(** [core_nodes[np.argsort(core_elev)[::-1]]] *)
Definition sorted_core_nodes : outcome (list Z) :=
  let z := topographic__elevation grid in
  core_elev ← np_take z (core_nodes grid);
  np_take (core_nodes grid) (map Z.of_nat (reverse (argsort core_elev))).

Definition track_source (fuel : nat) : outcome (gmap Z (list Id) * list Z) :=
  sor_z ← sorted_core_nodes;
  let st0 := {| alr_counted := [];
                flow_accum := replicate (number_of_nodes grid) 0;
                hsd_upstr := ∅ |} in
  st ← track_loop fuel sor_z st0;
  Done (hsd_upstr st, flow_accum st).

End SourceTracker.

Arguments tstate Id : clear implicits.

(** ** find_unique_upstream_hsd_ids_and_fractions *)

Section Aggregator.

Context {Id : Type} `{EqDecision Id}.

(** [cnt[num] += 1] on a [Counter]: a missing key reads as 0 and is
    inserted at the end, an existing key keeps its position. *)
Fixpoint counter_incr (num : Id) (cnt : list (Id * Z)) : list (Id * Z) :=
  match cnt with
  | [] => [(num, 0 + 1)]
  | (k, c) :: cnt' =>
      if decide (k = num) then (k, c + 1) :: cnt'
      else (k, c) :: counter_incr num cnt'
  end.

(** [for num in seq: cnt[num] += 1], from an empty counter. *)
Definition count_ids (l : list Id) : list (Id * Z) :=
  foldl (λ cnt num, counter_incr num cnt) [] l.

(** [cnt[k]] *)
Fixpoint counter_get (k : Id) (cnt : list (Id * Z)) : Z :=
  match cnt with
  | [] => 0
  | (k', c) :: cnt' => if decide (k' = k) then c else counter_get k cnt'
  end.

(** [sum(buf)] *)
Definition py_sum (buf : list Z) : Z := foldl Z.add 0 buf.

(** [s / float(t)] *)
Definition py_truediv (s t : Z) : outcome Q :=
  if bool_decide (t = 0) then Raise ZeroDivisionError
  else Done (inject_Z s / inject_Z t)%Q.

(** The body of the loop over the keys, for one upstream sequence:
    the counter's keys and the list [e]. *)
Definition aggregate_node (l : list Id) : outcome (list Id * list Q) :=
  let cnt := count_ids l in
  let keys := map fst cnt in
  let buf := map (λ k, counter_get k cnt) keys in
  e ← omapM (λ s, py_truediv s (py_sum buf)) buf;
  Done (keys, e).

(** The loop over the keys of [hsd_upstr], on the list of its items.
    Every key is written once, so the order in which the keys come
    does not show in the result; the dict [C] of the source is never
    read and is left out. *)
Fixpoint aggregate_items (items : list (Z * list Id))
    (uniq_ids : gmap Z (list Id)) (coeff : gmap Z (list Q))
    : outcome (gmap Z (list Id) * gmap Z (list Q)) :=
  match items with
  | [] => Done (uniq_ids, coeff)
  | (ke, l) :: rest =>
      '(ks, e) ← aggregate_node l;
      aggregate_items rest (<[ke := ks]> uniq_ids) (<[ke := e]> coeff)
  end.

Definition find_unique_upstream_hsd_ids_and_fractions (hsd_upstr : gmap Z (list Id))
    : outcome (gmap Z (list Id) * gmap Z (list Q)) :=
  aggregate_items (map_to_list hsd_upstr) ∅ ∅.

End Aggregator.

(** ** convert_arc_flow_directions_to_landlab_node_ids *)

(** [np.log2(c).astype('int')] at one entry.  For a positive code the
    cast truncates the logarithm, which is the position of the leading
    bit.  (Next to a power of two beyond 2^48 the float logarithm rounds
    to the next integer; either exponent is out of the range of
    [np.choose].)  [log2] of zero is [-inf] and of a negative number
    [nan]; the cast of either to a 64-bit integer gives the smallest
    one (x86-64). *)
Definition log2_astype_int (c : Z) : Z :=
  if bool_decide (0 < c) then Z.log2 c else - 2 ^ 63.

(** [np.fliplr]: every row reversed. *)
Definition fliplr (m : list (list Z)) : list (list Z) := map reverse m.

(** [np.hsplit(m, n)]: [n] blocks of columns of equal width; raises
    when the width is not a multiple of [n]. *)
Definition hsplit (m : list (list Z)) (n : nat) : outcome (list (list (list Z))) :=
  if forallb (λ row, bool_decide (Nat.modulo (length row) n = 0%nat)) m then
    Done (map (λ k, map (λ row, take (Nat.div (length row) n)
                                   (drop (k * Nat.div (length row) n) row)) m)
              (seq 0 n))
  else Raise ValueError.

(** [np.hstack]: the rows of the blocks, side by side. *)
Definition hstack (ms : list (list (list Z))) : list (list Z) :=
  match ms with
  | [] => []
  | m :: ms' => foldl (zip_with app) m ms'
  end.

(** [np.transpose] of a two-dimensional array given by its rows. *)
Definition transpose (m : list (list Z)) : list (list Z) :=
  match m with
  | [] => []
  | row :: _ => map (λ c, omap (λ row', row' !! c) m) (seq 0 (length row))
  end.

(** [np.choose(a, choices)] with the default [mode='raise']: entry [m]
    of the result is [choices[a[m]][m]], and an index outside
    [0 .. len(choices) - 1] raises. *)
Definition choose (a : list Z) (choices : list (list Z)) : outcome (list Z) :=
  omapM (λ '(m, k),
           if bool_decide (0 ≤ k < Z.of_nat (length choices)) then
             match choices !! Z.to_nat k ≫= (.!! m) with
             | Some x => Done x
             | None => Raise ValueError
             end
           else Raise ValueError)
        (zip (seq 0 (length a)) a).

(** [r[idx] = vals], entry by entry. *)
Fixpoint np_put (r : list Z) (idx vals : list Z) : outcome (list Z) :=
  match idx, vals with
  | i :: idx', v :: vals' => r' ← np_set r i v; np_put r' idx' vals'
  | _, _ => Done r
  end.

Definition convert_arc_flow_directions_to_landlab_node_ids
    (grid : Grid) (flow_dir_arc : list Z) : outcome (list Z) :=
  let r_arc_raw := map log2_astype_int flow_dir_arc in
  let neigh_ := neighbors_at_node grid in
  let diag_ := diagonals_at_node grid in
  let neigh_ := fliplr neigh_ in
  let diag_ := fliplr diag_ in
  a_n ← hsplit neigh_ 4;
  a_d ← hsplit diag_ 4;
  an_last ← np_get a_n (-1);
  ad0 ← np_get a_d 0;
  an0 ← np_get a_n 0;
  ad1 ← np_get a_d 1;
  an1 ← np_get a_n 1;
  ad2 ← np_get a_d 2;
  an2 ← np_get a_n 2;
  ad3 ← np_get a_d 3;
  let neighbors := hstack [an_last; ad0; an0; ad1; an1; ad2; an2; ad3] in
  let r := replicate (number_of_nodes grid) 0 in
  idx ← np_take r_arc_raw (core_nodes grid);
  rows ← np_take neighbors (core_nodes grid);
  vals ← choose idx (transpose rows);
  np_put r (core_nodes grid) vals.

(** ** The same code over a Python heap

    To speak about what a call does to the objects it is handed, the
    two functions that take mutable arguments are written a second
    time over a heap of objects.  A location is a position in the
    heap, allocation appends, and every read and write of a named
    object goes through the heap, so that two names for one object
    see each other's writes. *)

Section HeapModel.

Context {Id : Type}.

Inductive pyobj : Type :=
  | NdInt (a : list Z)             (* one-dimensional integer array *)
  | NdFloat (a : list Q)           (* one-dimensional float array *)
  | NdInt2 (a : list (list Z))     (* two-dimensional integer array *)
  | NdId (a : list Id)             (* array of HSD identifiers *)
  | ListInt (l : list Z)           (* list of node ids *)
  | ListId (l : list Id)           (* list of HSD identifiers *)
  | DictInt (d : gmap Z Z)         (* dict node -> node *)
  | DictId (d : gmap Z Id)         (* dict node -> HSD identifier *)
  | DictRef (d : gmap Z nat).      (* dict node -> reference to a list *)

Local Abbreviation heap := (list pyobj).

(** A computation on the heap: an outcome and the heap it leaves,
    also when it raises or runs out of fuel. *)
Definition hm (A : Type) : Type := heap → outcome A * heap.

Definition hret {A} (a : A) : hm A := λ h, (Done a, h).

Definition hbind {A B} (m : hm A) (f : A → hm B) : hm B :=
  λ h, match m h with
       | (Done a, h') => f a h'
       | (Raise e, h') => (Raise e, h')
       | (OutOfFuel, h') => (OutOfFuel, h')
       end.

(** A pure operation that may raise. *)
Definition lift {A} (m : outcome A) : hm A := λ h, (m, h).

Definition alloc (o : pyobj) : hm nat := λ h, (Done (length h), h ++ [o]).

Definition load (l : nat) : hm pyobj :=
  λ h, match h !! l with
       | Some o => (Done o, h)
       | None => (Raise LookupError, h)
       end.

Definition store (l : nat) (o : pyobj) : hm unit :=
  λ h, if bool_decide (l < length h)%nat then (Done tt, <[l := o]> h)
       else (Raise LookupError, h).

End HeapModel.

Arguments pyobj Id : clear implicits.
Abbreviation heap Id := (list (pyobj Id)).
Arguments hm Id A : clear implicits.

Declare Scope hm_scope.
Delimit Scope hm_scope with hm.
Notation "x ⇐ m ; k" := (hbind m (λ x, k))
  (at level 20, m at level 100, k at level 200, only parsing) : hm_scope.
Notation "m ;; k" := (hbind m (λ _, k))
  (at level 100, k at level 200, right associativity, only parsing) : hm_scope.

Section HeapPrograms.

Context {Id : Type}.

Local Open Scope hm_scope.

Definition type_error {A} : hm Id A := lift (Raise TypeError).

Definition load_int (l : nat) : hm Id (list Z) :=
  o ⇐ load l; match o with NdInt a => hret a | _ => type_error end.

Definition load_float (l : nat) : hm Id (list Q) :=
  o ⇐ load l; match o with NdFloat a => hret a | _ => type_error end.

Definition load_int2 (l : nat) : hm Id (list (list Z)) :=
  o ⇐ load l; match o with NdInt2 a => hret a | _ => type_error end.

Definition load_list_int (l : nat) : hm Id (list Z) :=
  o ⇐ load l; match o with ListInt a => hret a | _ => type_error end.

Definition load_list_id (l : nat) : hm Id (list Id) :=
  o ⇐ load l; match o with ListId a => hret a | _ => type_error end.

Definition load_dict_ref (l : nat) : hm Id (gmap Z nat) :=
  o ⇐ load l; match o with DictRef d => hret d | _ => type_error end.

(** [o[j]] for an object holding nodes, and for one holding HSD
    identifiers: an array or a dict. *)
Definition obj_getitem_int (o : pyobj Id) (j : Z) : outcome Z :=
  match o with
  | NdInt a => np_get a j
  | DictInt d => dict_get d j
  | _ => Raise TypeError
  end.

Definition obj_getitem_id (o : pyobj Id) (j : Z) : outcome Id :=
  match o with
  | NdId a => np_get a j
  | DictId d => dict_get d j
  | _ => Raise TypeError
  end.

Definition getitem_int (l : nat) (j : Z) : hm Id Z :=
  o ⇐ load l; lift (obj_getitem_int o j).

Definition getitem_id (l : nat) (j : Z) : hm Id Id :=
  o ⇐ load l; lift (obj_getitem_id o j).

(** [lst.append(x)] *)
Definition list_int_append (l : nat) (x : Z) : hm Id unit :=
  v ⇐ load_list_int l; store l (ListInt (v ++ [x])).

Definition list_id_append (l : nat) (x : Id) : hm Id unit :=
  v ⇐ load_list_id l; store l (ListId (v ++ [x])).

(** [copy.copy(lst)]: a new list with the same elements. *)
Definition copy_list_id (l : nat) : hm Id nat :=
  v ⇐ load_list_id l; alloc (ListId v).

(** [d[k] = ref] and [d.update({k: ref})]. *)
Definition dict_ref_set (l : nat) (k : Z) (ref : nat) : hm Id unit :=
  d ⇐ load_dict_ref l; store l (DictRef (<[k := ref]> d)).

(** [arr[j] += x] on an integer array. *)
Definition nd_int_add (l : nat) (j : Z) (x : Z) : hm Id unit :=
  v ⇐ load_int l;
  vj ⇐ lift (np_get v j);
  v' ⇐ lift (np_set v j (vj + x));
  store l (NdInt v').

(** The mesh as the program sees it: its arrays by reference. *)
Record HGrid : Type := {
  h_number_of_nodes : nat;
  h_core_nodes : nat;
  h_topographic__elevation : nat;
  h_neighbors_at_node : nat;
  h_diagonals_at_node : nat
}.

Section HeapTracker.

Variable grid : HGrid.
Variable r : nat.                (* reference to the receiver map *)
Variable hsd_ids : nat.          (* reference to the HSD assignment *)
Variable alr_counted flow_accum hsd_upstr : nat.

Fixpoint walk_heap (fuel : nat) (switch_i : bool) (j : Z) (a : Z)
    (stream_buffer : nat) : hm Id unit :=
  match fuel with
  | O => lift OutOfFuel
  | S fuel' =>
      nxt ⇐ (if switch_i then hret (Some j)
             else j' ⇐ getitem_int r j;
                  core ⇐ load_int (h_core_nodes grid);
                  hret (if bool_decide (j' ∈ core) then Some j' else None));
      match nxt with
      | None => hret tt
      | Some j =>
          fa ⇐ load_int flow_accum;
          fj ⇐ lift (np_get fa j);
          a ⇐ (if bool_decide (fj = 0)
               then list_int_append alr_counted j;;
                    h ⇐ getitem_id hsd_ids j;
                    list_id_append stream_buffer h;;
                    hret (a + 1)
               else hret a);
          nd_int_add flow_accum j a;;
          d ⇐ load_dict_ref hsd_upstr;
          match d !! j with
          | Some entry =>
              (* hsd_upstr[j] += copy.copy(stream_buffer) *)
              c ⇐ copy_list_id stream_buffer;
              old ⇐ load_list_id entry;
              new ⇐ load_list_id c;
              store entry (ListId (old ++ new));;
              dict_ref_set hsd_upstr j entry
          | None =>
              (* hsd_upstr.update({j: copy.copy(stream_buffer)}) *)
              c ⇐ copy_list_id stream_buffer;
              dict_ref_set hsd_upstr j c
          end;;
          rj ⇐ getitem_int r j;
          if bool_decide (rj = j) then hret tt
          else walk_heap fuel' false j a stream_buffer
      end
  end.

Fixpoint track_loop_heap (fuel : nat) (sor_z : list Z) : hm Id unit :=
  match sor_z with
  | [] => hret tt
  | i :: rest =>
      alr ⇐ load_list_int alr_counted;
      if bool_decide (i ∈ alr) then track_loop_heap fuel rest
      else
        ri ⇐ getitem_int r i;
        if bool_decide (ri = i) then
          h ⇐ getitem_id hsd_ids i;
          entry ⇐ alloc (ListId [h]);
          dict_ref_set hsd_upstr i entry;;
          nd_int_add flow_accum i 1;;
          list_int_append alr_counted i;;
          track_loop_heap fuel rest
        else
          stream_buffer ⇐ alloc (ListId []);
          walk_heap fuel true i 0 stream_buffer;;
          track_loop_heap fuel rest
  end.

End HeapTracker.

(** [track_source]: returns the references to [hsd_upstr] and
    [flow_accum]. *)
Definition track_source_heap (grid : HGrid) (r hsd_ids : nat) (fuel : nat)
    : hm Id (nat * nat) :=
  let z := h_topographic__elevation grid in
  let core_nodes := h_core_nodes grid in
  core_elev ⇐ (zv ⇐ load_float z;
               cv ⇐ load_int core_nodes;
               e ⇐ lift (np_take zv cv);
               alloc (NdFloat e));
  sor_z ⇐ (ev ⇐ load_float core_elev;
           cv ⇐ load_int core_nodes;
           s ⇐ lift (np_take cv (map Z.of_nat (reverse (argsort ev))));
           alloc (NdInt s));
  alr_counted ⇐ alloc (ListInt []);
  flow_accum ⇐ alloc (NdInt (replicate (h_number_of_nodes grid) 0));
  hsd_upstr ⇐ alloc (DictRef ∅);
  order ⇐ load_int sor_z;
  track_loop_heap grid r hsd_ids alr_counted flow_accum hsd_upstr fuel order;;
  hret (hsd_upstr, flow_accum).

(** The decoder: returns the reference to the new array [r]. *)
Definition convert_arc_flow_directions_to_landlab_node_ids_heap
    (grid : HGrid) (flow_dir_arc : nat) : hm Id nat :=
  r_arc_raw ⇐ (fd ⇐ load_int flow_dir_arc; alloc (NdInt (map log2_astype_int fd)));
  neigh_ ⇐ load_int2 (h_neighbors_at_node grid);
  diag_ ⇐ load_int2 (h_diagonals_at_node grid);
  let neigh_ := fliplr neigh_ in
  let diag_ := fliplr diag_ in
  a_n ⇐ lift (hsplit neigh_ 4);
  a_d ⇐ lift (hsplit diag_ 4);
  an_last ⇐ lift (np_get a_n (-1));
  ad0 ⇐ lift (np_get a_d 0);
  an0 ⇐ lift (np_get a_n 0);
  ad1 ⇐ lift (np_get a_d 1);
  an1 ⇐ lift (np_get a_n 1);
  ad2 ⇐ lift (np_get a_d 2);
  an2 ⇐ lift (np_get a_n 2);
  ad3 ⇐ lift (np_get a_d 3);
  neighbors ⇐ alloc (NdInt2 (hstack [an_last; ad0; an0; ad1; an1; ad2; an2; ad3]));
  r ⇐ alloc (NdInt (replicate (h_number_of_nodes grid) 0));
  core ⇐ load_int (h_core_nodes grid);
  idx ⇐ (v ⇐ load_int r_arc_raw; lift (np_take v core));
  rows ⇐ (v ⇐ load_int2 neighbors; lift (np_take v core));
  vals ⇐ lift (choose idx (transpose rows));
  rv ⇐ load_int r;
  rv' ⇐ lift (np_put rv core vals);
  store r (NdInt rv');;
  hret r.

(** The mesh a heap holds behind the references of [grid]. *)
Definition grid_at (grid : HGrid) (h : heap Id) : option Grid :=
  match h !! h_core_nodes grid, h !! h_topographic__elevation grid,
        h !! h_neighbors_at_node grid, h !! h_diagonals_at_node grid with
  | Some (NdInt core), Some (NdFloat z), Some (NdInt2 neigh), Some (NdInt2 diag) =>
      Some {| number_of_nodes := h_number_of_nodes grid;
              core_nodes := core;
              topographic__elevation := z;
              neighbors_at_node := neigh;
              diagonals_at_node := diag |}
  | _, _, _, _ => None
  end.

(** The dict of lists behind a reference, by value. *)
Definition dict_at (h : heap Id) (l : nat) : option (gmap Z (list Id)) :=
  match h !! l with
  | Some (DictRef d) =>
      Some (omap (λ ref, match h !! ref with
                         | Some (ListId v) => Some v
                         | _ => None
                         end) d)
  | _ => None
  end.

End HeapPrograms.

(** ** Specification vocabulary for the tracker *)

Section TrackerSpec.

Context {Id : Type}.
Variable r : Z → outcome Z.
Variable hsd_ids : Z → outcome Id.
Variable grid : Grid.

(** Following receivers from [j] ends at a sink or leaves the core. *)
Inductive drains : Z → Prop :=
  | drains_sink j : r j = Done j → drains j
  | drains_exit j m : r j = Done m → m ≠ j → m ∉ core_nodes grid → drains j
  | drains_step j m :
      r j = Done m → m ≠ j → m ∈ core_nodes grid → drains m → drains j.

(** An executable form of [drains], with a bound on the path length. *)
Fixpoint drains_within (k : nat) (j : Z) : bool :=
  match k with
  | O => false
  | S k' =>
      match r j with
      | Done m =>
          bool_decide (m = j) || bool_decide (m ∉ core_nodes grid) || drains_within k' m
      | _ => false
      end
  end.

(** What the mesh guarantees, and what the caller's maps must provide:
    core nodes index the node arrays, the elevation field has one
    entry per node, and [r] and [hsd_ids] are defined at core nodes. *)
Record inputs_ok : Prop := {
  core_in_range :
    ∀ c, c ∈ core_nodes grid → 0 ≤ c < Z.of_nat (number_of_nodes grid);
  elevation_size :
    length (topographic__elevation grid) = number_of_nodes grid;
  r_defined : ∀ c, c ∈ core_nodes grid → ∃ m, r c = Done m;
  hsd_defined : ∀ c, c ∈ core_nodes grid → ∃ h, hsd_ids c = Done h
}.

(** The receiver graph has no cycle among core nodes. *)
Definition acyclic : Prop := ∀ c, c ∈ core_nodes grid → drains c.

(** A set of core nodes that receivers never leave and that holds no
    sink: every cycle among core nodes spans one. *)
Definition trapped (S : Z → Prop) : Prop :=
  ∀ x, S x → x ∈ core_nodes grid ∧ ∃ m, r x = Done m ∧ m ≠ x ∧ S m.

(** No other core node has [n] as its receiver. *)
Definition no_inflow (n : Z) : Prop :=
  ∀ m, m ∈ core_nodes grid → m ≠ n → r m ≠ Done n.

(** Executable checks of [inputs_ok] and [acyclic]. *)
Definition is_done {A} (m : outcome A) : bool :=
  match m with Done _ => true | _ => false end.

Definition inputs_okb : bool :=
  forallb (λ c, bool_decide (0 ≤ c < Z.of_nat (number_of_nodes grid))
                && is_done (r c) && is_done (hsd_ids c)) (core_nodes grid)
  && bool_decide (length (topographic__elevation grid) = number_of_nodes grid).

Definition acyclicb (k : nat) : bool := forallb (drains_within k) (core_nodes grid).

(** One pass through the body of the [while] loop at node [j], after
    [j] has been settled: the new [a], [stream_buffer] and containers. *)
Definition visit (j : Z) (a : Z) (stream_buffer : list Id) (st : tstate Id)
    : outcome (Z * list Id * tstate Id) :=
  fj ← np_get (flow_accum st) j;
  '(a, alr, stream_buffer) ←
    (if bool_decide (fj = 0)
     then h ← hsd_ids j;
          Done (a + 1, alr_counted st ++ [j], stream_buffer ++ [h])
     else Done (a, alr_counted st, stream_buffer));
  fa ← np_set (flow_accum st) j (fj + a);
  let hu :=
    match hsd_upstr st !! j with
    | Some l => <[j := l ++ stream_buffer]> (hsd_upstr st)
    | None => <[j := stream_buffer]> (hsd_upstr st)
    end in
  Done (a, stream_buffer, {| alr_counted := alr; flow_accum := fa; hsd_upstr := hu |}).

(** The containers after the sink branch of the outer loop. *)
Definition sink_state (i : Z) (h : Id) (st : tstate Id) : tstate Id :=
  {| alr_counted := alr_counted st ++ [i];
     flow_accum := <[Z.to_nat i := 1]> (flow_accum st);
     hsd_upstr := <[i := [h]]> (hsd_upstr st) |}.

(** The containers before the first iteration. *)
Definition initial_state : tstate Id :=
  {| alr_counted := [];
     flow_accum := replicate (number_of_nodes grid) 0;
     hsd_upstr := ∅ |}.

(** The relation between the containers that every iteration keeps. *)
Record tracker_inv (st : tstate Id) : Prop := {
  inv_size : length (flow_accum st) = number_of_nodes grid;
  inv_accum : ∀ n, 0 ≤ n < Z.of_nat (number_of_nodes grid) →
    flow_accum st !! Z.to_nat n
    = Some (Z.of_nat (length (default [] (hsd_upstr st !! n))));
  inv_keys_core : ∀ n, is_Some (hsd_upstr st !! n) → n ∈ core_nodes grid;
  inv_nonempty : ∀ n, hsd_upstr st !! n ≠ Some [];
  inv_counted : ∀ n, n ∈ alr_counted st ↔ is_Some (hsd_upstr st !! n)
}.

End TrackerSpec.

(** ** Specification vocabulary for the aggregator *)

Section AggregatorSpec.

Context {Id : Type} `{EqDecision Id}.

(** The distinct identifiers of a sequence, in the order of their
    first occurrence. *)
Fixpoint first_seen (l : list Id) : list Id :=
  match l with
  | [] => []
  | x :: l' => x :: filter (λ y, y ≠ x) (first_seen l')
  end.

(** Number of occurrences of [k] in [l]. *)
Definition occurrences (k : Id) (l : list Id) : nat :=
  length (filter (λ x, x = k) l).

(** Fraction of the sequence taken by [k]. *)
Definition fraction (l : list Id) (k : Id) : Q :=
  (inject_Z (Z.of_nat (occurrences k l)) / inject_Z (Z.of_nat (length l)))%Q.


End AggregatorSpec.

(** ** Specification vocabulary for the decoder *)

(** The eight neighbours of a node clockwise from east, from its rows
    of the two native arrays. *)
Definition clockwise_from_east (orth diag : list Z) : list Z :=
  match orth, diag with
  | [e; n; w; s], [ne; nw; sw; se] => [e; se; s; sw; w; nw; n; ne]
  | _, _ => []
  end.

(** What the mesh guarantees to the decoder: one row of four
    neighbours and one of four diagonals per node, one code per node,
    and core nodes that index these arrays. *)
Record mesh_ok (grid : Grid) (flow_dir_arc : list Z) : Prop := {
  neighbors_size : length (neighbors_at_node grid) = number_of_nodes grid;
  diagonals_size : length (diagonals_at_node grid) = number_of_nodes grid;
  neighbors_width : Forall (λ row, length row = 4%nat) (neighbors_at_node grid);
  diagonals_width : Forall (λ row, length row = 4%nat) (diagonals_at_node grid);
  codes_size : length flow_dir_arc = number_of_nodes grid;
  mesh_core_in_range :
    ∀ c, c ∈ core_nodes grid → 0 ≤ c < Z.of_nat (number_of_nodes grid)
}.

Definition mesh_okb (grid : Grid) (flow_dir_arc : list Z) : bool :=
  bool_decide (length (neighbors_at_node grid) = number_of_nodes grid)
  && bool_decide (length (diagonals_at_node grid) = number_of_nodes grid)
  && forallb (λ row, bool_decide (length row = 4%nat)) (neighbors_at_node grid)
  && forallb (λ row, bool_decide (length row = 4%nat)) (diagonals_at_node grid)
  && bool_decide (length flow_dir_arc = number_of_nodes grid)
  && forallb (λ c, bool_decide (0 ≤ c < Z.of_nat (number_of_nodes grid)))
             (core_nodes grid).

(** The decoded exponent at node [c]. *)
Definition exponent_at (flow_dir_arc : list Z) (c : Z) : Z :=
  log2_astype_int (default 0 (flow_dir_arc !! Z.to_nat c)).

(** The eight neighbours of node [c], clockwise from east. *)
Definition neighbors_of (grid : Grid) (c : Z) : list Z :=
  clockwise_from_east (default [] (neighbors_at_node grid !! Z.to_nat c))
                      (default [] (diagonals_at_node grid !! Z.to_nat c)).

(** ** Specification vocabulary for the heap model *)

(** [wp m Q E h]: run from [h], [m] ends in a heap satisfying [Q]
    when it returns and [E] when it raises or is cut short. *)
Definition wp {Id A} (m : hm Id A) (Q : A → heap Id → Prop) (E : heap Id → Prop)
    (h : heap Id) : Prop :=
  match m h with
  | (Done a, h') => Q a h'
  | (_, h') => E h'
  end.

(** Every object that existed at the time of the call is as it was. *)
Definition framed {Id} (h0 h : heap Id) : Prop := ∃ rest, h = h0 ++ rest.

(** The dict of upstream lists only refers to lists made during the
    call. *)
Definition fresh_dict {Id} (h0 : heap Id) (lu : nat) (h : heap Id) : Prop :=
  ∃ d, h !! lu = Some (DictRef d) ∧ ∀ n ref, d !! n = Some ref → (length h0 ≤ ref)%nat.

Definition owned {Id} (h0 : heap Id) (lu : nat) (h : heap Id) : Prop :=
  framed h0 h ∧ fresh_dict h0 lu h.

(** [sim R m p h]: run from [h], the heap computation [m] ends the
    way the pure computation [p] does, and when both return, their
    results and the final heap are related by [R]. *)
Definition sim {Id A B} (R : A → B → heap Id → Prop) (m : hm Id A) (p : outcome B)
    (h : heap Id) : Prop :=
  match m h, p with
  | (Done a, h'), Done b => R a b h'
  | (Raise e, _), Raise e' => e = e'
  | (OutOfFuel, _), OutOfFuel => True
  | _, _ => False
  end.

(** How a heap holds the three containers of the tracker: the list
    and the array by value, the dict through distinct references to
    lists made during the call. *)
Record rep {Id} (h0 : heap Id) (la lf lu : nat) (d : gmap Z nat)
    (alr fa : list Z) (hu : gmap Z (list Id)) (h : heap Id) : Prop := {
  rep_framed : framed h0 h;
  rep_alr : h !! la = Some (ListInt alr);
  rep_fa : h !! lf = Some (NdInt fa);
  rep_hu : h !! lu = Some (DictRef d);
  rep_entries : ∀ n,
    match d !! n with
    | Some ref => (length h0 ≤ ref)%nat ∧ ∃ v, h !! ref = Some (ListId v) ∧ hu !! n = Some v
    | None => hu !! n = None
    end;
  rep_inj : ∀ n n' ref, d !! n = Some ref → d !! n' = Some ref → n = n'
}.

(** The object behind a reference, read as a receiver map or as an
    HSD assignment. *)
Definition getitem_int_at {Id} (h : heap Id) (l : nat) (j : Z) : outcome Z :=
  match h !! l with
  | Some o => obj_getitem_int o j
  | None => Raise LookupError
  end.

Definition getitem_id_at {Id} (h : heap Id) (l : nat) (j : Z) : outcome Id :=
  match h !! l with
  | Some o => obj_getitem_id o j
  | None => Raise LookupError
  end.

(** ** Concrete inputs *)

(** The worked scenario: a chain 1 -> 3 -> 4 joined at 3 by node 2;
    node 0 is a boundary node. *)
Definition scenario_grid : Grid := {|
  number_of_nodes := 5;
  core_nodes := [1; 2; 3; 4];
  topographic__elevation := [0; 10; 9; 5; 1]%Q;
  neighbors_at_node := [];
  diagonals_at_node := [] |}.

Definition scenario_r : gmap Z Z := {[ 1 := 3; 2 := 3; 3 := 4; 4 := 4 ]}.

Definition scenario_hsd : gmap Z string :=
  {[ 1 := "A"; 2 := "B"; 3 := "C"; 4 := "D" ]}%string.

Definition scenario_hsd_upstr : gmap Z (list string) :=
  {[ 1 := ["A"]; 2 := ["B"]; 3 := ["A"; "C"; "B"]; 4 := ["A"; "C"; "D"; "B"] ]}%string.

(** Two core nodes that are each other's receiver. *)
Definition cycle_grid : Grid := {|
  number_of_nodes := 3;
  core_nodes := [1; 2];
  topographic__elevation := [0; 2; 1]%Q;
  neighbors_at_node := [];
  diagonals_at_node := [] |}.

Definition cycle_r : gmap Z Z := {[ 1 := 2; 2 := 1 ]}.

Definition cycle_hsd : gmap Z string := {[ 1 := "A"; 2 := "B" ]}%string.

Definition on_cycle (x : Z) : Prop := x = 1 ∨ x = 2.

(** Node 1 drains into the sink 2; the sink 3 stands alone. *)
Definition basins_grid : Grid := {|
  number_of_nodes := 4;
  core_nodes := [1; 2; 3];
  topographic__elevation := [0; 3; 2; 1]%Q;
  neighbors_at_node := [];
  diagonals_at_node := [] |}.

Definition basins_r : gmap Z Z := {[ 1 := 2; 2 := 2; 3 := 3 ]}.

Definition basins_hsd : gmap Z string := {[ 1 := "A"; 2 := "B"; 3 := "C" ]}%string.

(** A raster of three rows and three columns, numbered from the lower
    left; node 4 is its only core node and -1 stands for a missing
    neighbour. *)
Definition raster3 : Grid := {|
  number_of_nodes := 9;
  core_nodes := [4];
  topographic__elevation := [0; 0; 0; 0; 0; 0; 0; 0; 0]%Q;
  neighbors_at_node :=
    [[1; 3; -1; -1]; [2; 4; 0; -1]; [-1; 5; 1; -1];
     [4; 6; -1; 0]; [5; 7; 3; 1]; [-1; 8; 4; 2];
     [7; -1; -1; 3]; [8; -1; 6; 4]; [-1; -1; 7; 5]];
  diagonals_at_node :=
    [[4; -1; -1; -1]; [5; 3; -1; -1]; [-1; 4; -1; -1];
     [7; -1; -1; 1]; [8; 6; 0; 2]; [-1; 7; 1; -1];
     [-1; -1; -1; 4]; [-1; -1; 3; 5]; [-1; -1; 4; -1]] |}.

(** Flow-direction codes for [raster3] with code [c] at the core node. *)
Definition raster3_codes (c : Z) : list Z := [1; 1; 1; 1; c; 1; 1; 1; 1].

(** ** Specification vocabulary for upstream nodes *)

Section UpstreamSpec.

Variable r : Z → outcome Z.
Variable grid : Grid.

(** [flows_to m n]: following receivers from [m] without leaving the
    core leads to [n] (in no step when [m] is [n]). *)
Inductive flows_to : Z → Z → Prop :=
  | flows_here m : flows_to m m
  | flows_on m m' n :
      r m = Done m' → m' ≠ m → m' ∈ core_nodes grid → flows_to m' n → flows_to m n.

(** A set of nodes that receivers inside the core never leave. *)
Definition downstream_closed (alr : list Z) : Prop :=
  ∀ m m', m ∈ alr → r m = Done m' → m' ≠ m → m' ∈ core_nodes grid → m' ∈ alr.

(** Between two segments, on a run that records nodes instead of HSD
    identifiers: the visited nodes are closed downstream, and the
    entry of a node lists, once each, the visited nodes that flow to
    it. *)
Record upstream_inv (st : tstate Z) : Prop := {
  up_closed : downstream_closed (alr_counted st);
  up_nodup : ∀ n us, hsd_upstr st !! n = Some us → NoDup us;
  up_mem : ∀ n us, hsd_upstr st !! n = Some us →
    ∀ m, m ∈ us ↔ m ∈ alr_counted st ∧ flows_to m n
}.

(** Inside a segment: [alr0] are the nodes visited before it, [V] the
    nodes the segment has visited so far and [B] those of them that
    were new, which is what the buffer holds. *)
Record segment_inv (alr0 V B : list Z) (st : tstate Z) : Prop := {
  seg_alr : ∀ m, m ∈ alr_counted st ↔ m ∈ alr0 ∨ m ∈ B;
  seg_new : ∀ m, m ∈ B → m ∉ alr0;
  seg_buf_nodup : NoDup B;
  seg_buf_visited : ∀ m, m ∈ B → m ∈ V;
  seg_visited_core : ∀ v, v ∈ V → v ∈ core_nodes grid;
  seg_visited_counted : ∀ v, v ∈ V → v ∈ alr_counted st;
  seg_closed : downstream_closed alr0;
  seg_nodup : ∀ n us, hsd_upstr st !! n = Some us → NoDup us;
  seg_mem : ∀ n us, hsd_upstr st !! n = Some us →
    ∀ m, m ∈ us ↔ (m ∈ alr0 ∧ flows_to m n) ∨ (m ∈ B ∧ flows_to m n ∧ n ∈ V)
}.

(** The node [j] the segment stands at: every visited node flows to
    it, and the receiver of every other visited node was visited. *)
Record segment_at (V : list Z) (j : Z) : Prop := {
  at_visited : j ∈ V;
  at_flows : ∀ v, v ∈ V → flows_to v j;
  at_next : ∀ v v', v ∈ V → v ≠ j → r v = Done v' → v' ≠ v →
    v' ∈ core_nodes grid → v' ∈ V
}.

End UpstreamSpec.

(** The labelling under which every node is its own label. *)
Definition own_id (j : Z) : outcome Z := Done j.

(** The containers with every recorded node replaced by its label. *)
Definition relabel {Id Id'} (f : Id → Id') (st : tstate Id) : tstate Id' :=
  {| alr_counted := alr_counted st;
     flow_accum := flow_accum st;
     hsd_upstr := map f <$> hsd_upstr st |}.

Definition outcome_map {A B} (f : A → B) (m : outcome A) : outcome B :=
  match m with
  | Done a => Done (f a)
  | Raise e => Raise e
  | OutOfFuel => OutOfFuel
  end.

(** The mesh with another elevation field. *)
Definition with_elevation (grid : Grid) (z : list Q) : Grid :=
  {| number_of_nodes := number_of_nodes grid;
     core_nodes := core_nodes grid;
     topographic__elevation := z;
     neighbors_at_node := neighbors_at_node grid;
     diagonals_at_node := diagonals_at_node grid |}.

(** Outcomes can be compared when results can. *)
#[global] Instance exn_eq_dec : EqDecision exn.
Proof. solve_decision. Defined.

#[global] Instance outcome_eq_dec {A} `{EqDecision A} : EqDecision (outcome A).
Proof. solve_decision. Defined.

(** The worked scenario laid out on a heap: the four arrays of the
    mesh, the receiver map and the HSD assignment. *)
Definition scenario_heap : heap string :=
  [NdInt [1; 2; 3; 4]; NdFloat [0; 10; 9; 5; 1]%Q; NdInt2 []; NdInt2 [];
   DictInt scenario_r; DictId scenario_hsd].

Definition scenario_hgrid : HGrid := {|
  h_number_of_nodes := 5;
  h_core_nodes := 0;
  h_topographic__elevation := 1;
  h_neighbors_at_node := 2;
  h_diagonals_at_node := 3 |}.

(** * Proofs *)

(** ** The outcome monad and indexing *)

Lemma obind_Done {A B} (f : A → outcome B) (m : outcome A) (b : B) :
  m ≫= f = Done b → ∃ a, m = Done a ∧ f a = Done b.
Proof. destruct m; simpl; try discriminate. eauto. Qed.

Lemma np_index_in_range (n : nat) (i : Z) :
  0 ≤ i < Z.of_nat n → np_index n i = Some (Z.to_nat i).
Proof. intros Hi. unfold np_index. rewrite bool_decide_eq_true_2; done. Qed.

Lemma np_get_in_range {A} (l : list A) (i : Z) :
  0 ≤ i < Z.of_nat (length l) → ∃ x, l !! Z.to_nat i = Some x ∧ np_get l i = Done x.
Proof.
  intros Hi. unfold np_get. rewrite np_index_in_range by done.
  destruct (lookup_lt_is_Some_2 l (Z.to_nat i)) as [x Hx]; [lia|].
  rewrite Hx. eauto.
Qed.

Lemma np_set_in_range {A} (l : list A) (i : Z) (x : A) :
  0 ≤ i < Z.of_nat (length l) → np_set l i x = Done (<[Z.to_nat i := x]> l).
Proof. intros Hi. unfold np_set. by rewrite np_index_in_range. Qed.

Lemma omapM_Done {A B} (f : A → outcome B) (g : A → B) (l : list A) :
  (∀ x, x ∈ l → f x = Done (g x)) → omapM f l = Done (map g l).
Proof.
  induction l as [|x l IH]; intros Hf; simpl; [done|].
  rewrite Hf by left. simpl. rewrite IH; [done|].
  intros y Hy. apply Hf. by right.
Qed.

(** ** The tracker: one node, one segment, all segments *)

Section TrackerProofs.

Context {Id : Type}.
Variable r : Z → outcome Z.
Variable hsd_ids : Z → outcome Id.
Variable grid : Grid.

Local Abbreviation N := (number_of_nodes grid).
Local Abbreviation core := (core_nodes grid).
Local Abbreviation Inv := (tracker_inv grid).

Lemma walk_unfold fuel sw j a buf st :
  walk r hsd_ids grid (S fuel) sw j a buf st =
    (nxt ← (if sw then Done (Some j)
            else j' ← r j;
                 Done (if bool_decide (j' ∈ core) then Some j' else None));
     match nxt with
     | None => Done st
     | Some j =>
         '(a', buf', st') ← visit hsd_ids j a buf st;
         rj ← r j;
         if bool_decide (rj = j) then Done st'
         else walk r hsd_ids grid fuel false j a' buf' st'
     end).
Proof.
  simpl. destruct sw; simpl.
  - unfold visit. destruct (np_get (flow_accum st) j) as [fj| |]; simpl; try done.
    case_bool_decide; simpl.
    + destruct (hsd_ids j); simpl; try done. by destruct (np_set _ _ _).
    + by destruct (np_set _ _ _).
  - destruct (r j) as [j'| |]; simpl; try done.
    case_bool_decide; [|done].
    unfold visit. destruct (np_get (flow_accum st) j') as [fj| |]; simpl; try done.
    case_bool_decide; simpl.
    + destruct (hsd_ids j'); simpl; try done. by destruct (np_set _ _ _).
    + by destruct (np_set _ _ _).
Qed.

(** What a visit does, in the two cases the invariant allows:
    a first visit extends the buffer and creates the entry, a later
    one appends the frozen buffer to the entry. *)
Lemma visit_spec j a buf st :
  inputs_ok r hsd_ids grid → Inv st → j ∈ core →
  (hsd_upstr st !! j = None ∧ ∃ h, hsd_ids j = Done h ∧
     visit hsd_ids j a buf st =
       Done (a + 1, buf ++ [h],
             {| alr_counted := alr_counted st ++ [j];
                flow_accum := <[Z.to_nat j := a + 1]> (flow_accum st);
                hsd_upstr := <[j := buf ++ [h]]> (hsd_upstr st) |}))
  ∨ (∃ l, hsd_upstr st !! j = Some l ∧ l ≠ [] ∧
     visit hsd_ids j a buf st =
       Done (a, buf,
             {| alr_counted := alr_counted st;
                flow_accum := <[Z.to_nat j := Z.of_nat (length l) + a]> (flow_accum st);
                hsd_upstr := <[j := l ++ buf]> (hsd_upstr st) |})).
Proof.
  intros Hok HI Hj.
  pose proof (core_in_range _ _ _ Hok j Hj) as Hrange.
  pose proof (inv_accum _ _ HI j Hrange) as Hfa.
  assert (Hlen : 0 ≤ j < Z.of_nat (length (flow_accum st)))
    by (rewrite (inv_size _ _ HI); done).
  destruct (np_get_in_range _ _ Hlen) as (fj & Hfj & Hget).
  rewrite Hfa in Hfj. injection Hfj as <-.
  unfold visit. rewrite Hget. simpl.
  destruct (hsd_upstr st !! j) as [l|] eqn:Hl; simpl.
  - right. exists l. split; [done|].
    assert (l ≠ []) as Hne by (intros ->; by apply (inv_nonempty _ _ HI j)).
    split; [done|].
    rewrite bool_decide_eq_false_2 by (destruct l; simpl; [done|lia]).
    simpl. rewrite np_set_in_range by done. done.
  - left. split; [done|].
    destruct (hsd_defined _ _ _ Hok j Hj) as [h Hh]. exists h. split; [done|].
    rewrite Hh. simpl. rewrite np_set_in_range by done. done.
Qed.

(** A visit keeps the invariant, provided the buffer is non-empty
    whenever the node was seen before. *)
Lemma visit_inv j a buf st a' buf' st' :
  inputs_ok r hsd_ids grid → Inv st → j ∈ core →
  (buf = [] → j ∉ alr_counted st) → a = Z.of_nat (length buf) →
  visit hsd_ids j a buf st = Done (a', buf', st') →
  Inv st' ∧ a' = Z.of_nat (length buf') ∧ buf' ≠ [] ∧
  j ∈ alr_counted st' ∧
  (∀ x, x ∈ alr_counted st' ↔ x ∈ alr_counted st ∨ x = j) ∧
  (∀ n, n ≠ j → hsd_upstr st' !! n = hsd_upstr st !! n).
Proof.
  intros Hok HI Hj Hbuf Ha Hv.
  pose proof (core_in_range _ _ _ Hok j Hj) as Hrange.
  destruct (visit_spec j a buf st Hok HI Hj) as [(Hnone & h & Hh & Hv')|(l & Hl & Hne & Hv')];
    rewrite Hv' in Hv; injection Hv as <- <- <-; simpl.
  - split; [split; simpl|].
    + rewrite length_insert. apply HI.
    + intros n Hn. destruct (decide (n = j)) as [->|Hnj].
      * rewrite lookup_insert_eq. simpl.
        rewrite list_lookup_insert_eq by (rewrite (inv_size _ _ HI); lia).
        f_equal. rewrite length_app. simpl. lia.
      * rewrite lookup_insert_ne by done.
        rewrite list_lookup_insert_ne by lia. by apply HI.
    + intros n. destruct (decide (n = j)) as [->|Hnj]; [done|].
      rewrite lookup_insert_ne by done. apply HI.
    + intros n. destruct (decide (n = j)) as [->|Hnj].
      * rewrite lookup_insert_eq. intros [=Heq]. by destruct buf.
      * rewrite lookup_insert_ne by done. apply HI.
    + intros n. rewrite elem_of_app, list_elem_of_singleton.
      destruct (decide (n = j)) as [->|Hnj].
      * rewrite lookup_insert_eq. split; eauto.
      * rewrite lookup_insert_ne by done. rewrite (inv_counted _ _ HI). intuition congruence.
    + repeat split.
      * rewrite length_app. simpl. lia.
      * by destruct buf.
      * apply elem_of_app. right. by left.
      * rewrite elem_of_app, list_elem_of_singleton. done.
      * rewrite elem_of_app, list_elem_of_singleton. done.
      * intros n Hn. by rewrite lookup_insert_ne.
  - assert (j ∈ alr_counted st) as Hin by (apply (inv_counted _ _ HI); eauto).
    assert (buf ≠ []) as Hbne by (intros ->; by apply Hbuf).
    split; [split; simpl|].
    + rewrite length_insert. apply HI.
    + intros n Hn. destruct (decide (n = j)) as [->|Hnj].
      * rewrite lookup_insert_eq. simpl.
        rewrite list_lookup_insert_eq by (rewrite (inv_size _ _ HI); lia).
        f_equal. rewrite length_app. lia.
      * rewrite lookup_insert_ne by done.
        rewrite list_lookup_insert_ne by lia. by apply HI.
    + intros n. destruct (decide (n = j)) as [->|Hnj]; [done|].
      rewrite lookup_insert_ne by done. apply HI.
    + intros n. destruct (decide (n = j)) as [->|Hnj].
      * rewrite lookup_insert_eq. intros [=Heq]. by destruct l.
      * rewrite lookup_insert_ne by done. apply HI.
    + intros n. destruct (decide (n = j)) as [->|Hnj].
      * rewrite lookup_insert_eq. split; eauto.
      * rewrite lookup_insert_ne by done. apply HI.
    + repeat split; try done.
      * intuition congruence.
      * intuition congruence.
      * intros n Hn. by rewrite lookup_insert_ne.
Qed.

(** A segment that ends keeps the invariant, only adds to the visited
    list, marks its first node, and leaves alone every node that has
    no inflow. *)
Local Abbreviation no_inflow := (no_inflow r grid).

Lemma walk_spec fuel : ∀ sw j a buf st st',
  inputs_ok r hsd_ids grid → Inv st → j ∈ core →
  a = Z.of_nat (length buf) →
  (if sw : bool then j ∉ alr_counted st else buf ≠ []) →
  walk r hsd_ids grid fuel sw j a buf st = Done st' →
  Inv st' ∧
  (∀ x, x ∈ alr_counted st → x ∈ alr_counted st') ∧
  (sw = true → j ∈ alr_counted st') ∧
  (∀ n, n ≠ j → no_inflow n →
     hsd_upstr st' !! n = hsd_upstr st !! n ∧
     (n ∈ alr_counted st' → n ∈ alr_counted st)).
Proof.
  induction fuel as [|fuel IH]; intros sw j a buf st st' Hok HI Hj Ha Hpre Hw;
    [discriminate|].
  rewrite walk_unfold in Hw.
  apply obind_Done in Hw as (nxt & Hnxt & Hw).
  (* the node [k] visited in this iteration *)
  assert (nxt = None ∧ st' = st ∧ sw = false ∨
          ∃ k, nxt = Some k ∧ k ∈ core ∧ (buf = [] → k ∉ alr_counted st) ∧
               (sw = true → k = j) ∧
               (∀ n, n ≠ j → no_inflow n → n ≠ k)) as Hcases.
  { destruct sw.
    - injection Hnxt as <-. right. exists j. split_and!; eauto.
    - apply obind_Done in Hnxt as (j' & Hr & Hnxt). injection Hnxt as <-.
      case_bool_decide as Hcore.
      + right. exists j'. split_and!; eauto; try done.
        intros n Hn Hno ->. by apply (Hno j). 
      + left. split; [done|]. split; [|done]. by injection Hw. }
  destruct Hcases as [(-> & -> & ->)|(k & -> & Hk & Hbuf & Hsw & Hreach)].
  { split_and!; eauto; done. }
  apply obind_Done in Hw as ([[a' buf'] st1] & Hv & Hw). simpl in Hw.
  apply obind_Done in Hw as (rk & Hrk & Hw).
  destruct (visit_inv k a buf st a' buf' st1 Hok HI Hk Hbuf Ha Hv)
    as (HI1 & Ha' & Hbuf' & Hkin & Halr & Hfr).
  case_bool_decide as Hsink.
  - injection Hw as <-. split_and!; try done.
    + intros x Hx. apply Halr. by left.
    + intros ->. by rewrite <- (Hsw eq_refl).
    + intros n Hn Hno. split; [apply Hfr; by apply Hreach|].
      intros Hn0. apply Halr in Hn0 as [Hn0|Heq]; [done|].
      by destruct (Hreach n).
  - destruct (IH false k a' buf' st1 st' Hok HI1 Hk Ha' Hbuf' Hw)
      as (HI' & Hmono & _ & Hfr').
    split_and!; try done.
    + intros x Hx. apply Hmono, Halr. by left.
    + intros ->. apply Hmono. by rewrite <- (Hsw eq_refl).
    + intros n Hn Hno.
      destruct (Hfr' n) as [-> Hb]; [by apply Hreach|done|].
      split; [apply Hfr; by apply Hreach|].
      intros Hn0. apply Hb in Hn0. apply Halr in Hn0 as [Hn0|Heq]; [done|].
      by destruct (Hreach n).
Qed.

Lemma sink_state_inv i h (st : tstate Id) :
  inputs_ok r hsd_ids grid → Inv st → i ∈ core → Inv (sink_state i h st).
Proof.
  intros Hok HI Hi. pose proof (core_in_range _ _ _ Hok i Hi) as Hrange.
  split; simpl.
  - rewrite length_insert. apply HI.
  - intros n Hn. destruct (decide (n = i)) as [->|Hni].
    + rewrite lookup_insert_eq.
      rewrite list_lookup_insert_eq by (rewrite (inv_size _ _ HI); lia). done.
    + rewrite lookup_insert_ne by done.
      rewrite list_lookup_insert_ne by lia. by apply HI.
  - intros n. destruct (decide (n = i)) as [->|Hni]; [done|].
    rewrite lookup_insert_ne by done. apply HI.
  - intros n. destruct (decide (n = i)) as [->|Hni].
    + by rewrite lookup_insert_eq.
    + rewrite lookup_insert_ne by done. apply HI.
  - intros n. rewrite elem_of_app, list_elem_of_singleton.
    destruct (decide (n = i)) as [->|Hni].
    + rewrite lookup_insert_eq. split; eauto.
    + rewrite lookup_insert_ne by done. rewrite (inv_counted _ _ HI). intuition congruence.
Qed.

(** One iteration of the outer loop, by cases. *)
Lemma track_loop_step fuel i rest st :
  inputs_ok r hsd_ids grid → Inv st → i ∈ core →
  (i ∈ alr_counted st ∧
     track_loop r hsd_ids grid fuel (i :: rest) st
     = track_loop r hsd_ids grid fuel rest st)
  ∨ ((i ∉ alr_counted st) ∧ r i = Done i ∧ ∃ h, hsd_ids i = Done h ∧
     track_loop r hsd_ids grid fuel (i :: rest) st
     = track_loop r hsd_ids grid fuel rest (sink_state i h st))
  ∨ ((i ∉ alr_counted st) ∧ (∃ m, r i = Done m ∧ m ≠ i) ∧
     track_loop r hsd_ids grid fuel (i :: rest) st
     = (st' ← walk r hsd_ids grid fuel true i 0 [] st;
        track_loop r hsd_ids grid fuel rest st')).
Proof.
  intros Hok HI Hi. simpl.
  case_bool_decide as Hc; [by left|right].
  destruct (r_defined _ _ _ Hok i Hi) as [m Hm]. rewrite Hm. simpl.
  case_bool_decide as Hs; [left|right; eauto].
  subst m. split; [done|]. split; [done|].
  destruct (hsd_defined _ _ _ Hok i Hi) as [h Hh]. exists h. split; [done|].
  rewrite Hh. simpl.
  pose proof (core_in_range _ _ _ Hok i Hi) as Hrange.
  assert (Hlen : 0 ≤ i < Z.of_nat (length (flow_accum st)))
    by (rewrite (inv_size _ _ HI); done).
  destruct (np_get_in_range _ _ Hlen) as (fi & Hfi & ->). simpl.
  rewrite (inv_accum _ _ HI i Hrange) in Hfi.
  assert (hsd_upstr st !! i = None) as Hnone.
  { apply eq_None_not_Some. by rewrite <- (inv_counted _ _ HI). }
  rewrite Hnone in Hfi. injection Hfi as <-.
  rewrite np_set_in_range by done. done.
Qed.

(** The outer loop keeps the invariant and marks every node it is
    given. *)
Lemma track_loop_spec fuel : ∀ sor_z st st',
  inputs_ok r hsd_ids grid → Inv st → (∀ i, i ∈ sor_z → i ∈ core) →
  track_loop r hsd_ids grid fuel sor_z st = Done st' →
  Inv st' ∧
  (∀ x, x ∈ alr_counted st → x ∈ alr_counted st') ∧
  (∀ i, i ∈ sor_z → i ∈ alr_counted st').
Proof.
  induction sor_z as [|i rest IH]; intros st st' Hok HI Hsub Hl.
  { injection Hl as <-. split_and!; [done|done|]. intros i Hi. by apply elem_of_nil in Hi. }
  assert (i ∈ core) as Hi by (apply Hsub; left).
  assert (∀ x, x ∈ rest → x ∈ core) as Hsub' by (intros x Hx; apply Hsub; by right).
  destruct (track_loop_step fuel i rest st Hok HI Hi)
    as [(Hc & Heq)|[(Hc & Hs & h & Hh & Heq)|(Hc & (m & Hm & Hne) & Heq)]];
    rewrite Heq in Hl; clear Heq.
  - destruct (IH _ _ Hok HI Hsub' Hl) as (HI' & Hmono & Hall).
    split_and!; [done|done|].
    intros x [->|Hx]%elem_of_cons; [by apply Hmono|by apply Hall].
  - destruct (IH _ _ Hok (sink_state_inv i h st Hok HI Hi) Hsub' Hl)
      as (HI' & Hmono & Hall).
    assert (∀ x, x ∈ alr_counted st ∨ x = i → x ∈ alr_counted st') as Hm'.
    { intros x Hx. apply Hmono. simpl. rewrite elem_of_app, list_elem_of_singleton. done. }
    split_and!; [done|by eauto|].
    intros x [->|Hx]%elem_of_cons; [by eauto|by apply Hall].
  - apply obind_Done in Hl as (st1 & Hw & Hl).
    destruct (walk_spec fuel true i 0 [] st st1 Hok HI Hi eq_refl Hc Hw)
      as (HI1 & Hmono1 & Hin & _).
    destruct (IH _ _ Hok HI1 Hsub' Hl) as (HI' & Hmono & Hall).
    split_and!; [done|by eauto|].
    intros x [->|Hx]%elem_of_cons; [by eauto|by apply Hall].
Qed.

(** A sink without inflow is written once, by the sink branch. *)
Lemma track_loop_sink fuel n h : ∀ sor_z st st',
  inputs_ok r hsd_ids grid → Inv st → (∀ i, i ∈ sor_z → i ∈ core) →
  r n = Done n → hsd_ids n = Done h → no_inflow n →
  track_loop r hsd_ids grid fuel sor_z st = Done st' →
  (hsd_upstr st !! n = Some [h] → hsd_upstr st' !! n = Some [h]) ∧
  (n ∉ alr_counted st → n ∈ sor_z → hsd_upstr st' !! n = Some [h]).
Proof.
  induction sor_z as [|i rest IH]; intros st st' Hok HI Hsub Hrn Hhn Hno Hl.
  { injection Hl as <-. split; [done|]. intros _ Hn. by apply elem_of_nil in Hn. }
  assert (i ∈ core) as Hi by (apply Hsub; left).
  assert (∀ x, x ∈ rest → x ∈ core) as Hsub' by (intros x Hx; apply Hsub; by right).
  destruct (track_loop_step fuel i rest st Hok HI Hi)
    as [(Hc & Heq)|[(Hc & Hs & h' & Hh & Heq)|(Hc & (m & Hm & Hne) & Heq)]];
    rewrite Heq in Hl; clear Heq.
  - destruct (IH _ _ Hok HI Hsub' Hrn Hhn Hno Hl) as [Hkeep Hnew].
    split; [done|]. intros Hnc [->|Hn]%elem_of_cons; [done|by apply Hnew].
  - destruct (IH _ _ Hok (sink_state_inv i h' st Hok HI Hi) Hsub' Hrn Hhn Hno Hl)
      as [Hkeep Hnew].
    destruct (decide (n = i)) as [->|Hni].
    + assert (h' = h) as -> by congruence.
      assert (hsd_upstr st' !! i = Some [h]) as Hres
        by (apply Hkeep; simpl; by rewrite lookup_insert_eq).
      split; [done|]. done.
    + split.
      * intros Hn. apply Hkeep. simpl. by rewrite lookup_insert_ne.
      * intros Hnc [->|Hn]%elem_of_cons; [done|]. apply Hnew; [|done].
        simpl. rewrite elem_of_app, list_elem_of_singleton. intuition congruence.
  - apply obind_Done in Hl as (st1 & Hw & Hl).
    assert (n ≠ i) as Hni by (intros ->; congruence).
    destruct (walk_spec fuel true i 0 [] st st1 Hok HI Hi eq_refl Hc Hw)
      as (HI1 & _ & _ & Hfr).
    destruct (Hfr n Hni Hno) as [Hsame Hback].
    destruct (IH _ _ Hok HI1 Hsub' Hrn Hhn Hno Hl) as [Hkeep Hnew].
    split.
    + intros Hn. apply Hkeep. by rewrite Hsame.
    + intros Hnc [->|Hn]%elem_of_cons; [done|]. apply Hnew; [|done]. eauto.
Qed.

(** *** Termination on acyclic inputs *)

(** From a node that drains, the rest of the segment ends within a
    number of iterations that depends on the node alone. *)
Lemma walk_terminates j :
  inputs_ok r hsd_ids grid → drains r grid j → j ∈ core →
  ∃ f0, ∀ fuel a buf st, (f0 ≤ fuel)%nat →
    Inv st → a = Z.of_nat (length buf) → buf ≠ [] → r j ≠ Done j →
    ∃ st', walk r hsd_ids grid fuel false j a buf st = Done st'.
Proof.
  intros Hok Hd. induction Hd as [j Hr|j m Hr Hne Hm|j m Hr Hne Hm Hd IH]; intros Hj.
  - exists O. intros; congruence.
  - exists 1%nat. intros [|fuel] a buf st Hf HI Ha Hbuf _; [lia|].
    rewrite walk_unfold, Hr. simpl. rewrite bool_decide_eq_false_2 by done. eauto.
  - destruct (IH Hm) as [f0 Hf0]. exists (S f0).
    intros [|fuel] a buf st Hf HI Ha Hbuf _; [lia|].
    rewrite walk_unfold, Hr. simpl. rewrite bool_decide_eq_true_2 by done.
    destruct (visit_spec m a buf st Hok HI Hm) as [(_ & h & _ & Hv)|(l & _ & _ & Hv)];
      pose proof Hv as Hv'; apply visit_inv in Hv' as (HI1 & Ha1 & Hb1 & _);
      try done; rewrite Hv; simpl;
      destruct (r_defined _ _ _ Hok m Hm) as [m' Hm']; rewrite Hm'; simpl;
      (case_bool_decide as Hs; [by eauto|]);
      (apply Hf0; [lia|done|done|done|congruence]).
Qed.

(** The first node of a segment included. *)
Lemma walk_first_terminates i :
  inputs_ok r hsd_ids grid → drains r grid i → i ∈ core →
  ∃ f0, ∀ fuel st, (f0 ≤ fuel)%nat → Inv st → i ∉ alr_counted st →
    ∃ st', walk r hsd_ids grid fuel true i 0 [] st = Done st'.
Proof.
  intros Hok Hd Hi. destruct (walk_terminates i Hok Hd Hi) as [f0 Hf0].
  exists (S f0). intros [|fuel] st Hf HI Hc; [lia|].
  rewrite walk_unfold. simpl.
  destruct (visit_spec i 0 [] st Hok HI Hi) as [(_ & h & _ & Hv)|(l & _ & _ & Hv)];
    pose proof Hv as Hv'; apply visit_inv in Hv' as (HI1 & Ha1 & Hb1 & _);
    try done; rewrite Hv; simpl;
    destruct (r_defined _ _ _ Hok i Hi) as [m' Hm']; rewrite Hm'; simpl;
    (case_bool_decide as Hs; [by eauto|]);
    (apply Hf0; [lia|done|done|done|congruence]).
Qed.

Lemma track_loop_terminates sor_z :
  inputs_ok r hsd_ids grid → acyclic r grid → (∀ i, i ∈ sor_z → i ∈ core) →
  ∃ f0, ∀ fuel st, (f0 ≤ fuel)%nat → Inv st →
    ∃ st', track_loop r hsd_ids grid fuel sor_z st = Done st'.
Proof.
  intros Hok Hac. induction sor_z as [|i rest IH]; intros Hsub.
  { exists O. simpl. eauto. }
  assert (i ∈ core) as Hi by (apply Hsub; left).
  destruct IH as [fr Hfr]; [intros x Hx; apply Hsub; by right|].
  destruct (walk_first_terminates i Hok (Hac i Hi) Hi) as [fi Hfi].
  exists (Nat.max fi fr). intros fuel st Hf HI.
  destruct (track_loop_step fuel i rest st Hok HI Hi)
    as [(Hc & ->)|[(Hc & Hs & h & Hh & ->)|(Hc & _ & ->)]].
  - apply Hfr; [lia|done].
  - apply Hfr; [lia|]. by apply sink_state_inv.
  - destruct (Hfi fuel st) as [st1 Hw]; [lia|done|done|].
    rewrite Hw. simpl. apply Hfr; [lia|].
    by destruct (walk_spec fuel true i 0 [] st st1 Hok HI Hi eq_refl Hc Hw).
Qed.

(** *** More fuel changes nothing once a run has ended *)

Lemma walk_more_fuel fuel : ∀ fuel' sw j a buf st st',
  (fuel ≤ fuel')%nat →
  walk r hsd_ids grid fuel sw j a buf st = Done st' →
  walk r hsd_ids grid fuel' sw j a buf st = Done st'.
Proof.
  induction fuel as [|fuel IH]; intros [|fuel'] sw j a buf st st' Hle Hw;
    try discriminate; [lia|].
  rewrite walk_unfold in Hw |- *.
  apply obind_Done in Hw as (nxt & -> & Hw). simpl.
  destruct nxt as [k|]; [|done].
  apply obind_Done in Hw as ([[a' buf'] st1] & -> & Hw). simpl in *.
  apply obind_Done in Hw as (rk & -> & Hw). simpl.
  case_bool_decide; [done|]. apply (IH fuel'); [lia|done].
Qed.

Lemma track_loop_more_fuel fuel fuel' : ∀ sor_z st st',
  (fuel ≤ fuel')%nat →
  track_loop r hsd_ids grid fuel sor_z st = Done st' →
  track_loop r hsd_ids grid fuel' sor_z st = Done st'.
Proof.
  induction sor_z as [|i rest IH]; intros st st' Hle Hl; [done|].
  simpl in *. case_bool_decide; [by apply IH|].
  destruct (r i) as [ri| |]; simpl in *; try done.
  case_bool_decide.
  - destruct (hsd_ids i); simpl in *; try done.
    destruct (np_get _ _); simpl in *; try done.
    destruct (np_set _ _ _); simpl in *; try done. by apply IH.
  - apply obind_Done in Hl as (st1 & Hw & Hl).
    rewrite (walk_more_fuel fuel fuel' _ _ _ _ _ _ Hle Hw). simpl. by apply IH.
Qed.

Lemma track_source_more_fuel fuel fuel' res :
  (fuel ≤ fuel')%nat →
  track_source r hsd_ids grid fuel = Done res →
  track_source r hsd_ids grid fuel' = Done res.
Proof.
  intros Hle. unfold track_source.
  destruct (sorted_core_nodes grid) as [sor_z| |]; simpl; try done.
  intros Hl. apply obind_Done in Hl as (st & Hl & Hres).
  by rewrite (track_loop_more_fuel fuel fuel' _ _ _ Hle Hl).
Qed.

(** *** Segments that cannot end *)

Section Trapped.

Variable S : Z → Prop.
Hypothesis Hok : inputs_ok r hsd_ids grid.
Hypothesis Htrap : trapped r grid S.

(** Once inside a trapped set the segment uses up any fuel. *)
Lemma walk_trapped fuel : ∀ sw j a buf st,
  Inv st → a = Z.of_nat (length buf) →
  (if sw : bool then j ∉ alr_counted st else buf ≠ []) → S j →
  walk r hsd_ids grid fuel sw j a buf st = OutOfFuel.
Proof.
  induction fuel as [|fuel IH]; intros sw j a buf st HI Ha Hpre HS; [done|].
  rewrite walk_unfold.
  destruct (Htrap j HS) as (Hj & m & Hm & Hne & HSm).
  destruct (Htrap m HSm) as (Hmc & m' & Hm' & Hne' & _).
  destruct sw; simpl.
  - destruct (visit_spec j a buf st Hok HI Hj) as [(_ & h & _ & Hv)|(l & _ & _ & Hv)];
      pose proof Hv as Hv'; apply visit_inv in Hv' as (HI1 & Ha1 & Hb1 & _);
      try done; rewrite Hv; simpl; rewrite Hm; simpl;
      rewrite bool_decide_eq_false_2 by done; by apply IH.
  - rewrite Hm. simpl. rewrite bool_decide_eq_true_2 by done.
    destruct (visit_spec m a buf st Hok HI Hmc) as [(_ & h & _ & Hv)|(l & _ & _ & Hv)];
      pose proof Hv as Hv'; apply visit_inv in Hv' as (HI1 & Ha1 & Hb1 & _);
      try done; rewrite Hv; simpl; rewrite Hm'; simpl;
      rewrite bool_decide_eq_false_2 by done; by apply IH.
Qed.

(** A segment never raises on well-formed inputs. *)
Lemma walk_no_raise fuel : ∀ sw j a buf st e,
  Inv st → j ∈ core → a = Z.of_nat (length buf) →
  (if sw : bool then j ∉ alr_counted st else buf ≠ []) →
  walk r hsd_ids grid fuel sw j a buf st ≠ Raise e.
Proof.
  induction fuel as [|fuel IH]; intros sw j a buf st e HI Hj Ha Hpre; [done|].
  rewrite walk_unfold.
  assert (∀ k, k ∈ core → (buf = [] → k ∉ alr_counted st) →
    ('(a', buf', st') ← visit hsd_ids k a buf st;
     rj ← r k;
     if bool_decide (rj = k) then Done st'
     else walk r hsd_ids grid fuel false k a' buf' st') ≠ Raise e) as Hbody.
  { intros k Hk Hbuf.
    destruct (visit_spec k a buf st Hok HI Hk) as [(_ & h & _ & Hv)|(l & _ & _ & Hv)];
      pose proof Hv as Hv'; apply visit_inv in Hv' as (HI1 & Ha1 & Hb1 & _);
      try done; rewrite Hv; simpl;
      destruct (r_defined _ _ _ Hok k Hk) as [m' Hm']; rewrite Hm'; simpl;
      (case_bool_decide; [done|]); by apply IH. }
  destruct sw; simpl.
  - apply Hbody; [done|]. done.
  - destruct (r_defined _ _ _ Hok j Hj) as [m Hm]. rewrite Hm. simpl.
    case_bool_decide; [|done]. apply Hbody; [done|]. done.
Qed.

(** A segment that ends has marked no trapped node. *)
Lemma walk_done_untrapped fuel : ∀ sw j a buf st st',
  Inv st → j ∈ core → a = Z.of_nat (length buf) →
  (if sw : bool then j ∉ alr_counted st else buf ≠ []) →
  (∀ x, x ∈ alr_counted st → ¬ S x) →
  walk r hsd_ids grid fuel sw j a buf st = Done st' →
  ∀ x, x ∈ alr_counted st' → ¬ S x.
Proof.
  induction fuel as [|fuel IH]; intros sw j a buf st st' HI Hj Ha Hpre Hno Hw;
    [discriminate|].
  rewrite walk_unfold in Hw.
  apply obind_Done in Hw as (nxt & Hnxt & Hw).
  assert (nxt = None ∧ st' = st ∨
          ∃ k, nxt = Some k ∧ k ∈ core ∧ (buf = [] → k ∉ alr_counted st)) as Hcases.
  { destruct sw.
    - injection Hnxt as <-. right. exists j. split_and!; eauto.
    - apply obind_Done in Hnxt as (j' & Hr & Hnxt). injection Hnxt as <-.
      case_bool_decide as Hcore.
      + right. exists j'. split_and!; eauto; done.
      + left. split; [done|]. by injection Hw. }
  destruct Hcases as [(-> & ->)|(k & -> & Hk & Hbuf)]; [done|].
  apply obind_Done in Hw as ([[a' buf'] st1] & Hv & Hw). simpl in Hw.
  apply obind_Done in Hw as (rk & Hrk & Hw).
  destruct (visit_inv k a buf st a' buf' st1 Hok HI Hk Hbuf Ha Hv)
    as (HI1 & Ha' & Hbuf' & Hkin & Halr & Hfr).
  assert (¬ S k) as HnS.
  { intros HS. destruct (Htrap k HS) as (_ & m & Hm & Hne & _).
    rewrite Hm in Hrk. injection Hrk as <-.
    rewrite bool_decide_eq_false_2 in Hw by done.
    by rewrite walk_trapped in Hw. }
  assert (∀ x, x ∈ alr_counted st1 → ¬ S x) as Hno1.
  { intros x [Hx| ->]%Halr; [by apply Hno|done]. }
  case_bool_decide.
  - by injection Hw as <-.
  - by apply (IH false k a' buf' st1 st').
Qed.

Lemma track_loop_trapped fuel c : ∀ sor_z st,
  Inv st → (∀ i, i ∈ sor_z → i ∈ core) →
  (∀ x, x ∈ alr_counted st → ¬ S x) → c ∈ sor_z → S c →
  track_loop r hsd_ids grid fuel sor_z st = OutOfFuel.
Proof.
  induction sor_z as [|i rest IH]; intros st HI Hsub Hno Hc HS.
  { by apply elem_of_nil in Hc. }
  assert (i ∈ core) as Hi by (apply Hsub; left).
  assert (∀ x, x ∈ rest → x ∈ core) as Hsub' by (intros x Hx; apply Hsub; by right).
  destruct (track_loop_step fuel i rest st Hok HI Hi)
    as [(Hin & ->)|[(Hin & Hs & h & Hh & ->)|(Hin & _ & ->)]].
  - apply IH; try done.
    apply elem_of_cons in Hc as [->|Hc]; [|done]. by destruct (Hno i).
  - assert (¬ S i) as HnS.
    { intros HSi. destruct (Htrap i HSi) as (_ & m & Hm & Hne & _). congruence. }
    apply IH; try done.
    + by apply sink_state_inv.
    + simpl. intros x [Hx| ->%list_elem_of_singleton]%elem_of_app; [by apply Hno|done].
    + apply elem_of_cons in Hc as [->|Hc]; done.
  - destruct (walk r hsd_ids grid fuel true i 0 [] st) as [st1|e|] eqn:Hw; simpl.
    + destruct (walk_spec fuel true i 0 [] st st1 Hok HI Hi eq_refl Hin Hw)
        as (HI1 & _ & Hi1 & _).
      pose proof (walk_done_untrapped fuel true i 0 [] st st1 HI Hi eq_refl Hin Hno Hw)
        as Hno1.
      apply IH; try done.
      apply elem_of_cons in Hc as [->|Hc]; [|done]. by destruct (Hno1 i (Hi1 eq_refl)).
    + by apply walk_no_raise in Hw.
    + done.
Qed.

End Trapped.

(** *** The processing order *)

Lemma insert_by_elev_perm x l : insert_by_elev x l ≡ₚ x :: l.
Proof.
  induction l as [|y l IH]; simpl; [done|].
  destruct (Qle_bool _ _); [done|]. rewrite IH. apply Permutation_swap.
Qed.

Lemma sort_by_elev_perm l : sort_by_elev l ≡ₚ l.
Proof.
  induction l as [|x l IH]; simpl; [done|].
  rewrite insert_by_elev_perm. by constructor.
Qed.

Lemma argsort_perm v : argsort v ≡ₚ seq 0 (length v).
Proof.
  unfold argsort. rewrite sort_by_elev_perm.
  rewrite fst_zip; [done|]. by rewrite length_seq.
Qed.

Lemma omapM_length {A B} (f : A → outcome B) l l' :
  omapM f l = Done l' → length l' = length l.
Proof.
  revert l'. induction l as [|x l IH]; intros l' Hl; simpl in *.
  - by injection Hl as <-.
  - apply obind_Done in Hl as (y & _ & Hl).
    apply obind_Done in Hl as (ys & Hys & Hl). injection Hl as <-.
    simpl. f_equal. by apply IH.
Qed.

Lemma np_take_in_range {A} (d : A) (l : list A) (idx : list Z) :
  (∀ i, i ∈ idx → 0 ≤ i < Z.of_nat (length l)) →
  np_take l idx = Done (map (λ i, default d (l !! Z.to_nat i)) idx).
Proof.
  intros Hidx. apply omapM_Done. intros i Hi.
  destruct (np_get_in_range l i (Hidx i Hi)) as (x & Hx & ->). by rewrite Hx.
Qed.

Lemma map_lookup_seq {A} (d : A) (l : list A) :
  map (λ i, default d (l !! i)) (seq 0 (length l)) = l.
Proof.
  apply list_eq. intros i. rewrite list_lookup_fmap.
  destruct (decide (i < length l)%nat) as [Hi|Hi].
  - rewrite lookup_seq_lt by done. simpl.
    destruct (lookup_lt_is_Some_2 l i Hi) as [x ->]. done.
  - rewrite lookup_seq_ge by lia. simpl. symmetry. apply lookup_ge_None. lia.
Qed.

(** The sorted array holds the core nodes, each as often as the mesh
    lists it. *)
Lemma sorted_core_nodes_perm :
  inputs_ok r hsd_ids grid →
  ∃ sor_z, sorted_core_nodes grid = Done sor_z ∧ sor_z ≡ₚ core.
Proof.
  intros Hok. unfold sorted_core_nodes.
  rewrite (np_take_in_range 0%Q).
  2:{ intros i Hi. rewrite (elevation_size _ _ _ Hok). by apply (core_in_range _ _ _ Hok). }
  simpl. set (core_elev := map _ core).
  assert (length core_elev = length core) as Hlen by apply length_map.
  pose proof (argsort_perm core_elev) as Hperm. rewrite Hlen in Hperm.
  clearbody core_elev.
  rewrite (np_take_in_range 0).
  2:{ intros i (k & -> & Hk)%list_elem_of_fmap.
      rewrite elem_of_reverse, Hperm in Hk.
      apply elem_of_seq in Hk. lia. }
  eexists. split; [done|].
  rewrite map_map.
  transitivity (map (λ k, default 0 (core !! Z.to_nat (Z.of_nat k))) (seq 0 (length core))).
  { apply Permutation_map. by rewrite reverse_Permutation. }
  erewrite map_ext; [by rewrite map_lookup_seq|].
  intros k. simpl. by rewrite Nat2Z.id.
Qed.

End TrackerProofs.

(** ** Results on [track_source] *)

Section TrackerResults.

Context {Id : Type}.
Variable r : Z → outcome Z.
Variable hsd_ids : Z → outcome Id.
Variable grid : Grid.

Lemma inputs_okb_correct : inputs_okb r hsd_ids grid = true → inputs_ok r hsd_ids grid.
Proof.
  unfold inputs_okb. intros [Hall Hlen%bool_decide_eq_true]%andb_true_iff.
  rewrite forallb_forall in Hall.
  assert (∀ c, c ∈ core_nodes grid →
    0 ≤ c < Z.of_nat (number_of_nodes grid) ∧ is_done (r c) = true
    ∧ is_done (hsd_ids c) = true) as Hc.
  { intros c Hin%list_elem_of_In. apply Hall in Hin.
    apply andb_true_iff in Hin as [[H1%bool_decide_eq_true H2]%andb_true_iff H3]. done. }
  split; [| done | |]; intros c Hin; destruct (Hc c Hin) as (H1 & H2 & H3); [done| |].
  - destruct (r c); try discriminate. eauto.
  - destruct (hsd_ids c); try discriminate. eauto.
Qed.

Lemma drains_within_correct k : ∀ j, drains_within r grid k j = true → drains r grid j.
Proof.
  induction k as [|k IH]; intros j Hd; simpl in Hd; [discriminate|].
  destruct (r j) as [m| |] eqn:Hr; try discriminate.
  destruct (decide (m = j)) as [->|Hne]; [by apply drains_sink|].
  destruct (decide (m ∈ core_nodes grid)) as [Hin|Hout]; [|by eapply drains_exit].
  rewrite bool_decide_eq_false_2, bool_decide_eq_false_2 in Hd by eauto.
  eapply drains_step; eauto.
Qed.

Lemma acyclicb_correct k : acyclicb r grid k = true → acyclic r grid.
Proof.
  unfold acyclicb. rewrite forallb_forall. intros Hall c Hc%list_elem_of_In.
  eapply drains_within_correct. by apply Hall.
Qed.

Local Abbreviation initial_state := (initial_state (Id := Id) grid).

Lemma initial_state_inv : tracker_inv grid initial_state.
Proof.
  split; simpl.
  - apply length_replicate.
  - intros n Hn. rewrite lookup_empty. simpl. apply lookup_replicate_2. lia.
  - intros n [l Hl]. by rewrite lookup_empty in Hl.
  - intros n. by rewrite lookup_empty.
  - intros n. rewrite lookup_empty. split; [by intros ?%elem_of_nil|by intros [? ?]].
Qed.

(** On well-formed acyclic inputs the call returns, given enough fuel. *)
Lemma track_source_terminates :
  inputs_ok r hsd_ids grid → acyclic r grid →
  ∃ f0, ∀ fuel, (f0 ≤ fuel)%nat →
    ∃ res, track_source r hsd_ids grid fuel = Done res.
Proof.
  intros Hok Hac. destruct (sorted_core_nodes_perm r hsd_ids grid Hok) as (sor_z & Hs & Hp).
  destruct (track_loop_terminates r hsd_ids grid sor_z Hok Hac) as [f0 Hf0].
  { intros i Hi. by rewrite <- Hp. }
  exists f0. intros fuel Hf. unfold track_source. rewrite Hs. simpl.
  destruct (Hf0 fuel initial_state Hf initial_state_inv) as [st' Hst'].
  unfold initial_state in Hst'. rewrite Hst'. simpl. eauto.
Qed.

(** Whenever the call returns, the result satisfies the invariant and
    every core node has been marked. *)
Lemma track_source_returns fuel hu fa :
  inputs_ok r hsd_ids grid →
  track_source r hsd_ids grid fuel = Done (hu, fa) →
  ∃ st sor_z, hu = hsd_upstr st ∧ fa = flow_accum st ∧ sor_z ≡ₚ core_nodes grid ∧
    track_loop r hsd_ids grid fuel sor_z initial_state = Done st ∧
    tracker_inv grid st ∧ ∀ c, c ∈ core_nodes grid → c ∈ alr_counted st.
Proof.
  intros Hok Hts. destruct (sorted_core_nodes_perm r hsd_ids grid Hok) as (sor_z & Hs & Hp).
  unfold track_source in Hts. rewrite Hs in Hts. simpl in Hts.
  apply obind_Done in Hts as (st & Hl & Hres). injection Hres as <- <-.
  destruct (track_loop_spec r hsd_ids grid fuel sor_z _ st Hok initial_state_inv)
    as (HI & _ & Hall); [intros i Hi; by rewrite <- Hp|done|].
  exists st, sor_z. split_and!; try done.
  intros c Hc. apply Hall. by rewrite Hp.
Qed.

(** A trapped set keeps the call running whatever the fuel. *)
Lemma track_source_trapped (S : Z → Prop) c fuel :
  inputs_ok r hsd_ids grid → trapped r grid S → S c →
  track_source r hsd_ids grid fuel = OutOfFuel.
Proof.
  intros Hok Htrap HS.
  destruct (sorted_core_nodes_perm r hsd_ids grid Hok) as (sor_z & Hs & Hp).
  unfold track_source. rewrite Hs. simpl.
  rewrite (track_loop_trapped r hsd_ids grid S Hok Htrap fuel c); try done.
  - apply initial_state_inv.
  - intros i Hi. by rewrite <- Hp.
  - simpl. by intros x ?%elem_of_nil.
  - rewrite Hp. by destruct (Htrap c HS).
Qed.

End TrackerResults.

(** ** The aggregator *)

Section AggregatorProofs.

Context {Id : Type} `{EqDecision Id}.

Lemma elem_of_first_seen (x : Id) l : x ∈ first_seen l ↔ x ∈ l.
Proof.
  induction l as [|y l IH]; simpl; [done|].
  rewrite !elem_of_cons, list_elem_of_filter, IH.
  destruct (decide (x = y)); intuition congruence.
Qed.

Lemma NoDup_first_seen (l : list Id) : NoDup (first_seen l).
Proof.
  induction l as [|y l IH]; simpl; [constructor|].
  constructor; [|by apply NoDup_filter].
  rewrite list_elem_of_filter. intuition congruence.
Qed.

Lemma first_seen_snoc (l : list Id) x :
  first_seen (l ++ [x]) = if decide (x ∈ l) then first_seen l else first_seen l ++ [x].
Proof.
  induction l as [|y l IH]; simpl; [done|]. rewrite IH.
  destruct (decide (x = y)) as [->|Hne].
  - rewrite (decide_True (P := y ∈ y :: l)) by left.
    destruct (decide (y ∈ l)); [done|].
    rewrite filter_app, filter_cons, filter_nil, decide_False by intuition congruence.
    by rewrite app_nil_r.
  - destruct (decide (x ∈ l)) as [Hin|Hout].
    + by rewrite decide_True by (by right).
    + rewrite decide_False by (rewrite elem_of_cons; intuition congruence).
      by rewrite filter_app, filter_cons, filter_nil, decide_True by done.
Qed.

Lemma occurrences_snoc (k : Id) l x :
  occurrences k (l ++ [x])
  = (occurrences k l + if decide (x = k) then 1 else 0)%nat.
Proof.
  unfold occurrences. rewrite filter_app, length_app, filter_cons, filter_nil.
  destruct (decide (x = k)); simpl; lia.
Qed.

Lemma occurrences_not_in (k : Id) l : k ∉ l → occurrences k l = 0%nat.
Proof.
  intros Hk. unfold occurrences.
  induction l as [|y l IH]; simpl; [done|].
  rewrite not_elem_of_cons in Hk. destruct Hk as [Hne Hk].
  rewrite filter_cons, decide_False by done. by apply IH.
Qed.

Lemma count_ids_snoc (l : list Id) x :
  count_ids (l ++ [x]) = counter_incr x (count_ids l).
Proof. unfold count_ids. by rewrite foldl_app. Qed.

Lemma counter_incr_map (f : Id → Z) (K : list Id) x :
  NoDup K →
  counter_incr x (map (λ k, (k, f k)) K)
  = if decide (x ∈ K)
    then map (λ k, (k, if decide (k = x) then f k + 1 else f k)) K
    else map (λ k, (k, f k)) K ++ [(x, 0 + 1)].
Proof.
  induction 1 as [|k K Hk HK IH]; simpl; [done|].
  destruct (decide (k = x)) as [->|Hne].
  - rewrite decide_True by left. f_equal.
    apply map_ext_in. intros k Hin%list_elem_of_In.
    rewrite decide_False; [done|]. by intros ->.
  - rewrite IH. destruct (decide (x ∈ K)) as [Hin|Hout].
    + by rewrite decide_True by (by right).
    + by rewrite decide_False by (rewrite elem_of_cons; intuition congruence).
Qed.

(** The counter holds, in order of first occurrence, every distinct
    identifier with its number of occurrences. *)
Lemma count_ids_spec (l : list Id) :
  count_ids l = map (λ k, (k, Z.of_nat (occurrences k l))) (first_seen l).
Proof.
  induction l as [|x l IH] using rev_ind; [done|].
  rewrite count_ids_snoc, IH, counter_incr_map by apply NoDup_first_seen.
  rewrite first_seen_snoc.
  destruct (decide (x ∈ l)) as [Hin|Hout].
  - rewrite decide_True by (by apply elem_of_first_seen).
    apply map_ext. intros k. rewrite occurrences_snoc.
    destruct (decide (k = x)) as [->|Hne].
    + rewrite decide_True by done. f_equal. lia.
    + rewrite decide_False by intuition congruence. f_equal. lia.
  - rewrite decide_False by (by rewrite elem_of_first_seen).
    rewrite map_app. simpl. f_equal.
    + apply map_ext_in. intros k Hk%list_elem_of_In.
      rewrite elem_of_first_seen in Hk.
      rewrite occurrences_snoc, decide_False by (intros ->; done). f_equal. lia.
    + rewrite occurrences_snoc, decide_True, occurrences_not_in by done. done.
Qed.

Lemma counter_get_map (f : Id → Z) (K : list Id) k :
  k ∈ K → counter_get k (map (λ k, (k, f k)) K) = f k.
Proof.
  induction K as [|k' K IH]; simpl; [by intros ?%elem_of_nil|].
  intros Hk. destruct (decide (k' = k)) as [->|Hne]; [done|].
  apply IH. apply elem_of_cons in Hk as [->|Hk]; done.
Qed.

Lemma foldl_add_shift a buf : foldl Z.add a buf = a + foldl Z.add 0 buf.
Proof.
  revert a. induction buf as [|y buf IH]; intros a; simpl; [lia|].
  rewrite (IH (a + y)), (IH (0 + y)). lia.
Qed.

Lemma py_sum_cons x buf : py_sum (x :: buf) = x + py_sum buf.
Proof. unfold py_sum. simpl. rewrite foldl_add_shift. lia.
Qed.

Lemma py_sum_indicator (K : list Id) x :
  NoDup K → x ∈ K →
  py_sum (map (λ k, if decide (x = k) then 1 else 0) K) = 1.
Proof.
  induction 1 as [|k K Hk HK IH]; [by intros ?%elem_of_nil|].
  intros Hx. simpl. rewrite py_sum_cons.
  destruct (decide (x = k)) as [->|Hne].
  - assert (py_sum (map (λ k0, if decide (k = k0) then 1 else 0) K) = 0) as ->; [|done].
    clear IH HK Hx. induction K as [|k' K IH]; [done|]. simpl. rewrite py_sum_cons.
    apply not_elem_of_cons in Hk as [Hne Hk]. rewrite decide_False by done.
    by rewrite IH.
  - rewrite IH; [done|]. apply elem_of_cons in Hx as [->|Hx]; done.
Qed.

Lemma py_sum_plus {A} (f g : A → Z) (K : list A) :
  py_sum (map (λ k, f k + g k) K) = py_sum (map f K) + py_sum (map g K).
Proof.
  induction K as [|k K IH]; simpl; [done|]. rewrite !py_sum_cons, IH. lia.
Qed.

(** The counts add up to the length of the sequence. *)
Lemma py_sum_occurrences (K l : list Id) :
  NoDup K → (∀ x, x ∈ l → x ∈ K) →
  py_sum (map (λ k, Z.of_nat (occurrences k l)) K) = Z.of_nat (length l).
Proof.
  intros HK. induction l as [|x l IH]; intros Hl.
  - unfold occurrences. simpl. clear. induction K; [done|].
    simpl. rewrite py_sum_cons. lia.
  - erewrite (map_ext _ (λ k, (if decide (x = k) then 1 else 0)
                              + Z.of_nat (occurrences k l))).
    + rewrite py_sum_plus, py_sum_indicator, IH; [simpl; lia| |done|].
      * intros y Hy. apply Hl. by right.
      * apply Hl. by left.
    + intros k. unfold occurrences. rewrite filter_cons.
      destruct (decide (x = k)); simpl; lia.
Qed.

(** What the loop body computes for one sequence; it never divides
    by zero. *)
Lemma aggregate_node_spec (l : list Id) :
  aggregate_node l = Done (first_seen l, map (fraction l) (first_seen l)).
Proof.
  unfold aggregate_node. rewrite count_ids_spec.
  set (K := first_seen l).
  assert (map fst (map (λ k, (k, Z.of_nat (occurrences k l))) K) = K) as ->.
  { rewrite map_map. simpl. apply map_id. }
  assert (map (λ k, counter_get k (map (λ k, (k, Z.of_nat (occurrences k l))) K)) K
          = map (λ k, Z.of_nat (occurrences k l)) K) as ->.
  { apply map_ext_in. intros k Hk%list_elem_of_In. by rewrite counter_get_map. }
  rewrite py_sum_occurrences;
    [|apply NoDup_first_seen|intros x Hx; by apply elem_of_first_seen].
  destruct l as [|x l]; [done|].
  rewrite (omapM_Done _ (λ s, (inject_Z s / inject_Z (Z.of_nat (length (x :: l))))%Q)).
  - simpl. by rewrite map_map.
  - intros s _. unfold py_truediv. by rewrite bool_decide_eq_false_2.
Qed.

Lemma aggregate_items_spec : ∀ (items : list (Z * list Id)) U C,
  NoDup items.*1 →
  aggregate_items items U C
  = Done ((first_seen <$> list_to_map items) ∪ U,
          ((λ l, map (fraction l) (first_seen l)) <$> list_to_map items) ∪ C).
Proof.
  induction items as [|[k l] items IH]; intros U C Hnd.
  { simpl. by rewrite !fmap_empty, !(left_id_L ∅ (∪)). }
  rewrite fmap_cons in Hnd. apply NoDup_cons in Hnd as [Hk Hnd].
  apply (not_elem_of_list_to_map_1 (M := gmap Z)) in Hk. simpl in Hk.
  cbn [aggregate_items list_to_map foldr uncurry fst snd].
  rewrite aggregate_node_spec. simpl. rewrite IH by done.
  rewrite !fmap_insert, <- !insert_union_l, <- !insert_union_r; [done| |];
    by rewrite lookup_fmap, Hk.
Qed.

(** The aggregator applies the loop body to every entry and always
    returns. *)
Lemma find_unique_spec (hsd_upstr : gmap Z (list Id)) :
  find_unique_upstream_hsd_ids_and_fractions hsd_upstr
  = Done (first_seen <$> hsd_upstr,
          (λ l, map (fraction l) (first_seen l)) <$> hsd_upstr).
Proof.
  unfold find_unique_upstream_hsd_ids_and_fractions.
  rewrite aggregate_items_spec by apply NoDup_fst_map_to_list.
  by rewrite list_to_map_to_list, !(right_id_L ∅ (∪)).
Qed.



End AggregatorProofs.

(** ** The decoder *)

Section DecoderProofs.

Lemma mesh_okb_correct grid codes : mesh_okb grid codes = true → mesh_ok grid codes.
Proof.
  unfold mesh_okb. rewrite !andb_true_iff, !bool_decide_eq_true, !forallb_forall.
  intros [[[[[H1 H2] H3] H4] H5] H6]. split; try done.
  - apply Forall_forall. intros row Hrow%list_elem_of_In%H3. by apply bool_decide_eq_true in Hrow.
  - apply Forall_forall. intros row Hrow%list_elem_of_In%H4. by apply bool_decide_eq_true in Hrow.
  - intros c Hc%list_elem_of_In%H6. by apply bool_decide_eq_true in Hc.
Qed.

(** The four blocks of a flipped four-column array are its columns,
    last column first. *)
Lemma hsplit_fliplr (m : list (list Z)) :
  Forall (λ row, length row = 4%nat) m →
  hsplit (fliplr m) 4
  = Done (map (λ k, map (λ row, take 1 (drop k (reverse row))) m) [0; 1; 2; 3]%nat).
Proof.
  intros Hm. unfold hsplit, fliplr.
  assert (forallb (λ row, bool_decide (Nat.modulo (length row) 4 = 0%nat)) (map reverse m)
          = true) as ->.
  { apply forallb_forall. intros row (row' & <- & Hin)%in_map_iff.
    rewrite Forall_forall in Hm. apply list_elem_of_In, Hm in Hin.
    by rewrite length_reverse, Hin. }
  f_equal. apply (map_ext _ _) with (l := seq 0 4). intros k.
  rewrite map_map. apply map_ext_in. intros row Hin%list_elem_of_In.
  rewrite Forall_forall in Hm. apply Hm in Hin.
  rewrite length_reverse, Hin. simpl. by rewrite Nat.mul_1_r.
Qed.

(** The array [neighbors] of the source, row by row. *)
Lemma neighbors_clockwise (neigh diag : list (list Z)) :
  Forall (λ row, length row = 4%nat) neigh →
  Forall (λ row, length row = 4%nat) diag →
  length neigh = length diag →
  let col k (m : list (list Z)) := map (λ row, take 1 (drop k (reverse row))) m in
  hstack [col 3%nat neigh; col 0%nat diag; col 0%nat neigh; col 1%nat diag;
          col 1%nat neigh; col 2%nat diag; col 2%nat neigh; col 3%nat diag]
  = zip_with clockwise_from_east neigh diag.
Proof.
  intros Hn Hd Hlen col. unfold hstack. simpl.
  apply list_eq. intros i. subst col. simpl.
  rewrite !lookup_zip_with, !list_lookup_fmap.
  destruct (neigh !! i) as [rn|] eqn:Hrn; simpl.
  - destruct (diag !! i) as [rd|] eqn:Hrd; simpl.
    + rewrite Forall_forall in Hn, Hd.
      pose proof (Hn rn (list_elem_of_lookup_2 _ _ _ Hrn)) as Hln.
      pose proof (Hd rd (list_elem_of_lookup_2 _ _ _ Hrd)) as Hld.
      destruct rn as [|e [|n [|w [|s [|]]]]]; try discriminate.
      destruct rd as [|ne [|nw [|sw [|se [|]]]]]; try discriminate.
      done.
    + apply lookup_ge_None in Hrd. apply lookup_lt_Some in Hrn. lia.
  - done.
Qed.

Lemma transpose_lookup (rows : list (list Z)) (w m k : nat) row :
  Forall (λ row, length row = w) rows → rows !! m = Some row → (k < w)%nat →
  length (transpose rows) = w ∧ transpose rows !! k ≫= (.!! m) = row !! k.
Proof.
  intros Hw Hm Hk.
  assert (∀ c, (c < w)%nat →
    omap (λ row', row' !! c) rows = map (λ row', default 0 (row' !! c)) rows) as Hcol.
  { intros c Hc. clear Hm. unfold omap.
    induction Hw as [|row' rows' Hlen Hw IH]; [done|]. simpl.
    destruct (lookup_lt_is_Some_2 row' c) as [x ->]; [lia|]. simpl. by rewrite IH. }
  assert (transpose rows = map (λ c, omap (λ row', row' !! c) rows) (seq 0 w)) as ->.
  { destruct rows as [|row0 rows']; [done|]. unfold transpose.
    by assert (length row0 = w) as -> by (by inversion Hw). }
  split; [by rewrite length_map, length_seq|].
  rewrite list_lookup_fmap, lookup_seq_lt by done.
  cbn [fmap option_fmap option_map mbind option_bind plus].
  rewrite Hcol, list_lookup_fmap, Hm by done.
  cbn [fmap option_fmap option_map].
  rewrite Forall_forall in Hw.
  pose proof (Hw row (list_elem_of_lookup_2 _ _ _ Hm)) as Hlen.
  by destruct (lookup_lt_is_Some_2 row k) as [x ->]; [lia|].
Qed.

(** Choosing along the rows: entry [m] is taken from row [m]. *)
Lemma choose_transpose (a : list Z) (rows : list (list Z)) (w : nat) :
  Forall (λ row, length row = w) rows → length a = length rows →
  Forall (λ k, 0 ≤ k < Z.of_nat w) a →
  choose a (transpose rows)
  = Done (zip_with (λ k row, default 0 (row !! Z.to_nat k)) a rows).
Proof.
  intros Hw Hlen Ha. unfold choose.
  rewrite (omapM_Done _ (λ '(m, k), default 0 (rows !! m ≫= (.!! Z.to_nat k)))).
  - f_equal. apply list_eq. intros i.
    rewrite list_lookup_fmap, !lookup_zip_with.
    destruct (a !! i) as [k|] eqn:Hk.
    + pose proof (lookup_lt_Some _ _ _ Hk) as Hi.
      rewrite lookup_seq_lt by done. simpl.
      by destruct (lookup_lt_is_Some_2 rows i) as [row ->]; [lia|].
    + by destruct (seq 0 (length a) !! i).
  - intros [m k] Hin. apply elem_of_lookup_zip_with in Hin as (i & m' & k' & [= <- <-] & Hm & Hk).
    apply lookup_seq in Hm as [-> Hi]. simpl in *.
    rewrite Forall_forall in Ha. pose proof (Ha k (list_elem_of_lookup_2 _ _ _ Hk)) as Hrange.
    destruct (lookup_lt_is_Some_2 rows i) as [row Hrow]; [lia|].
    destruct (transpose_lookup rows w i (Z.to_nat k) row Hw Hrow) as [Hlt Hval]; [lia|].
    rewrite Hlt, bool_decide_eq_true_2 by done.
    rewrite Hval, Hrow. simpl.
    assert (length row = w) as Hrl.
    { rewrite Forall_forall in Hw. apply Hw. by eapply list_elem_of_lookup_2. }
    by destruct (lookup_lt_is_Some_2 row (Z.to_nat k)) as [x ->]; [lia|].
Qed.

(** An entry outside [0 .. len(choices) - 1] makes [choose] raise. *)
Lemma choose_out_of_range (a : list Z) (choices : list (list Z)) k :
  k ∈ a → ¬ (0 ≤ k < Z.of_nat (length choices)) →
  choose a choices = Raise ValueError.
Proof.
  intros Hk Hout. unfold choose.
  assert (∀ (f : nat * Z → outcome Z) l,
    (∀ x, x ∈ l → f x = Raise ValueError ∨ ∃ y, f x = Done y) →
    (∃ x, x ∈ l ∧ f x = Raise ValueError) → omapM f l = Raise ValueError) as Hraise.
  { intros f l. induction l as [|x l IH]; intros Hall (x0 & Hx0 & Hf).
    - by apply elem_of_nil in Hx0.
    - simpl. destruct (Hall x) as [->|[y Hy]]; [left|done|]. rewrite Hy. simpl.
      rewrite IH; [done|intros z Hz; apply Hall; by right|].
      apply elem_of_cons in Hx0 as [->|Hx0]; [congruence|eauto]. }
  apply Hraise.
  - intros [m k'] _. case_bool_decide; [|by left].
    destruct (_ ≫= _); eauto.
  - apply list_elem_of_lookup in Hk as [i Hi].
    exists (i, k). split; [|by rewrite bool_decide_eq_false_2].
    apply elem_of_lookup_zip_with. exists i, i, k. split_and!; [done| |done].
    apply lookup_seq_lt. by apply lookup_lt_Some in Hi.
Qed.

(** Writing values that depend on the index alone. *)
Lemma np_put_map (f : Z → Z) : ∀ (idx : list Z) (r0 : list Z),
  (∀ i, i ∈ idx → 0 ≤ i < Z.of_nat (length r0)) →
  ∃ r', np_put r0 idx (map f idx) = Done r' ∧ length r' = length r0 ∧
    (∀ i, i ∈ idx → r' !! Z.to_nat i = Some (f i)) ∧
    (∀ n, Z.of_nat n ∉ idx → r' !! n = r0 !! n).
Proof.
  induction idx as [|i idx IH]; intros r0 Hidx; simpl.
  { exists r0. split_and!; try done. by intros i ?%elem_of_nil. }
  rewrite np_set_in_range by (apply Hidx; left). simpl.
  destruct (IH (<[Z.to_nat i := f i]> r0)) as (r' & Hput & Hlen & Hin & Hout).
  { intros i' Hi'. rewrite length_insert. apply Hidx. by right. }
  exists r'. rewrite length_insert in Hlen. split_and!; try done.
  - intros i' Hi'. destruct (decide (i' ∈ idx)) as [Hl|Hl]; [by apply Hin|].
    apply elem_of_cons in Hi' as [->|Hi']; [|done].
    assert (0 ≤ i < Z.of_nat (length r0)) as Hr by (apply Hidx; left).
    rewrite Hout by (by rewrite Z2Nat.id by lia).
    apply list_lookup_insert_eq. lia.
  - intros n Hn. apply not_elem_of_cons in Hn as [Hne Hn].
    assert (0 ≤ i < Z.of_nat (length r0)) as Hr by (apply Hidx; left).
    rewrite Hout by done. apply list_lookup_insert_ne. lia.
Qed.

Section Decoded.

Variable grid : Grid.
Variable flow_dir_arc : list Z.
Hypothesis Hmesh : mesh_ok grid flow_dir_arc.

Lemma neighbors_of_length c :
  c ∈ core_nodes grid → length (neighbors_of grid c) = 8%nat.
Proof.
  intros Hc. pose proof (mesh_core_in_range _ _ Hmesh c Hc) as Hr.
  unfold neighbors_of.
  destruct (lookup_lt_is_Some_2 (neighbors_at_node grid) (Z.to_nat c)) as [rn Hrn];
    [rewrite (neighbors_size _ _ Hmesh); lia|].
  destruct (lookup_lt_is_Some_2 (diagonals_at_node grid) (Z.to_nat c)) as [rd Hrd];
    [rewrite (diagonals_size _ _ Hmesh); lia|].
  rewrite Hrn, Hrd. simpl.
  pose proof (neighbors_width _ _ Hmesh) as Hn. pose proof (diagonals_width _ _ Hmesh) as Hd.
  rewrite Forall_forall in Hn, Hd.
  pose proof (Hn rn (list_elem_of_lookup_2 _ _ _ Hrn)) as Hln.
  pose proof (Hd rd (list_elem_of_lookup_2 _ _ _ Hrd)) as Hld.
  destruct rn as [|e [|n [|w [|s [|]]]]]; try discriminate.
  destruct rd as [|ne [|nw [|sw [|se [|]]]]]; try discriminate. done.
Qed.

(** The decoder up to the call of [np.choose]. *)
Lemma decoder_unfold :
  convert_arc_flow_directions_to_landlab_node_ids grid flow_dir_arc
  = (vals ← choose (map (exponent_at flow_dir_arc) (core_nodes grid))
                   (transpose (map (neighbors_of grid) (core_nodes grid)));
     np_put (replicate (number_of_nodes grid) 0) (core_nodes grid) vals).
Proof.
  unfold convert_arc_flow_directions_to_landlab_node_ids.
  rewrite !hsplit_fliplr by apply Hmesh.
  cbn [mbind outcome_bind obind map].
  change (np_get [?a; ?b; ?c; ?d] (-1)) with (Done d).
  change (np_get [?a; ?b; ?c; ?d] 0) with (Done a).
  change (np_get [?a; ?b; ?c; ?d] 1) with (Done b).
  change (np_get [?a; ?b; ?c; ?d] 2) with (Done c).
  change (np_get [?a; ?b; ?c; ?d] 3) with (Done d).
  cbn [mbind outcome_bind obind].
  rewrite neighbors_clockwise;
    [|apply Hmesh|apply Hmesh
     |by rewrite (neighbors_size _ _ Hmesh), (diagonals_size _ _ Hmesh)].
  rewrite (np_take_in_range (log2_astype_int 0)).
  2:{ intros i Hi. rewrite length_map, (codes_size _ _ Hmesh).
      by apply (mesh_core_in_range _ _ Hmesh). }
  rewrite (np_take_in_range []).
  2:{ intros i Hi. rewrite length_zip_with, (neighbors_size _ _ Hmesh),
        (diagonals_size _ _ Hmesh), Nat.min_id.
      by apply (mesh_core_in_range _ _ Hmesh). }
  cbn [mbind outcome_bind obind].
  assert (map (λ i, default (log2_astype_int 0)
                      (map log2_astype_int flow_dir_arc !! Z.to_nat i)) (core_nodes grid)
          = map (exponent_at flow_dir_arc) (core_nodes grid)) as ->.
  { apply map_ext. intros c. unfold exponent_at. rewrite list_lookup_fmap.
    by destruct (flow_dir_arc !! Z.to_nat c). }
  assert (map (λ i, default []
                      (zip_with clockwise_from_east (neighbors_at_node grid)
                         (diagonals_at_node grid) !! Z.to_nat i)) (core_nodes grid)
          = map (neighbors_of grid) (core_nodes grid)) as ->; [|done].
  apply map_ext. intros c. unfold neighbors_of. rewrite lookup_zip_with.
  destruct (neighbors_at_node grid !! Z.to_nat c) as [rn|]; simpl; [|done].
  destruct (diagonals_at_node grid !! Z.to_nat c) as [rd|]; simpl; [done|].
  by destruct rn as [|e [|n [|w [|s [|]]]]].
Qed.

(** When every core node carries an exponent within [0 .. 7], the
    decoder returns, the receiver of a core node is its neighbour at
    that position, and the other entries stay zero. *)
Lemma decoder_returns :
  (∀ c, c ∈ core_nodes grid → 0 ≤ exponent_at flow_dir_arc c < 8) →
  ∃ r, convert_arc_flow_directions_to_landlab_node_ids grid flow_dir_arc = Done r ∧
    length r = number_of_nodes grid ∧
    (∀ c, c ∈ core_nodes grid →
       r !! Z.to_nat c = Some (default 0 (neighbors_of grid c !! Z.to_nat (exponent_at flow_dir_arc c)))) ∧
    (∀ n, (n < number_of_nodes grid)%nat → Z.of_nat n ∉ core_nodes grid →
       r !! n = Some 0).
Proof.
  intros Hexp. rewrite decoder_unfold.
  rewrite (choose_transpose _ _ 8).
  - cbn [mbind outcome_bind obind].
    rewrite zip_with_fmap_l, zip_with_fmap_r, zip_with_diag.
    change (λ x, default 0 (neighbors_of grid x !! Z.to_nat (exponent_at flow_dir_arc x)))
      with (λ x, (λ c, default 0 (neighbors_of grid c !! Z.to_nat (exponent_at flow_dir_arc c))) x).
    destruct (np_put_map (λ c, default 0 (neighbors_of grid c !! Z.to_nat (exponent_at flow_dir_arc c)))
                (core_nodes grid) (replicate (number_of_nodes grid) 0))
      as (r & Hput & Hlen & Hin & Hout).
    { intros i Hi. rewrite length_replicate. by apply (mesh_core_in_range _ _ Hmesh). }
    exists r. rewrite length_replicate in Hlen. split_and!; try done.
    intros n Hn Hnc. rewrite Hout by done. by apply lookup_replicate_2.
  - apply Forall_forall. intros row (c & -> & Hc)%list_elem_of_fmap.
    by apply neighbors_of_length.
  - by rewrite !length_map.
  - apply Forall_forall. intros k (c & -> & Hc)%list_elem_of_fmap. by apply Hexp.
Qed.

(** One core node with an exponent outside [0 .. 7] makes the whole
    call raise. *)
Lemma decoder_raises c :
  c ∈ core_nodes grid → ¬ (0 ≤ exponent_at flow_dir_arc c < 8) →
  convert_arc_flow_directions_to_landlab_node_ids grid flow_dir_arc = Raise ValueError.
Proof.
  intros Hc Hexp. rewrite decoder_unfold.
  rewrite (choose_out_of_range _ _ (exponent_at flow_dir_arc c)); [done| |].
  - apply list_elem_of_fmap. eauto.
  - apply list_elem_of_lookup in Hc as [m Hm].
    destruct (transpose_lookup (map (neighbors_of grid) (core_nodes grid)) 8 m 0 (neighbors_of grid c))
      as [-> _]; [| |lia|done].
    + apply Forall_forall. intros row (c' & -> & Hc')%list_elem_of_fmap.
      by apply neighbors_of_length.
    + by rewrite list_lookup_fmap, Hm.
Qed.

End Decoded.

End DecoderProofs.

(** ** The heap model: what a call may write *)

Section HeapFrame.

Context {Id : Type}.

Local Open Scope hm_scope.

Lemma wp_bind {A B} (m : hm Id A) (f : A → hm Id B) Q E h :
  wp m (λ a h', wp (f a) Q E h') E h → wp (hbind m f) Q E h.
Proof. unfold wp, hbind. by destruct (m h) as [[a|e|] h']. Qed.

Lemma wp_mono {A} (m : hm Id A) (Q Q' : A → heap Id → Prop) E h :
  wp m Q E h → (∀ a h', Q a h' → Q' a h') → wp m Q' E h.
Proof. unfold wp. destruct (m h) as [[a|e|] h']; eauto. Qed.

Lemma wp_mono_exn {A} (m : hm Id A) (Q : A → heap Id → Prop) (E E' : heap Id → Prop) h :
  wp m Q E h → (∀ h', E h' → E' h') → wp m Q E' h.
Proof. unfold wp. destruct (m h) as [[a|e|] h']; eauto. Qed.

Lemma wp_ret {A} (a : A) (Q : A → heap Id → Prop) E h : Q a h → wp (hret a) Q E h.
Proof. done. Qed.

Lemma wp_lift {A} (m : outcome A) (Q : A → heap Id → Prop) (E : heap Id → Prop) h :
  E h → (∀ a, m = Done a → Q a h) → wp (lift m) Q E h.
Proof. unfold wp, lift. destruct m; eauto. Qed.

Lemma wp_alloc o (Q : nat → heap Id → Prop) E h :
  Q (length h) (h ++ [o]) → wp (alloc o) Q E h.
Proof. done. Qed.

Lemma wp_load l (Q : pyobj Id → heap Id → Prop) (E : heap Id → Prop) h :
  E h → (∀ o, h !! l = Some o → Q o h) → wp (load l) Q E h.
Proof. unfold wp, load. destruct (h !! l); eauto. Qed.

Lemma wp_store l o (Q : unit → heap Id → Prop) (E : heap Id → Prop) h :
  E h → ((l < length h)%nat → Q tt (<[l := o]> h)) → wp (store l o) Q E h.
Proof. unfold wp, store. case_bool_decide; eauto. Qed.

Lemma wp_type_error {A} (Q : A → heap Id → Prop) (E : heap Id → Prop) h :
  E h → wp type_error Q E h.
Proof. done. Qed.

Lemma wp_load_int l (Q : list Z → heap Id → Prop) (E : heap Id → Prop) h :
  E h → (∀ a, h !! l = Some (NdInt a) → Q a h) → wp (load_int l) Q E h.
Proof.
  intros HE HQ. apply wp_bind, wp_load; [done|]. intros [] Ho; by eauto using wp_ret.
Qed.

Lemma wp_load_float l (Q : list Q → heap Id → Prop) (E : heap Id → Prop) h :
  E h → (∀ a, h !! l = Some (NdFloat a) → Q a h) → wp (load_float l) Q E h.
Proof.
  intros HE HQ. apply wp_bind, wp_load; [done|]. intros [] Ho; by eauto using wp_ret.
Qed.

Lemma wp_load_int2 l (Q : list (list Z) → heap Id → Prop) (E : heap Id → Prop) h :
  E h → (∀ a, h !! l = Some (NdInt2 a) → Q a h) → wp (load_int2 l) Q E h.
Proof.
  intros HE HQ. apply wp_bind, wp_load; [done|]. intros [] Ho; by eauto using wp_ret.
Qed.

Lemma wp_load_list_int l (Q : list Z → heap Id → Prop) (E : heap Id → Prop) h :
  E h → (∀ a, h !! l = Some (ListInt a) → Q a h) → wp (load_list_int l) Q E h.
Proof.
  intros HE HQ. apply wp_bind, wp_load; [done|]. intros [] Ho; by eauto using wp_ret.
Qed.

Lemma wp_load_list_id l (Q : list Id → heap Id → Prop) (E : heap Id → Prop) h :
  E h → (∀ a, h !! l = Some (ListId a) → Q a h) → wp (load_list_id l) Q E h.
Proof.
  intros HE HQ. apply wp_bind, wp_load; [done|]. intros [] Ho; by eauto using wp_ret.
Qed.

Lemma wp_load_dict_ref l (Q : gmap Z nat → heap Id → Prop) (E : heap Id → Prop) h :
  E h → (∀ d, h !! l = Some (DictRef d) → Q d h) → wp (load_dict_ref l) Q E h.
Proof.
  intros HE HQ. apply wp_bind, wp_load; [done|]. intros [] Ho; by eauto using wp_ret.
Qed.

Lemma wp_getitem_int l j (Q : Z → heap Id → Prop) (E : heap Id → Prop) h :
  E h → (∀ x, Q x h) → wp (getitem_int l j) Q E h.
Proof.
  intros HE HQ. apply wp_bind, wp_load; [done|]. intros o _. apply wp_lift; eauto.
Qed.

Lemma wp_getitem_id l j (Q : Id → heap Id → Prop) (E : heap Id → Prop) h :
  E h → (∀ x, Q x h) → wp (getitem_id l j) Q E h.
Proof.
  intros HE HQ. apply wp_bind, wp_load; [done|]. intros o _. apply wp_lift; eauto.
Qed.

Lemma wp_list_int_append l x (Q : unit → heap Id → Prop) (E : heap Id → Prop) h :
  E h →
  (∀ v, h !! l = Some (ListInt v) → Q tt (<[l := ListInt (v ++ [x])]> h)) →
  wp (list_int_append l x) Q E h.
Proof.
  intros HE HQ. apply wp_bind, wp_load_list_int; [done|]. intros v Hv.
  apply wp_store; eauto.
Qed.

Lemma wp_list_id_append l x (Q : unit → heap Id → Prop) (E : heap Id → Prop) h :
  E h →
  (∀ v, h !! l = Some (ListId v) → Q tt (<[l := ListId (v ++ [x])]> h)) →
  wp (list_id_append l x) Q E h.
Proof.
  intros HE HQ. apply wp_bind, wp_load_list_id; [done|]. intros v Hv.
  apply wp_store; eauto.
Qed.

Lemma wp_copy_list_id l (Q : nat → heap Id → Prop) (E : heap Id → Prop) h :
  E h →
  (∀ v, h !! l = Some (ListId v) → Q (length h) (h ++ [ListId v])) →
  wp (copy_list_id l) Q E h.
Proof.
  intros HE HQ. apply wp_bind, wp_load_list_id; [done|]. intros v Hv.
  apply wp_alloc; eauto.
Qed.

Lemma wp_dict_ref_set l k ref (Q : unit → heap Id → Prop) (E : heap Id → Prop) h :
  E h →
  (∀ d, h !! l = Some (DictRef d) → Q tt (<[l := DictRef (<[k := ref]> d)]> h)) →
  wp (dict_ref_set l k ref) Q E h.
Proof.
  intros HE HQ. apply wp_bind, wp_load_dict_ref; [done|]. intros v Hv.
  apply wp_store; eauto.
Qed.

Lemma wp_nd_int_add l j x (Q : unit → heap Id → Prop) (E : heap Id → Prop) h :
  E h →
  (∀ v v', h !! l = Some (NdInt v) → Q tt (<[l := NdInt v']> h)) →
  wp (nd_int_add l j x) Q E h.
Proof.
  intros HE HQ. apply wp_bind, wp_load_int; [done|]. intros v Hv.
  apply wp_bind, wp_lift; [done|]. intros vj _.
  apply wp_bind, wp_lift; [done|]. intros v' _.
  apply wp_store; eauto.
Qed.

Section Frame.

(** The heap at the time of the call. *)
Variable h0 : heap Id.

Local Abbreviation framed := (framed h0).
Local Abbreviation fresh_dict := (fresh_dict h0).
Local Abbreviation owned := (owned h0).

Lemma framed_alloc h o : framed h → framed (h ++ [o]).
Proof. intros [rest ->]. exists (rest ++ [o]). by rewrite app_assoc. Qed.

Lemma framed_store h l o : (length h0 ≤ l)%nat → framed h → framed (<[l := o]> h).
Proof.
  intros Hl [rest ->]. exists (<[(l - length h0)%nat := o]> rest).
  by rewrite insert_app_r_alt.
Qed.

Lemma framed_length h : framed h → (length h0 ≤ length h)%nat.
Proof. intros [rest ->]. rewrite length_app. lia. Qed.

Lemma framed_take h : framed h → take (length h0) h = h0.
Proof. intros [rest ->]. by rewrite take_app_length. Qed.

Lemma owned_alloc lu h o : owned lu h → owned lu (h ++ [o]).
Proof.
  intros [Hf (d & Hd & Hfresh)]. split; [by apply framed_alloc|].
  exists d. split; [|done]. by apply lookup_app_l_Some.
Qed.

Lemma owned_store_other lu h l o old :
  owned lu h → (length h0 ≤ l)%nat → h !! l = Some old →
  (∀ d, old ≠ DictRef d) → owned lu (<[l := o]> h).
Proof.
  intros [Hf (d & Hd & Hfresh)] Hl Hold Hnd. split; [by apply framed_store|].
  exists d. split; [|done]. rewrite list_lookup_insert_ne; [done|].
  intros ->. rewrite Hd in Hold. injection Hold as <-. by destruct (Hnd d).
Qed.

Lemma owned_store_dict lu h d' :
  framed h → (lu < length h)%nat → (length h0 ≤ lu)%nat →
  (∀ n ref, d' !! n = Some ref → (length h0 ≤ ref)%nat) →
  owned lu (<[lu := DictRef d']> h).
Proof.
  intros Hf Hlt Hl Hfresh. split; [by apply framed_store|].
  exists d'. split; [|done]. by apply list_lookup_insert_eq.
Qed.

Lemma owned_dict lu h d :
  owned lu h → h !! lu = Some (DictRef d) →
  ∀ n ref, d !! n = Some ref → (length h0 ≤ ref)%nat.
Proof. intros [_ (d' & Hd' & Hfresh)] Hd. by simplify_eq. Qed.

Section Tracker.

Variable grid : HGrid.
Variable r hsd_ids la lf lu : nat.
Hypothesis Hla : (length h0 ≤ la)%nat.
Hypothesis Hlf : (length h0 ≤ lf)%nat.
Hypothesis Hlu : (length h0 ≤ lu)%nat.

Lemma walk_heap_owned fuel : ∀ sw j a lb h,
  (length h0 ≤ lb)%nat → owned lu h →
  wp (walk_heap grid r hsd_ids la lf lu fuel sw j a lb) (λ _ h', owned lu h') (owned lu) h.
Proof.
  induction fuel as [|fuel IH]; intros sw j a lb h Hlb Hown; [done|].
  cbn [walk_heap]. apply wp_bind.
  apply (wp_mono _ (λ _ h', h' = h)).
  { destruct sw; [done|]. apply wp_bind, wp_getitem_int; [done|]. intros j'.
    apply wp_bind, wp_load_int; [done|]. intros core _. by apply wp_ret. }
  intros [k|] ? ->; [|by apply wp_ret]. clear j.
  apply wp_bind, wp_load_int; [done|]. intros fa Hfa.
  apply wp_bind, wp_lift; [done|]. intros fj _.
  apply wp_bind. apply (wp_mono _ (λ _ h', owned lu h')).
  { case_bool_decide; [|by apply wp_ret].
    apply wp_bind, wp_list_int_append; [done|]. intros v Hv.
    assert (owned lu (<[la := ListInt (v ++ [k])]> h)) as Hown1
      by (by eapply owned_store_other).
    apply wp_bind, wp_getitem_id; [done|]. intros hid.
    apply wp_bind, wp_list_id_append; [done|]. intros v' Hv'.
    apply wp_ret. by eapply owned_store_other. }
  clear dependent h. intros a' h Hown.
  apply wp_bind, wp_nd_int_add; [done|]. intros v v' Hv.
  assert (owned lu (<[lf := NdInt v']> h)) as Hown1 by (by eapply owned_store_other).
  clear dependent v. revert Hown1. generalize (<[lf := NdInt v']> h).
  clear dependent h. intros h Hown.
  apply wp_bind, wp_load_dict_ref; [done|]. intros d Hd.
  pose proof (owned_dict lu h d Hown Hd) as Hfresh.
  apply wp_bind. apply (wp_mono _ (λ _ h', owned lu h')).
  { destruct (d !! k) as [entry|] eqn:Hentry.
    - apply wp_bind, wp_copy_list_id; [done|]. intros v1 Hv1.
      pose proof (owned_alloc lu h (ListId v1) Hown) as Hown1.
      apply wp_bind, wp_load_list_id; [done|]. intros old Hold.
      apply wp_bind, wp_load_list_id; [done|]. intros new _.
      apply wp_bind, wp_store; [done|]. intros _.
      assert (owned lu (<[entry := ListId (old ++ new)]> (h ++ [ListId v1]))) as Hown2.
      { eapply owned_store_other; eauto. }
      apply wp_dict_ref_set; [done|]. intros d2 Hd2.
      apply owned_store_dict; [apply Hown2|by eapply lookup_lt_Some|done|].
      intros n ref. rewrite lookup_insert. case_decide.
      + intros [= <-]. eauto.
      + by apply (owned_dict lu _ d2 Hown2).
    - apply wp_bind, wp_copy_list_id; [done|]. intros v1 Hv1.
      pose proof (owned_alloc lu h (ListId v1) Hown) as Hown1.
      apply wp_dict_ref_set; [done|]. intros d2 Hd2.
      apply owned_store_dict; [apply Hown1|by eapply lookup_lt_Some|done|].
      intros n ref. rewrite lookup_insert. case_decide.
      + intros [= <-]. apply framed_length, Hown.
      + by apply (owned_dict lu _ d2 Hown1). }
  clear dependent h. intros _ h Hown.
  apply wp_bind, wp_getitem_int; [done|]. intros rj.
  case_bool_decide; [by apply wp_ret|]. by apply IH.
Qed.

Lemma track_loop_heap_owned fuel : ∀ sor_z h,
  owned lu h →
  wp (track_loop_heap grid r hsd_ids la lf lu fuel sor_z)
     (λ _ h', owned lu h') (owned lu) h.
Proof.
  induction sor_z as [|i rest IH]; intros h Hown; [done|].
  cbn [track_loop_heap].
  apply wp_bind, wp_load_list_int; [done|]. intros alr _.
  case_bool_decide; [by apply IH|].
  apply wp_bind, wp_getitem_int; [done|]. intros ri.
  case_bool_decide.
  - apply wp_bind, wp_getitem_id; [done|]. intros hid.
    apply wp_bind, wp_alloc.
    pose proof (owned_alloc lu h (ListId [hid]) Hown) as Hown1.
    apply wp_bind, wp_dict_ref_set; [done|]. intros d Hd.
    assert (owned lu (<[lu := DictRef (<[i := length h]> d)]> (h ++ [ListId [hid]])))
      as Hown2.
    { apply owned_store_dict; [apply Hown1|by eapply lookup_lt_Some|done|].
      intros n ref. rewrite lookup_insert. case_decide.
      - intros [= <-]. apply framed_length, Hown.
      - by apply (owned_dict lu _ d Hown1). }
    apply wp_bind, wp_nd_int_add; [done|]. intros v v' Hv.
    assert (owned lu (<[lf := NdInt v']>
              (<[lu := DictRef (<[i := length h]> d)]> (h ++ [ListId [hid]])))) as Hown3
      by (by eapply owned_store_other).
    apply wp_bind, wp_list_int_append; [done|]. intros w Hw.
    apply IH. by eapply owned_store_other.
  - apply wp_bind, wp_alloc.
    pose proof (owned_alloc lu h (ListId []) Hown) as Hown1.
    apply wp_bind.
    apply (wp_mono _ (λ _ h', owned lu h')).
    + apply walk_heap_owned; [|done]. apply framed_length, Hown.
    + intros _ h' Hown'. by apply IH.
Qed.

End Tracker.

(** At no point does [track_source] write to an object that existed
    when it was called. *)
Lemma track_source_heap_framed grid r hsd_ids fuel :
  wp (track_source_heap grid r hsd_ids fuel) (λ _ h', framed h') framed h0.
Proof.
  assert (framed h0) as Hf0 by (exists []; by rewrite app_nil_r).
  unfold track_source_heap.
  apply wp_bind, wp_bind, wp_load_float; [done|]. intros zv _.
  apply wp_bind, wp_load_int; [done|]. intros cv _.
  apply wp_bind, wp_lift; [done|]. intros e _.
  apply wp_alloc. pose proof (framed_alloc h0 (NdFloat e) Hf0) as Hf1.
  revert Hf1. generalize (h0 ++ [NdFloat e]). intros h1 Hf1. generalize (length h0) at 1.
  intros core_elev.
  apply wp_bind, wp_bind, wp_load_float; [done|]. intros ev _.
  apply wp_bind, wp_load_int; [done|]. intros cv' _.
  apply wp_bind, wp_lift; [done|]. intros s _.
  apply wp_alloc. pose proof (framed_alloc h1 (NdInt s) Hf1) as Hf2.
  generalize (length h1) at 1. intros sor_z.
  revert Hf2. generalize (h1 ++ [NdInt s]). clear dependent h1. intros h2 Hf2.
  apply wp_bind, wp_alloc.
  pose proof (framed_alloc h2 (ListInt []) Hf2) as Hf3.
  pose proof (framed_length h2 Hf2) as Hla.
  revert Hf3. generalize (h2 ++ [ListInt []]). generalize (length h2) Hla.
  clear dependent h2. intros la Hla h3 Hf3.
  apply wp_bind, wp_alloc.
  pose proof (framed_alloc h3 (NdInt (replicate (h_number_of_nodes grid) 0)) Hf3) as Hf4.
  pose proof (framed_length h3 Hf3) as Hlf.
  revert Hf4. generalize (h3 ++ [NdInt (replicate (h_number_of_nodes grid) 0)]).
  generalize (length h3) Hlf. clear dependent h3. intros lf Hlf h4 Hf4.
  apply wp_bind, wp_alloc.
  pose proof (framed_length h4 Hf4) as Hlu.
  assert (owned (length h4) (h4 ++ [DictRef ∅])) as Hown.
  { split; [by apply framed_alloc|]. exists ∅. split; [|done].
    by apply list_lookup_middle. }
  revert Hown. generalize (h4 ++ [DictRef ∅]). generalize (length h4) Hlu.
  clear dependent h4. intros lu Hlu h5 Hown.
  apply wp_bind, wp_load_int; [apply Hown|]. intros order _.
  apply wp_bind.
  apply (wp_mono _ (λ _ h', owned lu h')).
  - eapply wp_mono_exn; [by apply track_loop_heap_owned|]. by intros h' [? _].
  - intros _ h' [Hf' _]. by apply wp_ret.
Qed.

(** Nor does the decoder. *)
Lemma decoder_heap_framed grid flow_dir_arc :
  wp (convert_arc_flow_directions_to_landlab_node_ids_heap grid flow_dir_arc)
     (λ _ h', framed h') framed h0.
Proof.
  assert (framed h0) as Hf0 by (exists []; by rewrite app_nil_r).
  unfold convert_arc_flow_directions_to_landlab_node_ids_heap.
  apply wp_bind, wp_bind, wp_load_int; [done|]. intros fd _.
  apply wp_alloc. pose proof (framed_alloc h0 (NdInt (map log2_astype_int fd)) Hf0) as Hf1.
  revert Hf1. generalize (h0 ++ [NdInt (map log2_astype_int fd)]).
  generalize (length h0) at 1. intros r_arc_raw h1 Hf1.
  apply wp_bind, wp_load_int2; [done|]. intros neigh_ _.
  apply wp_bind, wp_load_int2; [done|]. intros diag_ _.
  do 10 (apply wp_bind, wp_lift; [done|]; intros ? _).
  apply wp_bind, wp_alloc.
  match goal with |- wp _ _ _ (h1 ++ [?o]) =>
    pose proof (framed_alloc h1 o Hf1) as Hf2; revert Hf2; generalize (h1 ++ [o]) end.
  generalize (length h1) at 1. clear dependent h1. intros neighbors h2 Hf2.
  apply wp_bind, wp_alloc.
  pose proof (framed_length h2 Hf2) as Hlr.
  pose proof (framed_alloc h2 (NdInt (replicate (h_number_of_nodes grid) 0)) Hf2) as Hf3.
  revert Hf3. generalize (h2 ++ [NdInt (replicate (h_number_of_nodes grid) 0)]).
  generalize (length h2) Hlr. clear dependent h2. intros lr Hlr h3 Hf3.
  apply wp_bind, wp_load_int; [done|]. intros core _.
  apply wp_bind, wp_bind, wp_load_int; [done|]. intros v _.
  apply wp_lift; [done|]. intros idx _.
  apply wp_bind, wp_bind, wp_load_int2; [done|]. intros v2 _.
  apply wp_lift; [done|]. intros rows _.
  apply wp_bind, wp_lift; [done|]. intros vals _.
  apply wp_bind, wp_load_int; [done|]. intros rv _.
  apply wp_bind, wp_lift; [done|]. intros rv' _.
  apply wp_bind, wp_store; [done|]. intros _.
  apply wp_ret. by apply framed_store.
Qed.

End Frame.

End HeapFrame.

(** ** The heap model: agreement with the functional model *)

Section HeapRefinement.

Context {Id : Type}.

Local Open Scope hm_scope.

Lemma sim_bind {A B A' B'} (R1 : A → B → heap Id → Prop) (R2 : A' → B' → heap Id → Prop)
    (m : hm Id A) (p : outcome B) (f : A → hm Id A') (g : B → outcome B') h :
  sim R1 m p h → (∀ a b h', R1 a b h' → sim R2 (f a) (g b) h') →
  sim R2 (hbind m f) (p ≫= g) h.
Proof.
  unfold sim, hbind. intros H1 H2.
  destruct (m h) as [[a|e|] h'], p as [b|e'|]; simpl in *; try done. by apply H2.
Qed.

Lemma sim_ret {A B} (R : A → B → heap Id → Prop) a b h :
  R a b h → sim R (hret a) (Done b) h.
Proof. done. Qed.

Lemma sim_mono {A B} (R R' : A → B → heap Id → Prop) m p h :
  sim R m p h → (∀ a b h', R a b h' → R' a b h') → sim R' m p h.
Proof. unfold sim. destruct (m h) as [[a|e|] h'], p as [b|e'|]; eauto. Qed.

(** A pure operation, run on both sides. *)
Lemma sim_bind_lift {A A' B'} (R : A' → B' → heap Id → Prop)
    (m : outcome A) (f : A → hm Id A') (g : A → outcome B') h :
  (∀ a, m = Done a → sim R (f a) (g a) h) →
  sim R (hbind (lift m) f) (m ≫= g) h.
Proof.
  intros Hk. unfold sim, hbind, lift. destruct m as [a|e|]; simpl; try done.
  by apply Hk.
Qed.

(** A step of the heap computation alone. *)
Lemma sim_step {A A' B'} (R : A' → B' → heap Id → Prop)
    (m : hm Id A) (f : A → hm Id A') (p : outcome B') a h h' :
  m h = (Done a, h') → sim R (f a) p h' → sim R (hbind m f) p h.
Proof. intros Hm. unfold sim, hbind. by rewrite Hm. Qed.

Lemma hbind_Done {A B} (m : hm Id A) (f : A → hm Id B) a h h' :
  m h = (Done a, h') → hbind m f h = f a h'.
Proof. intros Hm. unfold hbind. by rewrite Hm. Qed.

Lemma load_int_eq l a (h : heap Id) :
  h !! l = Some (NdInt a) → load_int l h = (Done a, h).
Proof. intros Hl. unfold load_int, hbind, load. by rewrite Hl. Qed.

Lemma load_float_eq l a (h : heap Id) :
  h !! l = Some (NdFloat a) → load_float l h = (Done a, h).
Proof. intros Hl. unfold load_float, hbind, load. by rewrite Hl. Qed.

Lemma load_int2_eq l a (h : heap Id) :
  h !! l = Some (NdInt2 a) → load_int2 l h = (Done a, h).
Proof. intros Hl. unfold load_int2, hbind, load. by rewrite Hl. Qed.

Lemma load_list_int_eq l a (h : heap Id) :
  h !! l = Some (ListInt a) → load_list_int l h = (Done a, h).
Proof. intros Hl. unfold load_list_int, hbind, load. by rewrite Hl. Qed.

Lemma load_list_id_eq l a (h : heap Id) :
  h !! l = Some (ListId a) → load_list_id l h = (Done a, h).
Proof. intros Hl. unfold load_list_id, hbind, load. by rewrite Hl. Qed.

Lemma load_dict_ref_eq l d (h : heap Id) :
  h !! l = Some (DictRef d) → load_dict_ref l h = (Done d, h).
Proof. intros Hl. unfold load_dict_ref, hbind, load. by rewrite Hl. Qed.

Lemma store_eq l o o' (h : heap Id) :
  h !! l = Some o' → store l o h = (Done tt, <[l := o]> h).
Proof.
  intros Hl%lookup_lt_Some. unfold store. by rewrite bool_decide_eq_true_2.
Qed.

Lemma list_int_append_eq l v x (h : heap Id) :
  h !! l = Some (ListInt v) →
  list_int_append l x h = (Done tt, <[l := ListInt (v ++ [x])]> h).
Proof.
  intros Hl. unfold list_int_append.
  rewrite (hbind_Done _ _ _ _ _ (load_list_int_eq _ _ _ Hl)). by eapply store_eq.
Qed.

Lemma list_id_append_eq l v x (h : heap Id) :
  h !! l = Some (ListId v) →
  list_id_append l x h = (Done tt, <[l := ListId (v ++ [x])]> h).
Proof.
  intros Hl. unfold list_id_append.
  rewrite (hbind_Done _ _ _ _ _ (load_list_id_eq _ _ _ Hl)). by eapply store_eq.
Qed.

Lemma copy_list_id_eq l v (h : heap Id) :
  h !! l = Some (ListId v) → copy_list_id l h = (Done (length h), h ++ [ListId v]).
Proof.
  intros Hl. unfold copy_list_id.
  by rewrite (hbind_Done _ _ _ _ _ (load_list_id_eq _ _ _ Hl)).
Qed.

Lemma dict_ref_set_eq l d k ref (h : heap Id) :
  h !! l = Some (DictRef d) →
  dict_ref_set l k ref h = (Done tt, <[l := DictRef (<[k := ref]> d)]> h).
Proof.
  intros Hl. unfold dict_ref_set.
  rewrite (hbind_Done _ _ _ _ _ (load_dict_ref_eq _ _ _ Hl)). by eapply store_eq.
Qed.

Lemma nd_int_add_eq l v j x vj v' (h : heap Id) :
  h !! l = Some (NdInt v) → np_get v j = Done vj → np_set v j (vj + x) = Done v' →
  nd_int_add l j x h = (Done tt, <[l := NdInt v']> h).
Proof.
  intros Hl Hget Hset. unfold nd_int_add.
  rewrite (hbind_Done _ _ _ _ _ (load_int_eq _ _ _ Hl)).
  unfold hbind at 1, lift at 1. rewrite Hget.
  unfold hbind at 1, lift at 1. rewrite Hset. by eapply store_eq.
Qed.

Lemma np_set_after_get {A} (l : list A) i x y :
  np_get l i = Done x → ∃ l', np_set l i y = Done l'.
Proof.
  unfold np_get, np_set. destruct (np_index (length l) i); [eauto|done].
Qed.

Lemma sim_getitem_int {A' B'} (R : A' → B' → heap Id → Prop) l j
    (f : Z → hm Id A') (g : Z → outcome B') (h hin : heap Id) :
  h !! l = hin !! l →
  (∀ x, getitem_int_at hin l j = Done x → sim R (f x) (g x) h) →
  sim R (hbind (getitem_int l j) f) (getitem_int_at hin l j ≫= g) h.
Proof.
  intros Heq Hk. unfold getitem_int, getitem_int_at, sim, hbind, load, lift in *.
  rewrite Heq. destruct (hin !! l) as [o|]; simpl; [|done].
  destruct (obj_getitem_int o j) as [x| |]; simpl; try done. by apply Hk.
Qed.

Lemma sim_getitem_id {A' B'} (R : A' → B' → heap Id → Prop) l j
    (f : Id → hm Id A') (g : Id → outcome B') (h hin : heap Id) :
  h !! l = hin !! l →
  (∀ x, getitem_id_at hin l j = Done x → sim R (f x) (g x) h) →
  sim R (hbind (getitem_id l j) f) (getitem_id_at hin l j ≫= g) h.
Proof.
  intros Heq Hk. unfold getitem_id, getitem_id_at, sim, hbind, load, lift in *.
  rewrite Heq. destruct (hin !! l) as [o|]; simpl; [|done].
  destruct (obj_getitem_id o j) as [x| |]; simpl; try done. by apply Hk.
Qed.

Lemma sim_bind_assoc {A A' A'' B} (R : A'' → B → heap Id → Prop)
    (m : hm Id A) (f : A → hm Id A') (k : A' → hm Id A'') (p : outcome B) h :
  sim R (hbind m (λ a, hbind (f a) k)) p h → sim R (hbind (hbind m f) k) p h.
Proof. unfold sim, hbind. by destruct (m h) as [[a|e|] h']. Qed.

Lemma obind_assoc {A B C} (m : outcome A) (f : A → outcome B) (k : B → outcome C) :
  (m ≫= f) ≫= k = m ≫= (λ a, f a ≫= k).
Proof. by destruct m. Qed.

(** A pure operation that ends the pure side. *)
Lemma sim_bind_lift_last {A A'} (R : A' → A → heap Id → Prop)
    (m : outcome A) (f : A → hm Id A') h :
  (∀ a, m = Done a → sim R (f a) (Done a) h) → sim R (hbind (lift m) f) m h.
Proof.
  intros Hk. unfold sim, hbind, lift. destruct m as [a|e|]; simpl; try done.
  by apply Hk.
Qed.

(** [arr[j] += x], against the read and the write of the pure model. *)
Lemma sim_nd_int_add {A' B'} (R : A' → B' → heap Id → Prop) l v j x
    (f : unit → hm Id A') (k : list Z → outcome B') (h : heap Id) :
  h !! l = Some (NdInt v) →
  (∀ v', sim R (f tt) (k v') (<[l := NdInt v']> h)) →
  sim R (hbind (nd_int_add l j x) f) (np_get v j ≫= λ vj, np_set v j (vj + x) ≫= k) h.
Proof.
  intros Hl Hk. unfold nd_int_add.
  apply sim_bind_assoc. eapply sim_step; [by apply load_int_eq|].
  apply sim_bind_assoc, sim_bind_lift. intros vj _.
  apply sim_bind_assoc, sim_bind_lift. intros v' _.
  eapply sim_step; [by eapply store_eq|]. apply Hk.
Qed.

Section Refines.

Variable h0 : heap Id.
Variable la lf lu : nat.
Hypothesis Hla : (length h0 ≤ la)%nat.
Hypothesis Hlf : (length h0 ≤ lf)%nat.
Hypothesis Hlu : (length h0 ≤ lu)%nat.

Local Abbreviation rep := (rep h0 la lf lu).

Lemma framed_lookup (h : heap Id) l :
  framed h0 h → is_Some (h0 !! l) → h !! l = h0 !! l.
Proof. intros [rest ->] [o Ho]. rewrite Ho. by apply lookup_app_l_Some. Qed.

Lemma rep_alloc d alr fa hu h o : rep d alr fa hu h → rep d alr fa hu (h ++ [o]).
Proof.
  intros [Hf Ha Hfa Hu He Hi]. split; try (by apply lookup_app_l_Some); try done.
  - destruct Hf as [rest ->]. exists (rest ++ [o]). by rewrite app_assoc.
  - intros n. specialize (He n). destruct (d !! n) as [ref|]; [|done].
    destruct He as (Hge & v & Hv & Hn). split; [done|]. exists v.
    split; [by apply lookup_app_l_Some|done].
Qed.

Lemma rep_set_alr d alr alr' fa hu h :
  rep d alr fa hu h → rep d alr' fa hu (<[la := ListInt alr']> h).
Proof.
  intros [Hf Ha Hfa Hu He Hi]. split; try done.
  - destruct Hf as [rest ->]. exists (<[(la - length h0)%nat := ListInt alr']> rest).
    by rewrite insert_app_r_alt.
  - apply list_lookup_insert_eq. by eapply lookup_lt_Some.
  - rewrite list_lookup_insert_ne; [done|congruence].
  - rewrite list_lookup_insert_ne; [done|congruence].
  - intros n. specialize (He n). destruct (d !! n) as [ref|]; [|done].
    destruct He as (Hge & v & Hv & Hn). split; [done|]. exists v. split; [|done].
    rewrite list_lookup_insert_ne; [done|congruence].
Qed.

Lemma rep_set_fa d alr fa fa' hu h :
  rep d alr fa hu h → rep d alr fa' hu (<[lf := NdInt fa']> h).
Proof.
  intros [Hf Ha Hfa Hu He Hi]. split; try done.
  - destruct Hf as [rest ->]. exists (<[(lf - length h0)%nat := NdInt fa']> rest).
    by rewrite insert_app_r_alt.
  - rewrite list_lookup_insert_ne; [done|congruence].
  - apply list_lookup_insert_eq. by eapply lookup_lt_Some.
  - rewrite list_lookup_insert_ne; [done|congruence].
  - intros n. specialize (He n). destruct (d !! n) as [ref|]; [|done].
    destruct He as (Hge & v & Hv & Hn). split; [done|]. exists v. split; [|done].
    rewrite list_lookup_insert_ne; [done|congruence].
Qed.

(** A list that no entry of the dict refers to: the segment buffer. *)
Lemma rep_store_other d alr fa hu h lb b b' :
  rep d alr fa hu h → h !! lb = Some (ListId b) → (∀ n, d !! n ≠ Some lb) →
  (length h0 ≤ lb)%nat → rep d alr fa hu (<[lb := ListId b']> h).
Proof.
  intros [Hf Ha Hfa Hu He Hi] Hb Hnb Hlb. split; try done.
  - destruct Hf as [rest ->]. exists (<[(lb - length h0)%nat := ListId b']> rest).
    by rewrite insert_app_r_alt.
  - rewrite list_lookup_insert_ne; [done|congruence].
  - rewrite list_lookup_insert_ne; [done|congruence].
  - rewrite list_lookup_insert_ne; [done|congruence].
  - intros n. specialize (He n). destruct (d !! n) as [ref|] eqn:Hn; [|done].
    destruct He as (Hge & v & Hv & Hn'). split; [done|]. exists v. split; [|done].
    rewrite list_lookup_insert_ne; [done|]. intros <-. by apply (Hnb n).
Qed.

(** The list behind the entry of [k], extended in place. *)
Lemma rep_store_entry d alr fa hu h k entry v' :
  rep d alr fa hu h → d !! k = Some entry →
  rep d alr fa (<[k := v']> hu) (<[entry := ListId v']> h).
Proof.
  intros [Hf Ha Hfa Hu He Hi] Hk.
  pose proof (He k) as Hek. rewrite Hk in Hek. destruct Hek as (Hge & v & Hv & Hn).
  split; try done.
  - destruct Hf as [rest ->]. exists (<[(entry - length h0)%nat := ListId v']> rest).
    by rewrite insert_app_r_alt.
  - rewrite list_lookup_insert_ne; [done|congruence].
  - rewrite list_lookup_insert_ne; [done|congruence].
  - rewrite list_lookup_insert_ne; [done|congruence].
  - intros n. destruct (decide (n = k)) as [->|Hne].
    + rewrite Hk, lookup_insert_eq. split; [done|]. exists v'. split; [|done].
      apply list_lookup_insert_eq. by eapply lookup_lt_Some.
    + specialize (He n). rewrite lookup_insert_ne by done.
      destruct (d !! n) as [ref|] eqn:Hdn; [|done].
      destruct He as (Hge' & w & Hw & Hn'). split; [done|]. exists w. split; [|done].
      rewrite list_lookup_insert_ne; [done|]. intros <-. by apply Hne, (Hi n k entry).
Qed.

(** [d[k] = ref] for a list that no other key refers to. *)
Lemma rep_dict_insert d alr fa hu h k ref v :
  rep d alr fa hu h → h !! ref = Some (ListId v) → (length h0 ≤ ref)%nat →
  (∀ n, n ≠ k → d !! n ≠ Some ref) →
  rep (<[k := ref]> d) alr fa (<[k := v]> hu) (<[lu := DictRef (<[k := ref]> d)]> h).
Proof.
  intros [Hf Ha Hfa Hu He Hi] Href Hge Hother. split.
  - destruct Hf as [rest ->]. exists (<[(lu - length h0)%nat := DictRef (<[k := ref]> d)]> rest).
    by rewrite insert_app_r_alt.
  - rewrite list_lookup_insert_ne; [done|congruence].
  - rewrite list_lookup_insert_ne; [done|congruence].
  - apply list_lookup_insert_eq. by eapply lookup_lt_Some.
  - intros n. destruct (decide (n = k)) as [->|Hne].
    + rewrite !lookup_insert_eq. split; [done|]. exists v. split; [|done].
      rewrite list_lookup_insert_ne; [done|congruence].
    + specialize (He n). rewrite !lookup_insert_ne by done.
      destruct (d !! n) as [ref'|] eqn:Hdn; [|done].
      destruct He as (Hge' & w & Hw & Hn'). split; [done|]. exists w. split; [|done].
      rewrite list_lookup_insert_ne; [done|congruence].
  - intros n n' ref'. rewrite !lookup_insert.
    repeat case_decide; subst; try done.
    + intros [= <-] Hn'. by destruct (Hother n').
    + intros Hn [= <-]. by destruct (Hother n).
    + apply Hi.
Qed.

Variable grid : HGrid.
Variable r hsd_ids : nat.
Variable g : Grid.
Hypothesis Hgrid : grid_at grid h0 = Some g.
Hypothesis Hr : is_Some (h0 !! r).
Hypothesis Hhsd : is_Some (h0 !! hsd_ids).

Local Abbreviation rp := (getitem_int_at h0 r).
Local Abbreviation hp := (getitem_id_at h0 hsd_ids).

Lemma grid_at_core : h0 !! h_core_nodes grid = Some (NdInt (core_nodes g)).
Proof.
  unfold grid_at in Hgrid.
  destruct (h0 !! h_core_nodes grid) as [[]|]; try done.
  destruct (h0 !! h_topographic__elevation grid) as [[]|]; try done.
  destruct (h0 !! h_neighbors_at_node grid) as [[]|]; try done.
  destruct (h0 !! h_diagonals_at_node grid) as [[]|]; try done.
  by injection Hgrid as <-.
Qed.

Lemma walk_heap_sim fuel : ∀ sw j a lb buf alr fa hu d h,
  rep d alr fa hu h → h !! lb = Some (ListId buf) → (∀ n, d !! n ≠ Some lb) →
  (length h0 ≤ lb)%nat →
  sim (λ _ st' h', ∃ d', rep d' (alr_counted st') (flow_accum st') (hsd_upstr st') h')
      (walk_heap grid r hsd_ids la lf lu fuel sw j a lb)
      (walk rp hp g fuel sw j a buf
         {| alr_counted := alr; flow_accum := fa; hsd_upstr := hu |}) h.
Proof.
  induction fuel as [|fuel IH]; intros sw j a lb buf alr fa hu d h Hrep Hbuf Hnb Hlb;
    [done|].
  cbn [walk_heap walk alr_counted flow_accum hsd_upstr].
  apply (sim_bind (λ x y h', x = y ∧ h' = h)).
  { destruct sw; [by apply sim_ret|].
    apply sim_getitem_int; [apply framed_lookup; [apply Hrep|done]|]. intros j' _.
    eapply sim_step.
    { apply load_int_eq. rewrite framed_lookup; [apply grid_at_core|apply Hrep|].
      by rewrite grid_at_core. }
    by apply sim_ret. }
  intros nxt ? ? [<- ->]. destruct nxt as [k|]; [|apply sim_ret; eauto].
  eapply sim_step; [apply load_int_eq, Hrep|].
  apply sim_bind_lift. intros fj Hfj.
  (* first visit: mark the node and extend the buffer *)
  apply (sim_bind (λ a1 '(a2, alr1, buf1) h1,
           a1 = a2 ∧ rep d alr1 fa hu h1 ∧ h1 !! lb = Some (ListId buf1))).
  { case_bool_decide; [|by apply sim_ret].
    eapply sim_step; [apply list_int_append_eq, Hrep|].
    pose proof (rep_set_alr d alr (alr ++ [k]) fa hu h Hrep) as Hrep1.
    assert (<[la := ListInt (alr ++ [k])]> h !! lb = Some (ListId buf)) as Hbuf1.
    { rewrite list_lookup_insert_ne; [done|]. pose proof (rep_alr _ _ _ _ _ _ _ _ _ Hrep).
      congruence. }
    apply sim_getitem_id; [apply framed_lookup; [apply Hrep1|done]|]. intros hid _.
    eapply sim_step; [by apply list_id_append_eq|].
    apply sim_ret. split_and!; [done|by eapply rep_store_other|].
    apply list_lookup_insert_eq. by eapply lookup_lt_Some. }
  clear dependent h alr buf. intros a1 [[? alr] buf] h (<- & Hrep & Hbuf).
  (* the accumulation *)
  destruct (np_set_after_get fa k fj (fj + a1) Hfj) as [fa' Hset]. rewrite Hset.
  cbn [mbind outcome_bind obind].
  eapply sim_step; [by eapply nd_int_add_eq; [apply Hrep|..]|].
  assert (<[lf := NdInt fa']> h !! lb = Some (ListId buf)) as Hbuf1.
  { rewrite list_lookup_insert_ne; [done|]. pose proof (rep_fa _ _ _ _ _ _ _ _ _ Hrep).
    congruence. }
  apply (rep_set_fa d alr fa fa' hu h) in Hrep.
  revert Hrep Hbuf1. generalize (<[lf := NdInt fa']> h). clear dependent h fa.
  intros h Hrep Hbuf.
  (* the upstream list *)
  eapply sim_step; [apply load_dict_ref_eq, Hrep|].
  set (hu' := match hu !! k with
              | Some l => <[k := l ++ buf]> hu
              | None => <[k := buf]> hu
              end).
  assert (∃ d' h',
    match d !! k with
    | Some entry =>
        c ⇐ copy_list_id lb;
        old ⇐ load_list_id entry;
        new ⇐ load_list_id c;
        store entry (ListId (old ++ new));;
        dict_ref_set lu k entry
    | None => c ⇐ copy_list_id lb; dict_ref_set lu k c
    end h = (Done tt, h') ∧
    rep d' alr fa' hu' h' ∧ h' !! lb = Some (ListId buf) ∧ ∀ n, d' !! n ≠ Some lb)
    as (d' & h' & Hrun & Hrep' & Hbuf' & Hnb').
  { pose proof (rep_entries _ _ _ _ _ _ _ _ _ Hrep k) as Hent. subst hu'.
    pose proof (rep_hu _ _ _ _ _ _ _ _ _ Hrep) as Hlu'.
    pose proof (lookup_lt_Some _ _ _ Hbuf) as Hlblt.
    destruct (d !! k) as [entry|] eqn:Hdk.
    - destruct Hent as (Hge & v & Hv & ->).
      assert (entry ≠ lb) as Hne by (intros ->; by apply (Hnb k)).
      pose proof (rep_alloc d alr fa' hu h (ListId buf) Hrep) as Hrep1.
      pose proof (rep_store_entry d alr fa' hu _ k entry (v ++ buf) Hrep1 Hdk) as Hrep2.
      assert (∀ n, n ≠ k → d !! n ≠ Some entry) as Hother.
      { intros n Hn Hdn. by apply Hn, (rep_inj _ _ _ _ _ _ _ _ _ Hrep n k entry). }
      exists (<[k := entry]> d), (<[lu := DictRef (<[k := entry]> d)]>
                                  (<[entry := ListId (v ++ buf)]> (h ++ [ListId buf]))).
      split_and!.
      + rewrite (hbind_Done _ _ _ _ _ (copy_list_id_eq _ _ _ Hbuf)).
        rewrite (hbind_Done _ _ (v) _ (h ++ [ListId buf])).
        2:{ apply load_list_id_eq. by apply lookup_app_l_Some. }
        rewrite (hbind_Done _ _ buf _ (h ++ [ListId buf])).
        2:{ apply load_list_id_eq. by apply list_lookup_middle. }
        erewrite hbind_Done.
        2:{ eapply store_eq. by apply lookup_app_l_Some. }
        apply dict_ref_set_eq. rewrite list_lookup_insert_ne by congruence.
        by apply lookup_app_l_Some.
      + pose proof (rep_dict_insert d alr fa' _ _ k entry (v ++ buf) Hrep2) as Hrep3.
        rewrite insert_insert_eq in Hrep3. apply Hrep3; [|done|done].
        apply list_lookup_insert_eq. rewrite length_app. apply lookup_lt_Some in Hv. lia.
      + rewrite !list_lookup_insert_ne by congruence. by apply lookup_app_l_Some.
      + intros n. rewrite lookup_insert. case_decide; [congruence|apply Hnb].
    - pose proof (rep_alloc d alr fa' hu h (ListId buf) Hrep) as Hrep1.
      exists (<[k := length h]> d), (<[lu := DictRef (<[k := length h]> d)]>
                                    (h ++ [ListId buf])).
      split_and!.
      + rewrite (hbind_Done _ _ _ _ _ (copy_list_id_eq _ _ _ Hbuf)).
        apply dict_ref_set_eq. by apply lookup_app_l_Some.
      + rewrite Hent. apply rep_dict_insert; [done|by apply list_lookup_middle| |].
        * pose proof (framed_length h0 h (rep_framed _ _ _ _ _ _ _ _ _ Hrep)). lia.
        * intros n Hn Hdn. pose proof (rep_entries _ _ _ _ _ _ _ _ _ Hrep n) as He.
          rewrite Hdn in He. destruct He as (_ & w & Hw%lookup_lt_Some & _). lia.
      + rewrite list_lookup_insert_ne by congruence. by apply lookup_app_l_Some.
      + intros n. rewrite lookup_insert. case_decide; [|apply Hnb].
        intros [= Heq]. lia. }
  eapply sim_step; [exact Hrun|].
  apply sim_getitem_int; [apply framed_lookup; [apply Hrep'|done]|]. intros rj _.
  case_bool_decide; [apply sim_ret; eauto|].
  by apply (IH false k a1 lb buf alr fa' hu' d' h').
Qed.

Lemma track_loop_heap_sim fuel : ∀ sor_z alr fa hu d h,
  rep d alr fa hu h →
  sim (λ _ st' h', ∃ d', rep d' (alr_counted st') (flow_accum st') (hsd_upstr st') h')
      (track_loop_heap grid r hsd_ids la lf lu fuel sor_z)
      (track_loop rp hp g fuel sor_z
         {| alr_counted := alr; flow_accum := fa; hsd_upstr := hu |}) h.
Proof.
  induction sor_z as [|i rest IH]; intros alr fa hu d h Hrep.
  { apply sim_ret. eauto. }
  cbn [track_loop_heap track_loop alr_counted flow_accum hsd_upstr].
  eapply sim_step; [apply load_list_int_eq, Hrep|].
  case_bool_decide; [by eapply IH|].
  apply sim_getitem_int; [apply framed_lookup; [apply Hrep|done]|]. intros ri _.
  case_bool_decide.
  - apply sim_getitem_id; [apply framed_lookup; [apply Hrep|done]|]. intros hid _.
    eapply sim_step; [reflexivity|].
    pose proof (rep_alloc d alr fa hu h (ListId [hid]) Hrep) as Hrep1.
    eapply sim_step; [apply dict_ref_set_eq, Hrep1|].
    assert (rep (<[i := length h]> d) alr fa (<[i := [hid]]> hu)
              (<[lu := DictRef (<[i := length h]> d)]> (h ++ [ListId [hid]]))) as Hrep2.
    { apply rep_dict_insert; [done|by apply list_lookup_middle| |].
      - pose proof (framed_length h0 h (rep_framed _ _ _ _ _ _ _ _ _ Hrep)). lia.
      - intros n Hn Hdn. pose proof (rep_entries _ _ _ _ _ _ _ _ _ Hrep n) as He.
        rewrite Hdn in He. destruct He as (_ & w & Hw%lookup_lt_Some & _). lia. }
    apply sim_nd_int_add; [apply Hrep2|]. intros fa'.
    pose proof (rep_set_fa _ _ _ fa' _ _ Hrep2) as Hrep3.
    eapply sim_step; [apply list_int_append_eq, Hrep3|].
    eapply IH. by eapply rep_set_alr.
  - eapply sim_step; [reflexivity|].
    pose proof (rep_alloc d alr fa hu h (ListId []) Hrep) as Hrep1.
    apply (sim_bind (λ _ st' h', ∃ d', rep d' (alr_counted st') (flow_accum st')
                                       (hsd_upstr st') h')).
    + apply (walk_heap_sim fuel true i 0 (length h) [] alr fa hu d);
        [done|by apply list_lookup_middle| |].
      * intros n Hdn. pose proof (rep_entries _ _ _ _ _ _ _ _ _ Hrep n) as He.
        rewrite Hdn in He. destruct He as (_ & w & Hw%lookup_lt_Some & _). lia.
      * apply (framed_length h0 h), Hrep.
    + intros _ [alr' fa' hu'] h' [d' Hrep']. by apply (IH alr' fa' hu' d').
Qed.

End Refines.

Section TopLevel.

Variable h0 : heap Id.
Variable grid : HGrid.
Variable g : Grid.
Hypothesis Hgrid : grid_at grid h0 = Some g.

Lemma grid_at_inv :
  h0 !! h_core_nodes grid = Some (NdInt (core_nodes g)) ∧
  h0 !! h_topographic__elevation grid = Some (NdFloat (topographic__elevation g)) ∧
  h0 !! h_neighbors_at_node grid = Some (NdInt2 (neighbors_at_node g)) ∧
  h0 !! h_diagonals_at_node grid = Some (NdInt2 (diagonals_at_node g)) ∧
  number_of_nodes g = h_number_of_nodes grid.
Proof.
  unfold grid_at in Hgrid.
  destruct (h0 !! h_core_nodes grid) as [[]|]; try done.
  destruct (h0 !! h_topographic__elevation grid) as [[]|]; try done.
  destruct (h0 !! h_neighbors_at_node grid) as [[]|]; try done.
  destruct (h0 !! h_diagonals_at_node grid) as [[]|]; try done.
  by injection Hgrid as <-.
Qed.

Lemma rep_dict_at la lf lu d alr fa hu (h : heap Id) :
  rep h0 la lf lu d alr fa hu h → dict_at h lu = Some hu.
Proof.
  intros Hrep. unfold dict_at. rewrite (rep_hu _ _ _ _ _ _ _ _ _ Hrep). f_equal.
  apply map_eq. intros n. rewrite lookup_omap.
  pose proof (rep_entries _ _ _ _ _ _ _ _ _ Hrep n) as He.
  destruct (d !! n) as [ref|]; simpl; [|done].
  destruct He as (_ & v & -> & ->). done.
Qed.

(** The heap version of [track_source] ends as the pure one does on
    the values the heap held at the call, and returns references to
    the same dict and array. *)
Lemma track_source_heap_sim r hsd_ids fuel :
  is_Some (h0 !! r) → is_Some (h0 !! hsd_ids) →
  sim (λ '(lhu, lfa) '(hu, fa) h',
         dict_at h' lhu = Some hu ∧ h' !! lfa = Some (NdInt fa))
      (track_source_heap grid r hsd_ids fuel)
      (track_source (getitem_int_at h0 r) (getitem_id_at h0 hsd_ids) g fuel) h0.
Proof.
  intros Hr Hhsd. destruct grid_at_inv as (Hcore & Hz & _ & _ & HN).
  unfold track_source_heap, track_source, sorted_core_nodes.
  rewrite !obind_assoc. cbn zeta.
  apply sim_bind_assoc. eapply sim_step; [by apply load_float_eq|].
  apply sim_bind_assoc. eapply sim_step; [by apply load_int_eq|].
  apply sim_bind_assoc, sim_bind_lift. intros e _.
  eapply sim_step; [reflexivity|].
  apply sim_bind_assoc. eapply sim_step; [by apply load_float_eq, list_lookup_middle|].
  apply sim_bind_assoc. eapply sim_step; [by apply load_int_eq, lookup_app_l_Some|].
  apply sim_bind_assoc, sim_bind_lift. intros s _.
  do 4 (eapply sim_step; [reflexivity|]).
  set (h1 := h0 ++ [NdFloat e]). set (h2 := h1 ++ [NdInt s]).
  set (h3 := h2 ++ [ListInt []]).
  set (h4 := h3 ++ [NdInt (replicate (h_number_of_nodes grid) 0)]).
  set (h5 := h4 ++ [DictRef ∅]).
  eapply sim_step.
  { apply load_int_eq. subst h5 h4 h3.
    do 3 apply lookup_app_l_Some. by apply list_lookup_middle. }
  assert (rep h0 (length h2) (length h3) (length h4) ∅ []
            (replicate (number_of_nodes g) 0) ∅ h5) as Hrep.
  { split.
    - exists [NdFloat e; NdInt s; ListInt [];
              NdInt (replicate (h_number_of_nodes grid) 0); DictRef ∅].
      subst h5 h4 h3 h2 h1. by rewrite <- !app_assoc.
    - subst h5 h4. do 2 apply lookup_app_l_Some. by apply list_lookup_middle.
    - subst h5. apply lookup_app_l_Some. rewrite HN. by apply list_lookup_middle.
    - by apply list_lookup_middle.
    - intros n. by rewrite !lookup_empty.
    - intros n n' ref. by rewrite lookup_empty. }
  apply (sim_bind (λ _ st' h', ∃ d', rep h0 (length h2) (length h3) (length h4) d'
                                  (alr_counted st') (flow_accum st') (hsd_upstr st') h')).
  - apply (track_loop_heap_sim h0 (length h2) (length h3) (length h4)) with (d := ∅);
      try done; subst h4 h3 h2 h1; rewrite ?length_app; simpl; lia.
  - intros _ st' h' [d' Hrep']. apply sim_ret. split; [by eapply rep_dict_at|].
    apply Hrep'.
Qed.

(** So does the heap version of the decoder. *)
Lemma decoder_heap_sim flow_dir_arc codes :
  h0 !! flow_dir_arc = Some (NdInt codes) →
  sim (λ lr rv h', h' !! lr = Some (NdInt rv))
      (convert_arc_flow_directions_to_landlab_node_ids_heap grid flow_dir_arc)
      (convert_arc_flow_directions_to_landlab_node_ids g codes) h0.
Proof.
  intros Hcodes. destruct grid_at_inv as (Hcore & _ & Hn & Hd & HN).
  unfold convert_arc_flow_directions_to_landlab_node_ids_heap,
    convert_arc_flow_directions_to_landlab_node_ids.
  cbn zeta.
  apply sim_bind_assoc. eapply sim_step; [by apply load_int_eq|].
  eapply sim_step; [reflexivity|].
  set (h1 := h0 ++ [NdInt (map log2_astype_int codes)]).
  eapply sim_step; [by apply load_int2_eq, lookup_app_l_Some|].
  eapply sim_step; [by apply load_int2_eq, lookup_app_l_Some|].
  do 10 (apply sim_bind_lift; intros ? _).
  do 2 (eapply sim_step; [reflexivity|]).
  match goal with |- sim _ _ _ ((h1 ++ [?o]) ++ _) => set (h2 := h1 ++ [o]) end.
  set (h3 := h2 ++ [NdInt (replicate (h_number_of_nodes grid) 0)]).
  eapply sim_step; [by apply load_int_eq, lookup_app_l_Some, lookup_app_l_Some,
                       lookup_app_l_Some|].
  apply sim_bind_assoc. eapply sim_step.
  { apply load_int_eq. subst h3 h2. do 2 apply lookup_app_l_Some.
    by apply list_lookup_middle. }
  apply sim_bind_lift. intros idx _.
  apply sim_bind_assoc. eapply sim_step.
  { apply load_int2_eq. subst h3. apply lookup_app_l_Some. by apply list_lookup_middle. }
  apply sim_bind_lift. intros rows _.
  apply sim_bind_lift. intros vals _.
  eapply sim_step; [by apply load_int_eq, list_lookup_middle|].
  rewrite HN. apply sim_bind_lift_last. intros rv' _.
  eapply sim_step; [eapply store_eq; by apply list_lookup_middle|].
  apply sim_ret. apply list_lookup_insert_eq. subst h3. rewrite length_app. simpl. lia.
Qed.

End TopLevel.

End HeapRefinement.

(** ** Upstream nodes *)

Section Flows.

Variable r : Z → outcome Z.
Variable grid : Grid.

Local Abbreviation flows_to := (flows_to r grid).
Local Abbreviation core := (core_nodes grid).

Lemma flows_to_trans a b c : flows_to a b → flows_to b c → flows_to a c.
Proof. induction 1; [done|]. intros Hbc. eapply flows_on; eauto. Qed.

Lemma flows_to_next a b c :
  flows_to a b → r b = Done c → c ≠ b → c ∈ core → flows_to a c.
Proof.
  intros Hab Hr Hne Hc. apply (flows_to_trans a b c Hab).
  eapply flows_on; eauto. apply flows_here.
Qed.

(** The last step of a path that is no single node. *)
Lemma flows_to_last a c :
  flows_to a c → a = c ∨ ∃ b, flows_to a b ∧ r b = Done c ∧ c ≠ b ∧ c ∈ core.
Proof.
  induction 1 as [m|m m' n Hr Hne Hc Hfl IH]; [by left|right].
  destruct IH as [->|(b & Hb & Hrb & Hneb & Hcb)].
  - exists m. split; [apply flows_here|done].
  - exists b. split; [|done]. eapply flows_on; eauto.
Qed.

Lemma flows_to_core a b : flows_to a b → a ∈ core → b ∈ core.
Proof. induction 1; eauto. Qed.

Lemma closed_flows alr a b :
  downstream_closed r grid alr → a ∈ alr → flows_to a b → b ∈ alr.
Proof. intros Hcl Ha Hab. induction Hab; eauto. Qed.

(** On a node that drains, no path comes back. *)
Lemma flows_to_antisym a b :
  drains r grid a → flows_to a b → flows_to b a → a = b.
Proof.
  intros Hd. revert b.
  induction Hd as [j Hr|j m Hr Hne Hm|j m Hr Hne Hm Hd IH]; intros b Hab Hba.
  - destruct Hab as [|j m' n Hr' Hne' _ _]; [done|congruence].
  - destruct Hab as [|j m' n Hr' Hne' Hc' _]; [done|]. congruence.
  - destruct Hab as [|j m' n Hr' Hne' Hc' Hfl]; [done|].
    assert (m' = m) as -> by congruence.
    assert (m = j); [|done]. apply IH.
    + eapply flows_to_trans; eauto.
    + eapply flows_on; eauto. apply flows_here.
Qed.

(** Two nodes on the path of a third are on one path. *)
Lemma flows_to_linear a b c :
  flows_to a b → flows_to a c → flows_to b c ∨ flows_to c b.
Proof.
  induction 1 as [m|m m' n Hr Hne Hc Hfl IH]; [by left|].
  intros Hac. destruct Hac as [|m m'' c Hr' Hne' Hc' Hfl'].
  - right. eapply flows_on; eauto.
  - assert (m'' = m') as -> by congruence. by apply IH.
Qed.

(** *** A run that records nodes *)

Hypothesis Hok : inputs_ok r own_id grid.
Hypothesis Hac : acyclic r grid.

Local Abbreviation Inv := (tracker_inv (Id := Z) grid).
Local Abbreviation segment_inv := (segment_inv r grid).
Local Abbreviation segment_at := (segment_at r grid).
Local Abbreviation upstream_inv := (upstream_inv r grid).

(** One visit inside a segment. *)
Lemma visit_segment alr0 V B st k a a' B' st1 :
  Inv st → segment_inv alr0 V B st → k ∈ core →
  (V = [] ∧ B = [] ∧ k ∉ alr0) ∨ (∃ j, segment_at V j ∧ r j = Done k ∧ k ≠ j) →
  visit own_id k a B st = Done (a', B', st1) →
  segment_inv alr0 (V ++ [k]) B' st1 ∧ segment_at (V ++ [k]) k.
Proof.
  intros HI HS Hk Hpre Hv.
  assert (∀ v, v ∈ V → flows_to v k) as Hflows.
  { intros v Hv0. destruct Hpre as [(-> & _)|(j & Hat & Hr & Hne)].
    - by apply elem_of_nil in Hv0.
    - eapply flows_to_next; eauto. by apply Hat. }
  assert (k ∉ V) as HkV.
  { intros HkV. destruct Hpre as [(-> & _)|(j & Hat & Hr & Hne)].
    - by apply elem_of_nil in HkV.
    - apply Hne. apply flows_to_antisym; [by apply Hac|by apply Hat|].
      eapply flows_on; eauto using flows_here. }
  assert (k ∈ alr_counted st → k ∈ alr0 ∧ V ≠ []) as Hold.
  { intros Hin. apply (seg_alr _ _ _ _ _ _ HS) in Hin.
    destruct Hpre as [(-> & -> & Hn)|(j & Hat & _)].
    - destruct Hin as [Hin|Hin]; [done|by apply elem_of_nil in Hin].
    - destruct Hin as [Hin|Hin].
      + split; [done|]. intros ->. eapply elem_of_nil, at_visited; eauto.
      + destruct HkV. eapply seg_buf_visited; eauto. }
  assert (segment_at (V ++ [k]) k) as Hat'.
  { split.
    - apply elem_of_app. right. by left.
    - intros v [Hv0| ->%list_elem_of_singleton]%elem_of_app; [by apply Hflows|apply flows_here].
    - intros v v' [Hv0|Hv0%list_elem_of_singleton]%elem_of_app Hne Hr Hne' Hc; [|done].
      apply elem_of_app.
      destruct Hpre as [(-> & _)|(j & Hat & Hrj & Hnej)]; [by apply elem_of_nil in Hv0|].
      destruct (decide (v = j)) as [->|Hvj].
      + right. apply list_elem_of_singleton. congruence.
      + left. eapply at_next; eauto. }
  split; [|done].
  destruct (visit_spec r own_id grid k a B st Hok HI Hk)
    as [(Hnone & h & Hh & Hv')|(l & Hl & Hne & Hv')];
    rewrite Hv' in Hv; injection Hv as <- <- <-.
  - injection Hh as <-.
    assert (k ∉ alr_counted st) as Hnew.
    { rewrite (inv_counted _ _ HI), Hnone. by intros [? ?]. }
    assert ((k ∉ alr0) ∧ (k ∉ B)) as [Hk0 HkB].
    { split; intros Hin; apply Hnew, (seg_alr _ _ _ _ _ _ HS); eauto. }
    split; simpl.
    + intros m. rewrite !elem_of_app, (seg_alr _ _ _ _ _ _ HS). tauto.
    + intros m [Hm| ->%list_elem_of_singleton]%elem_of_app; [|done].
      eapply seg_new; eauto.
    + apply NoDup_app. split_and!; [eapply seg_buf_nodup; eauto| |apply NoDup_singleton].
      intros m Hm ->%list_elem_of_singleton. done.
    + intros m. rewrite !elem_of_app. intros [Hm|Hm]; [left|by right].
      eapply seg_buf_visited; eauto.
    + intros v [Hv0| ->%list_elem_of_singleton]%elem_of_app; [|done].
      eapply seg_visited_core; eauto.
    + intros v. rewrite !elem_of_app. intros [Hv0|Hv0]; [left|by right].
      eapply seg_visited_counted; eauto.
    + eapply seg_closed; eauto.
    + intros n us. destruct (decide (n = k)) as [->|Hnk].
      * rewrite lookup_insert_eq. intros [= <-].
        apply NoDup_app. split_and!; [eapply seg_buf_nodup; eauto| |apply NoDup_singleton].
        intros m Hm ->%list_elem_of_singleton. done.
      * rewrite lookup_insert_ne by done. eapply seg_nodup; eauto.
    + intros n us. destruct (decide (n = k)) as [->|Hnk].
      * rewrite lookup_insert_eq. intros [= <-] m. split.
        -- intros Hm. right. split; [done|]. split; [|apply elem_of_app; right; by left].
           apply elem_of_app in Hm as [Hm| ->%list_elem_of_singleton]; [|apply flows_here].
           apply Hflows. eapply seg_buf_visited; eauto.
        -- intros [[Hm Hfl]|(Hm & _)]; [|done].
           destruct Hk0. eapply closed_flows; eauto. eapply seg_closed; eauto.
      * rewrite lookup_insert_ne by done. intros Hus m.
        rewrite (seg_mem _ _ _ _ _ _ HS n us Hus m), !elem_of_app, !list_elem_of_singleton.
        split; [tauto|].
        intros [?|([Hm| ->] & Hfl & [HnV|?])]; [tauto|tauto|done| |done].
        destruct Hnk. symmetry. apply flows_to_antisym; [by apply Hac|done|by apply Hflows].
  - assert (k ∈ alr_counted st) as Hin by (apply (inv_counted _ _ HI); eauto).
    destruct (Hold Hin) as [Hk0 HVne].
    split; simpl.
    + eapply seg_alr; eauto.
    + eapply seg_new; eauto.
    + eapply seg_buf_nodup; eauto.
    + intros m Hm. apply elem_of_app. left. eapply seg_buf_visited; eauto.
    + intros v [Hv0| ->%list_elem_of_singleton]%elem_of_app; [|done].
      eapply seg_visited_core; eauto.
    + intros v [Hv0| ->%list_elem_of_singleton]%elem_of_app; [|done].
      eapply seg_visited_counted; eauto.
    + eapply seg_closed; eauto.
    + intros n us. destruct (decide (n = k)) as [->|Hnk].
      * rewrite lookup_insert_eq. intros [= <-].
        apply NoDup_app. split_and!; [eapply seg_nodup; eauto| |eapply seg_buf_nodup; eauto].
        intros m Hm HmB. apply (seg_mem _ _ _ _ _ _ HS k l Hl m) in Hm.
        destruct Hm as [[Hm _]|(_ & _ & ?)]; [|done].
        eapply seg_new; eauto.
      * rewrite lookup_insert_ne by done. eapply seg_nodup; eauto.
    + intros n us. destruct (decide (n = k)) as [->|Hnk].
      * rewrite lookup_insert_eq. intros [= <-] m.
        rewrite !elem_of_app, (seg_mem _ _ _ _ _ _ HS k l Hl m), list_elem_of_singleton.
        split; [|tauto].
        intros [[?|(_ & _ & ?)]|Hm]; [tauto|done|].
        right. split_and!; [done| |tauto].
        apply Hflows. eapply seg_buf_visited; eauto.
      * rewrite lookup_insert_ne by done. intros Hus m.
        rewrite (seg_mem _ _ _ _ _ _ HS n us Hus m), !elem_of_app, !list_elem_of_singleton.
        split; [tauto|]. intros [?|(? & ? & [?|?])]; [tauto|tauto|done].
Qed.

(** Where a segment ends, the invariant between segments holds again. *)
Lemma segment_end alr0 V B st j :
  segment_inv alr0 V B st → segment_at V j →
  (∀ m', r j = Done m' → m' ≠ j → m' ∉ core) →
  upstream_inv st.
Proof.
  intros HS Hat Hend.
  assert (∀ v n, flows_to v n → v ∈ V → n ∈ V) as Hall.
  { intros v n Hfl. induction Hfl as [|m m' n Hr Hne Hc Hfl IH]; [done|].
    intros Hm. apply IH. destruct (decide (m = j)) as [->|Hmj].
    - by destruct (Hend m').
    - eapply at_next; eauto. }
  split.
  - intros m m' Hm Hr Hne Hc.
    apply (seg_alr _ _ _ _ _ _ HS) in Hm as [Hm|Hm].
    + apply (seg_alr _ _ _ _ _ _ HS). left. eapply seg_closed; eauto.
    + eapply seg_visited_counted; eauto. apply (Hall m m').
      * eapply flows_on; eauto using flows_here.
      * eapply seg_buf_visited; eauto.
  - eapply seg_nodup; eauto.
  - intros n us Hus m.
    rewrite (seg_mem _ _ _ _ _ _ HS n us Hus m), (seg_alr _ _ _ _ _ _ HS).
    split; [tauto|]. intros [[?|Hm] Hfl]; [tauto|].
    right. split_and!; [done|done|].
    apply (Hall m n Hfl). eapply seg_buf_visited; eauto.
Qed.

(** A segment that ends re-establishes the invariant. *)
Lemma walk_upstream fuel : ∀ sw j a B st st' alr0 V,
  Inv st → segment_inv alr0 V B st → j ∈ core → a = Z.of_nat (length B) →
  (if sw : bool then V = [] ∧ B = [] ∧ j ∉ alr0
   else B ≠ [] ∧ segment_at V j ∧ r j ≠ Done j) →
  walk r own_id grid fuel sw j a B st = Done st' →
  upstream_inv st'.
Proof.
  induction fuel as [|fuel IH]; intros sw j a B st st' alr0 V HI HS Hj Ha Hpre Hw;
    [discriminate|].
  rewrite walk_unfold in Hw.
  apply obind_Done in Hw as (nxt & Hnxt & Hw).
  assert ((nxt = None ∧ st' = st ∧ segment_at V j ∧
             ∀ m', r j = Done m' → m' ≠ j → m' ∉ core)
          ∨ ∃ k, nxt = Some k ∧ k ∈ core ∧ (B = [] → k ∉ alr_counted st) ∧
              ((V = [] ∧ B = [] ∧ k ∉ alr0)
               ∨ (∃ j, segment_at V j ∧ r j = Done k ∧ k ≠ j))) as Hcases.
  { destruct sw.
    - injection Hnxt as <-. right. exists j. destruct Hpre as (-> & -> & Hn).
      split_and!; [done|done| |by left].
      intros _ Hin. apply (seg_alr _ _ _ _ _ _ HS) in Hin as [Hin|Hin]; [done|].
      by apply elem_of_nil in Hin.
    - apply obind_Done in Hnxt as (j' & Hr & Hnxt). injection Hnxt as <-.
      destruct Hpre as (HB & Hat & Hns).
      case_bool_decide as Hcore.
      + right. exists j'. split_and!; [done|done|done|]. right. exists j.
        split_and!; [done|done|]. intros ->. done.
      + left. split_and!; [done|by injection Hw|done|]. intros m'. congruence. }
  destruct Hcases as [(-> & -> & Hat & Hend)|(k & -> & Hk & Hbuf & Hpre')].
  { eapply segment_end; eauto. }
  apply obind_Done in Hw as ([[a' B'] st1] & Hv & Hw). simpl in Hw.
  apply obind_Done in Hw as (rk & Hrk & Hw).
  destruct (visit_inv r own_id grid k a B st a' B' st1 Hok HI Hk Hbuf Ha Hv)
    as (HI1 & Ha' & HB' & _).
  destruct (visit_segment alr0 V B st k a a' B' st1 HI HS Hk Hpre' Hv) as [HS1 Hat1].
  case_bool_decide as Hsink.
  - injection Hw as <-. subst rk. eapply segment_end; eauto.
    intros m'. congruence.
  - eapply (IH false k a' B' st1 st'); eauto.
    split_and!; [done|done|congruence].
Qed.

(** The sink branch of the outer loop keeps the invariant. *)
Lemma sink_state_upstream i st :
  Inv st → upstream_inv st → (i ∉ alr_counted st) → r i = Done i →
  upstream_inv (sink_state i i st).
Proof.
  intros HI HU Hi Hr.
  assert (∀ n, flows_to i n → n = i) as Hsink.
  { intros n Hfl. destruct Hfl; [done|congruence]. }
  split; simpl.
  - intros m m'. rewrite !elem_of_app, !list_elem_of_singleton.
    intros [Hm| ->] Hrm Hne Hc; [|congruence]. left. eapply up_closed; eauto.
  - intros n us. destruct (decide (n = i)) as [->|Hni].
    + rewrite lookup_insert_eq. intros [= <-]. apply NoDup_singleton.
    + rewrite lookup_insert_ne by done. eapply up_nodup; eauto.
  - intros n us. destruct (decide (n = i)) as [->|Hni].
    + rewrite lookup_insert_eq. intros [= <-] m.
      rewrite elem_of_app, !list_elem_of_singleton. split.
      * intros ->. split; [by right|apply flows_here].
      * intros [[Hm| ->] Hfl]; [|done].
        destruct Hi. eapply closed_flows; eauto. eapply up_closed; eauto.
    + rewrite lookup_insert_ne by done. intros Hus m.
      rewrite (up_mem _ _ _ HU n us Hus m), elem_of_app, list_elem_of_singleton.
      split; [tauto|]. intros [[Hm| ->] Hfl]; [done|].
      by destruct Hni; apply Hsink.
Qed.

(** The outer loop keeps the invariant. *)
Lemma track_loop_upstream fuel : ∀ sor_z st st',
  Inv st → upstream_inv st → (∀ i, i ∈ sor_z → i ∈ core) →
  track_loop r own_id grid fuel sor_z st = Done st' →
  upstream_inv st'.
Proof.
  induction sor_z as [|i rest IH]; intros st st' HI HU Hsub Hl.
  { by injection Hl as <-. }
  assert (i ∈ core) as Hi by (apply Hsub; left).
  assert (∀ x, x ∈ rest → x ∈ core) as Hsub' by (intros x Hx; apply Hsub; by right).
  destruct (track_loop_step r own_id grid fuel i rest st Hok HI Hi)
    as [(Hc & Heq)|[(Hc & Hs & h & Hh & Heq)|(Hc & (m & Hm & Hne) & Heq)]];
    rewrite Heq in Hl; clear Heq.
  - eauto.
  - injection Hh as <-.
    eapply IH; [| |done|done].
    + by apply (sink_state_inv r own_id grid).
    + by apply sink_state_upstream.
  - apply obind_Done in Hl as (st1 & Hw & Hl).
    destruct (walk_spec r own_id grid fuel true i 0 [] st st1 Hok HI Hi eq_refl Hc Hw)
      as (HI1 & _).
    eapply IH; [done| |done|done].
    eapply (walk_upstream fuel true i 0 [] st st1 (alr_counted st) []); eauto.
    split.
    + intros m0. rewrite elem_of_nil. tauto.
    + by intros m0 ?%elem_of_nil.
    + apply NoDup_nil_2.
    + done.
    + by intros v ?%elem_of_nil.
    + by intros v ?%elem_of_nil.
    + eapply up_closed; eauto.
    + eapply up_nodup; eauto.
    + intros n us Hus m0. rewrite (up_mem _ _ _ HU n us Hus m0), elem_of_nil. tauto.
Qed.

(** The result of a run that records nodes: the entry of a core node
    lists, once each, the core nodes that flow to it. *)
Lemma track_source_upstream fuel hu fa :
  track_source r own_id grid fuel = Done (hu, fa) →
  ∀ n, n ∈ core →
    ∃ ups, hu !! n = Some ups ∧ NoDup ups ∧
      (∀ m, m ∈ ups ↔ m ∈ core ∧ flows_to m n) ∧
      fa !! Z.to_nat n = Some (Z.of_nat (length ups)).
Proof.
  intros Hts n Hn.
  destruct (track_source_returns r own_id grid fuel hu fa Hok Hts)
    as (st & sor_z & -> & -> & Hp & Hl & HI & Hall).
  assert (upstream_inv st) as HU.
  { eapply (track_loop_upstream fuel sor_z); [apply initial_state_inv| | |done].
    - split; simpl.
      + by intros m m' ?%elem_of_nil.
      + intros n0 us. by rewrite lookup_empty.
      + intros n0 us. by rewrite lookup_empty.
    - intros i Hi. by rewrite <- Hp. }
  destruct (proj1 (inv_counted _ _ HI n) (Hall n Hn)) as [ups Hups].
  exists ups. split_and!; [done|eapply up_nodup; eauto| |].
  - intros m. rewrite (up_mem _ _ _ HU n ups Hups m). split.
    + intros [Hm Hfl]. split; [|done].
      apply (inv_keys_core _ _ HI), (inv_counted _ _ HI), Hm.
    + intros [Hm Hfl]. eauto.
  - rewrite (inv_accum _ _ HI n) by (by apply (core_in_range _ _ _ Hok)).
    by rewrite Hups.
Qed.

End Flows.

(** *** Labels are only carried along *)

Lemma np_get_elem {A} (l : list A) i x : np_get l i = Done x → x ∈ l.
Proof.
  unfold np_get. destruct (np_index _ _) as [k|]; [|done].
  destruct (l !! k) eqn:Hk; [|done]. intros [= <-]. by eapply list_elem_of_lookup_2.
Qed.

Lemma np_take_elem {A} (l : list A) idx l' :
  np_take l idx = Done l' → ∀ x, x ∈ l' → x ∈ l.
Proof.
  unfold np_take. revert l'. induction idx as [|i idx IH]; intros l' Hl; simpl in Hl.
  - injection Hl as <-. by intros x ?%elem_of_nil.
  - apply obind_Done in Hl as (y & Hy & Hl).
    apply obind_Done in Hl as (ys & Hys & Hl). injection Hl as <-.
    intros x [->|Hx]%elem_of_cons; [by eapply np_get_elem|by eapply IH].
Qed.

Lemma track_loop_unfold {Id} (r : Z → outcome Z) (hsd_ids : Z → outcome Id) grid
    fuel i rest st :
  track_loop r hsd_ids grid fuel (i :: rest) st =
    if bool_decide (i ∈ alr_counted st) then track_loop r hsd_ids grid fuel rest st
    else
      ri ← r i;
      if bool_decide (ri = i) then
        h ← hsd_ids i;
        fi ← np_get (flow_accum st) i;
        fa ← np_set (flow_accum st) i (fi + 1);
        track_loop r hsd_ids grid fuel rest
          {| alr_counted := alr_counted st ++ [i]; flow_accum := fa;
             hsd_upstr := <[i := [h]]> (hsd_upstr st) |}
      else
        st' ← walk r hsd_ids grid fuel true i 0 [] st;
        track_loop r hsd_ids grid fuel rest st'.
Proof. done. Qed.

Section Relabel.

Context {Id Id' : Type}.
Variable r : Z → outcome Z.
Variable hsd_ids : Z → outcome Id.
Variable hsd_ids' : Z → outcome Id'.
Variable grid : Grid.
Variable f : Id → Id'.

Hypothesis Hlabel :
  ∀ c, c ∈ core_nodes grid → hsd_ids' c = outcome_map f (hsd_ids c).

Local Abbreviation core := (core_nodes grid).

(** A visit only asks for the label of a node it sees for the first
    time. *)
Lemma visit_relabel j a B st :
  (np_get (flow_accum st) j = Done 0 → hsd_ids' j = outcome_map f (hsd_ids j)) →
  visit hsd_ids' j a (map f B) (relabel f st)
  = outcome_map (λ '(a', B', st'), (a', map f B', relabel f st')) (visit hsd_ids j a B st).
Proof.
  intros Hj. unfold visit. simpl.
  destruct (np_get (flow_accum st) j) as [fj| |]; simpl; [|done|done].
  assert (∀ a' alr B',
    (fa ← np_set (flow_accum st) j (fj + a');
     Done (a', map f B',
       {| alr_counted := alr; flow_accum := fa;
          hsd_upstr := match (map f <$> hsd_upstr st) !! j with
                       | Some l => <[j := l ++ map f B']> (map f <$> hsd_upstr st)
                       | None => <[j := map f B']> (map f <$> hsd_upstr st)
                       end |}))
    = outcome_map (λ '(a', B', st'), (a', map f B', relabel f st'))
        (fa ← np_set (flow_accum st) j (fj + a');
         Done (a', B',
           {| alr_counted := alr; flow_accum := fa;
              hsd_upstr := match hsd_upstr st !! j with
                           | Some l => <[j := l ++ B']> (hsd_upstr st)
                           | None => <[j := B']> (hsd_upstr st)
                           end |}))) as Hrest.
  { intros a' alr B'. destruct (np_set _ _ _) as [fa| |]; simpl; [|done|done].
    unfold relabel. simpl. rewrite lookup_fmap.
    destruct (hsd_upstr st !! j) as [l|]; simpl; rewrite fmap_insert; [|done].
    by rewrite map_app. }
  case_bool_decide as Hz; simpl.
  - subst fj. rewrite (Hj eq_refl). destruct (hsd_ids j) as [h| |]; simpl; [|done|done].
    rewrite <- Hrest. by rewrite map_app.
  - by rewrite <- Hrest.
Qed.

Lemma walk_relabel fuel : ∀ sw j a B st,
  (sw = true → j ∈ core) →
  walk r hsd_ids' grid fuel sw j a (map f B) (relabel f st)
  = outcome_map (relabel f) (walk r hsd_ids grid fuel sw j a B st).
Proof.
  induction fuel as [|fuel IH]; intros sw j a B st Hj; [done|].
  rewrite !walk_unfold.
  assert (∀ k, k ∈ core →
    ('(a', buf', st') ← visit hsd_ids' k a (map f B) (relabel f st);
     rj ← r k;
     if bool_decide (rj = k) then Done st'
     else walk r hsd_ids' grid fuel false k a' buf' st')
    = outcome_map (relabel f)
        ('(a', buf', st') ← visit hsd_ids k a B st;
         rj ← r k;
         if bool_decide (rj = k) then Done st'
         else walk r hsd_ids grid fuel false k a' buf' st')) as Hbody.
  { intros k Hk. rewrite (visit_relabel k a B st (λ _, Hlabel k Hk)).
    destruct (visit hsd_ids k a B st) as [[[a' B'] st1]| |]; simpl; [|done|done].
    destruct (r k) as [rk| |]; simpl; [|done|done].
    case_bool_decide; [done|]. by apply IH. }
  destruct sw; simpl.
  - by apply Hbody, Hj.
  - destruct (r j) as [j'| |]; simpl; [|done|done].
    case_bool_decide; [by apply Hbody|done].
Qed.

Lemma track_loop_relabel fuel : ∀ sor_z st,
  (∀ i, i ∈ sor_z → i ∈ core) →
  track_loop r hsd_ids' grid fuel sor_z (relabel f st)
  = outcome_map (relabel f) (track_loop r hsd_ids grid fuel sor_z st).
Proof.
  induction sor_z as [|i rest IH]; intros st Hsub; [done|].
  assert (i ∈ core) as Hi by (apply Hsub; left).
  assert (∀ x, x ∈ rest → x ∈ core) as Hsub' by (intros x Hx; apply Hsub; by right).
  rewrite !track_loop_unfold. cbn [relabel alr_counted flow_accum hsd_upstr].
  case_bool_decide; [by apply IH|].
  destruct (r i) as [ri| |]; cbn [mbind outcome_bind obind outcome_map]; [|done|done].
  case_bool_decide.
  - rewrite (Hlabel i Hi).
    destruct (hsd_ids i) as [h| |]; cbn [mbind outcome_bind obind outcome_map]; [|done|done].
    destruct (np_get (flow_accum st) i) as [fi| |];
      cbn [mbind outcome_bind obind outcome_map]; [|done|done].
    destruct (np_set _ _ _) as [fa| |];
      cbn [mbind outcome_bind obind outcome_map]; [|done|done].
    rewrite <- IH by done. unfold relabel. simpl. by rewrite fmap_insert.
  - change (@nil Id') with (map f []).
    change {| alr_counted := alr_counted st; flow_accum := flow_accum st;
              hsd_upstr := map f <$> hsd_upstr st |} with (relabel f st).
    rewrite (walk_relabel fuel true i 0 [] st) by done.
    destruct (walk r hsd_ids grid fuel true i 0 [] st) as [st1| |];
      cbn [mbind outcome_bind obind outcome_map]; [|done|done].
    by apply IH.
Qed.

(** Labels that are the images under [f] of other labels give the
    result for those labels with [f] applied to every recorded label:
    same outcome, same [flow_accum]. *)
Lemma track_source_relabel fuel :
  track_source r hsd_ids' grid fuel
  = outcome_map (λ '(hu, fa), (map f <$> hu, fa)) (track_source r hsd_ids grid fuel).
Proof.
  unfold track_source.
  destruct (sorted_core_nodes grid) as [sor_z| |] eqn:Hs; simpl; [|done|done].
  assert (∀ i, i ∈ sor_z → i ∈ core) as Hsub.
  { unfold sorted_core_nodes in Hs. apply obind_Done in Hs as (ce & _ & Hs).
    by eapply np_take_elem. }
  pose proof (track_loop_relabel fuel sor_z
    {| alr_counted := []; flow_accum := replicate (number_of_nodes grid) 0;
       hsd_upstr := ∅ |} Hsub) as Hl.
  unfold relabel in Hl at 1. simpl in Hl. rewrite fmap_empty in Hl. rewrite Hl.
  by destruct (track_loop r hsd_ids grid fuel sor_z _) as [st| |].
Qed.

End Relabel.

(** *** Upstream nodes and their labels *)

Section Upstream.

Context {Id : Type}.
Variable r : Z → outcome Z.
Variable hsd_ids : Z → outcome Id.
Variable grid : Grid.

Hypothesis Hok : inputs_ok r hsd_ids grid.

Lemma inputs_ok_own_id : inputs_ok r own_id grid.
Proof.
  split; [apply Hok|apply Hok|apply Hok|]. intros c _. by exists c.
Qed.

(** A labelling function that agrees with [hsd_ids] on the core. *)
Lemma label_function (h0 : Id) :
  ∃ f : Z → Id, ∀ c, c ∈ core_nodes grid → hsd_ids c = Done (f c).
Proof.
  exists (λ c, match hsd_ids c with Done h => h | _ => h0 end).
  intros c Hc. by destruct (hsd_defined _ _ _ Hok c Hc) as [h ->].
Qed.

Hypothesis Hac : acyclic r grid.

(** The entry of a core node holds the labels of the core nodes that
    flow to it, one for each of these nodes. *)
Lemma track_source_labels fuel hu fa (f : Z → Id) :
  (∀ c, c ∈ core_nodes grid → hsd_ids c = Done (f c)) →
  track_source r hsd_ids grid fuel = Done (hu, fa) →
  ∀ n, n ∈ core_nodes grid →
    ∃ ups, NoDup ups ∧ (∀ m, m ∈ ups ↔ m ∈ core_nodes grid ∧ flows_to r grid m n) ∧
      hu !! n = Some (map f ups) ∧
      fa !! Z.to_nat n = Some (Z.of_nat (length ups)).
Proof.
  intros Hf Hts n Hn.
  rewrite (track_source_relabel r own_id hsd_ids grid f) in Hts
    by (intros c Hc; by rewrite Hf).
  destruct (track_source r own_id grid fuel) as [[hu0 fa0]| |] eqn:Hts0; [|done|done].
  injection Hts as <- <-.
  destruct (track_source_upstream r grid inputs_ok_own_id Hac fuel hu0 fa0 Hts0 n Hn)
    as (ups & Hups & Hnd & Hmem & Hfa).
  exists ups. split_and!; [done|done| |done].
  by rewrite lookup_fmap, Hups.
Qed.

End Upstream.

(** *** The nodes that flow to a node, through its donors *)

Lemma NoDup_concat_disjoint {A} (ls : list (list A)) :
  Forall NoDup ls →
  (∀ i j l1 l2 x, ls !! i = Some l1 → ls !! j = Some l2 → x ∈ l1 → x ∈ l2 → i = j) →
  NoDup (concat ls).
Proof.
  induction ls as [|l ls IH]; intros Hnd Hdis; simpl; [apply NoDup_nil_2|].
  apply Forall_cons in Hnd as [Hl Hnd].
  apply NoDup_app. split_and!; [done| |].
  - intros x Hx (l2 & Hl2 & Hx2)%list_elem_of_In%in_concat.
    apply list_elem_of_In, list_elem_of_lookup in Hl2 as [j Hj].
    apply list_elem_of_In in Hx2.
    by specialize (Hdis 0%nat (S j) l l2 x eq_refl Hj Hx Hx2).
  - apply IH; [done|]. intros i j l1 l2 x Hi Hj H1 H2.
    by injection (Hdis (S i) (S j) l1 l2 x Hi Hj H1 H2).
Qed.

Lemma length_concat_sum {A} (ls : list (list A)) :
  Z.of_nat (length (concat ls)) = py_sum (map (λ l, Z.of_nat (length l)) ls).
Proof.
  induction ls as [|l ls IH]; [done|].
  cbn [concat map]. rewrite length_app, py_sum_cons. lia.
Qed.

Section Donors.

Variable r : Z → outcome Z.
Variable grid : Grid.

Hypothesis Hok : inputs_ok r own_id grid.
Hypothesis Hac : acyclic r grid.

Lemma upstream_through_donors fuel hu fa m donors :
  track_source r own_id grid fuel = Done (hu, fa) →
  m ∈ core_nodes grid → NoDup donors →
  (∀ d, d ∈ donors ↔ d ∈ core_nodes grid ∧ d ≠ m ∧ r d = Done m) →
  ∃ ups, hu !! m = Some ups ∧
    ups ≡ₚ m :: concat (map (λ d, default [] (hu !! d)) donors).
Proof.
  intros Hts Hm Hnd Hdon.
  pose proof (track_source_upstream r grid Hok Hac fuel hu fa Hts) as Hup.
  destruct (Hup m Hm) as (ups & Hups & Hndm & Hmem & _).
  exists ups. split; [done|].
  assert (∀ d x, d ∈ donors → x ∈ default [] (hu !! d) ↔
            x ∈ core_nodes grid ∧ flows_to r grid x d) as HU.
  { intros d x Hd. apply Hdon in Hd as (Hd & _).
    destruct (Hup d Hd) as (ud & -> & _ & Hmd & _). apply Hmd. }
  assert (∀ d, d ∈ donors → flows_to r grid d m) as Hstep.
  { intros d (Hd & Hne & Hr)%Hdon. eapply flows_on; eauto using flows_here. }
  assert (∀ d, d ∈ donors → ¬ flows_to r grid m d) as Hback.
  { intros d Hd Hfl. pose proof Hd as (_ & Hne & _)%Hdon.
    apply Hne. apply flows_to_antisym with r grid; auto.
    apply Hac. by apply Hdon. }
  apply NoDup_Permutation; [done| |].
  - apply NoDup_cons. split.
    + intros (l & Hl & Hx)%list_elem_of_In%in_concat.
      apply list_elem_of_In, list_elem_of_fmap in Hl as (d & -> & Hd).
      apply list_elem_of_In, (HU d m Hd) in Hx as [_ Hfl]. by apply (Hback d).
    + apply NoDup_concat_disjoint.
      * apply Forall_fmap, Forall_forall. intros d (Hd & _)%Hdon. simpl.
        by destruct (Hup d Hd) as (ud & -> & ? & _).
      * intros i j l1 l2 x Hi Hj H1 H2.
        rewrite list_lookup_fmap in Hi, Hj.
        destruct (donors !! i) as [d1|] eqn:Hd1; [|done].
        destruct (donors !! j) as [d2|] eqn:Hd2; [|done].
        injection Hi as <-. injection Hj as <-.
        assert (d1 ∈ donors) as Hin1 by (by eapply list_elem_of_lookup_2).
        assert (d2 ∈ donors) as Hin2 by (by eapply list_elem_of_lookup_2).
        apply (HU d1 x Hin1) in H1 as [_ H1]. apply (HU d2 x Hin2) in H2 as [_ H2].
        assert (d1 = d2) as Heq.
        { assert (∀ a b, a ∈ donors → b ∈ donors → flows_to r grid a b → a = b) as Hone.
          { intros a b Ha Hb Hab. destruct (decide (a = b)) as [|Hne]; [done|].
            destruct Hab as [|a a' b Hr Hne' Hc Hfl]; [done|].
            pose proof Ha as (_ & _ & Hra)%Hdon.
            assert (a' = m) as -> by congruence. by destruct (Hback b). }
          destruct (flows_to_linear r grid x d1 d2 H1 H2); [|symmetry]; by apply Hone. }
        subst d2. by eapply (NoDup_lookup donors).
  - intros x. rewrite elem_of_cons, Hmem. split.
    + intros [Hx Hfl]. apply flows_to_last in Hfl as [->|(b & Hb & Hr & Hne & Hc)]; [by left|].
      right. apply list_elem_of_In, in_concat.
      assert (b ∈ donors) as Hbd.
      { apply Hdon. split_and!; [|done|done]. by eapply flows_to_core. }
      exists (default [] (hu !! b)). split.
      * apply list_elem_of_In, list_elem_of_fmap. by exists b.
      * apply list_elem_of_In, HU; done.
    + intros [->|(l & Hl & Hx)%list_elem_of_In%in_concat]; [split; [done|apply flows_here]|].
      apply list_elem_of_In, list_elem_of_fmap in Hl as (d & -> & Hd).
      apply list_elem_of_In, (HU d x Hd) in Hx as [Hx Hfl]. split; [done|].
      eapply flows_to_trans; eauto.
Qed.

(** Every core node flows to one outlet, a core node whose receiver
    is itself or lies outside the core. *)
Lemma upstream_of_outlets fuel hu fa outlets nodes :
  track_source r own_id grid fuel = Done (hu, fa) →
  NoDup outlets →
  (∀ t, t ∈ outlets ↔
     t ∈ core_nodes grid ∧ ∀ m, r t = Done m → m ≠ t → m ∉ core_nodes grid) →
  NoDup nodes → (∀ x, x ∈ nodes ↔ x ∈ core_nodes grid) →
  concat (map (λ t, default [] (hu !! t)) outlets) ≡ₚ nodes.
Proof.
  intros Hts Hnd Hout Hnodes Hmem.
  pose proof (track_source_upstream r grid Hok Hac fuel hu fa Hts) as Hup.
  assert (∀ t x, t ∈ outlets → x ∈ default [] (hu !! t) ↔
            x ∈ core_nodes grid ∧ flows_to r grid x t) as HU.
  { intros t x Ht. apply Hout in Ht as (Ht & _).
    destruct (Hup t Ht) as (ut & -> & _ & Hmt & _). apply Hmt. }
  assert (∀ t n, t ∈ outlets → flows_to r grid t n → t = n) as Hstop.
  { intros t n (_ & Hend)%Hout Hfl.
    destruct Hfl as [|t m n Hr Hne Hc _]; [done|]. by destruct (Hend m). }
  assert (∀ x, drains r grid x → x ∈ core_nodes grid →
            ∃ t, t ∈ outlets ∧ flows_to r grid x t) as Hreach.
  { intros x Hd. induction Hd as [j Hr|j m Hr Hne Hm|j m Hr Hne Hm _ IH]; intros Hj.
    - exists j. split; [|apply flows_here]. apply Hout. split; [done|]. intros m. congruence.
    - exists j. split; [|apply flows_here]. apply Hout. split; [done|]. intros m'. congruence.
    - destruct (IH Hm) as (t & Ht & Hfl). exists t. split; [done|].
      eapply flows_on; eauto. }
  apply NoDup_Permutation; [|done|].
  - apply NoDup_concat_disjoint.
    + apply Forall_fmap, Forall_forall. intros t (Ht & _)%Hout. simpl.
      by destruct (Hup t Ht) as (ut & -> & ? & _).
    + intros i j l1 l2 x Hi Hj H1 H2.
      rewrite list_lookup_fmap in Hi, Hj.
      destruct (outlets !! i) as [t1|] eqn:Ht1; [|done].
      destruct (outlets !! j) as [t2|] eqn:Ht2; [|done].
      injection Hi as <-. injection Hj as <-.
      assert (t1 ∈ outlets) as Hin1 by (by eapply list_elem_of_lookup_2).
      assert (t2 ∈ outlets) as Hin2 by (by eapply list_elem_of_lookup_2).
      apply (HU t1 x Hin1) in H1 as [_ H1]. apply (HU t2 x Hin2) in H2 as [_ H2].
      assert (t1 = t2) as Heq.
      { destruct (flows_to_linear r grid x t1 t2 H1 H2); [|symmetry]; by apply Hstop. }
      subst t2. by eapply (NoDup_lookup outlets).
  - intros x. rewrite Hmem. split.
    + intros (l & Hl & Hx)%list_elem_of_In%in_concat.
      apply list_elem_of_In, list_elem_of_fmap in Hl as (t & -> & Ht).
      by apply list_elem_of_In, (HU t x Ht) in Hx as [Hx _].
    + intros Hx. destruct (Hreach x (Hac x Hx) Hx) as (t & Ht & Hfl).
      apply list_elem_of_In, in_concat. exists (default [] (hu !! t)). split.
      * apply list_elem_of_In, list_elem_of_fmap. by exists t.
      * by apply list_elem_of_In, HU.
Qed.

End Donors.

Lemma flows_to_same_core r g1 g2 m n :
  core_nodes g1 = core_nodes g2 → flows_to r g1 m n → flows_to r g2 m n.
Proof.
  intros Hc. induction 1 as [|m m' n Hr Hne Hin _ IH]; [apply flows_here|].
  eapply flows_on; eauto. by rewrite <- Hc.
Qed.

Lemma drains_same_core r g1 g2 j :
  core_nodes g1 = core_nodes g2 → drains r g1 j → drains r g2 j.
Proof.
  intros Hc. induction 1 as [j Hr|j m Hr Hne Hm|j m Hr Hne Hm _ IH].
  - by apply drains_sink.
  - eapply drains_exit; eauto. by rewrite <- Hc.
  - eapply drains_step; eauto. by rewrite <- Hc.
Qed.

Lemma inputs_ok_with_elevation {Id} r (hsd_ids : Z → outcome Id) grid z :
  inputs_ok r hsd_ids grid → length z = number_of_nodes grid →
  inputs_ok r hsd_ids (with_elevation grid z).
Proof. intros Hok Hz. split; simpl; [apply Hok|done|apply Hok|apply Hok]. Qed.

Lemma acyclic_with_elevation r grid z :
  acyclic r grid → acyclic r (with_elevation grid z).
Proof. intros Hac c Hc. apply (drains_same_core r grid); [done|]. by apply Hac. Qed.

(** *** The call never raises on well-formed inputs *)

Section NoRaise.

Context {Id : Type}.
Variable r : Z → outcome Z.
Variable hsd_ids : Z → outcome Id.
Variable grid : Grid.

Hypothesis Hok : inputs_ok r hsd_ids grid.

Lemma track_loop_no_raise fuel e : ∀ sor_z st,
  tracker_inv grid st → (∀ i, i ∈ sor_z → i ∈ core_nodes grid) →
  track_loop r hsd_ids grid fuel sor_z st ≠ Raise e.
Proof.
  induction sor_z as [|i rest IH]; intros st HI Hsub; [done|].
  assert (i ∈ core_nodes grid) as Hi by (apply Hsub; left).
  assert (∀ x, x ∈ rest → x ∈ core_nodes grid) as Hsub'
    by (intros x Hx; apply Hsub; by right).
  destruct (track_loop_step r hsd_ids grid fuel i rest st Hok HI Hi)
    as [(Hc & ->)|[(Hc & Hs & h & Hh & ->)|(Hc & _ & ->)]].
  - by apply IH.
  - apply IH; [|done]. by apply (sink_state_inv r hsd_ids grid).
  - destruct (walk r hsd_ids grid fuel true i 0 [] st) as [st1|e'|] eqn:Hw; simpl.
    + apply IH; [|done].
      by destruct (walk_spec r hsd_ids grid fuel true i 0 [] st st1 Hok HI Hi eq_refl Hc Hw).
    + by apply walk_no_raise in Hw.
    + done.
Qed.

Lemma track_source_no_raise fuel e : track_source r hsd_ids grid fuel ≠ Raise e.
Proof.
  destruct (sorted_core_nodes_perm r hsd_ids grid Hok) as (sor_z & Hs & Hp).
  unfold track_source. rewrite Hs. simpl.
  destruct (track_loop r hsd_ids grid fuel sor_z _) as [st|e'|] eqn:Hl; [done| |done].
  apply track_loop_no_raise in Hl; [done|apply (initial_state_inv grid)|].
  intros i Hi. by rewrite <- Hp.
Qed.

(** The core nodes that do not drain are a set receivers never leave. *)
Lemma undrained_trapped :
  trapped r grid (λ x, x ∈ core_nodes grid ∧ ¬ drains r grid x).
Proof.
  intros x [Hx Hnd]. split; [done|].
  destruct (r_defined _ _ _ Hok x Hx) as [m Hm]. exists m. split; [done|].
  assert (m ≠ x) as Hne by (intros ->; by apply Hnd, drains_sink).
  assert (m ∈ core_nodes grid) as Hc.
  { destruct (decide (m ∈ core_nodes grid)) as [|Hout]; [done|].
    destruct Hnd. by eapply drains_exit. }
  split_and!; [done|done|]. intros Hd. apply Hnd. by eapply drains_step.
Qed.

(** *** A bound on the length of a segment *)

Hypothesis Hac : acyclic r grid.

(** The nodes a segment has visited are distinct core nodes, so a
    segment ends before it has made more iterations than there are
    core nodes, plus the one that leaves the core. *)
Lemma walk_within fuel : ∀ sw j a B st V,
  tracker_inv grid st → j ∈ core_nodes grid → a = Z.of_nat (length B) →
  NoDup V → (∀ v, v ∈ V → v ∈ core_nodes grid) →
  (if sw : bool then V = [] ∧ j ∉ alr_counted st
   else B ≠ [] ∧ segment_at r grid V j ∧ r j ≠ Done j) →
  (length (core_nodes grid) + 1 ≤ fuel + length V)%nat →
  ∃ st', walk r hsd_ids grid fuel sw j a B st = Done st'.
Proof.
  induction fuel as [|fuel IH]; intros sw j a B st V HI Hj Ha Hnd HV Hpre Hfuel.
  { apply NoDup_submseteq in HV; [|done]. apply submseteq_length in HV. lia. }
  rewrite walk_unfold.
  assert (∀ k, k ∈ core_nodes grid → (B = [] → k ∉ alr_counted st) →
    (V = [] ∨ ∃ j, segment_at r grid V j ∧ r j = Done k ∧ k ≠ j) →
    ∃ st', ('(a', buf', st') ← visit hsd_ids k a B st;
            rj ← r k;
            if bool_decide (rj = k) then Done st'
            else walk r hsd_ids grid fuel false k a' buf' st') = Done st') as Hbody.
  { intros k Hk Hbuf Hfrom.
    assert (k ∉ V) as HkV.
    { intros HkV. destruct Hfrom as [->|(j0 & Hat & Hr & Hne)].
      - by apply elem_of_nil in HkV.
      - apply Hne. apply flows_to_antisym with r grid; [by apply Hac|by apply Hat|].
        eapply flows_on; eauto using flows_here. }
    assert (segment_at r grid (V ++ [k]) k) as Hat'.
    { split.
      - apply elem_of_app. right. by left.
      - intros v [Hv0| ->%list_elem_of_singleton]%elem_of_app; [|apply flows_here].
        destruct Hfrom as [->|(j0 & Hat & Hr & Hne)]; [by apply elem_of_nil in Hv0|].
        eapply flows_to_next; eauto. by apply Hat.
      - intros v v' [Hv0|Hv0%list_elem_of_singleton]%elem_of_app Hne Hr Hne' Hc; [|done].
        apply elem_of_app.
        destruct Hfrom as [->|(j0 & Hat & Hrj & Hnej)]; [by apply elem_of_nil in Hv0|].
        destruct (decide (v = j0)) as [->|Hvj].
        + right. apply list_elem_of_singleton. congruence.
        + left. eapply at_next; eauto. }
    destruct (visit hsd_ids k a B st) as [[[a' B'] st1]| |] eqn:Hv.
    2,3: by destruct (visit_spec r hsd_ids grid k a B st Hok HI Hk)
           as [(_ & h & _ & Hv')|(l & _ & _ & Hv')]; rewrite Hv' in Hv.
    destruct (visit_inv r hsd_ids grid k a B st a' B' st1 Hok HI Hk Hbuf Ha Hv)
      as (HI1 & Ha' & HB' & _).
    simpl. destruct (r_defined _ _ _ Hok k Hk) as [m Hm]. rewrite Hm. simpl.
    case_bool_decide as Hsink; [by eauto|].
    apply (IH false k a' B' st1 (V ++ [k])); try done.
    - apply NoDup_app. split_and!; [done| |apply NoDup_singleton].
      by intros x Hx ->%list_elem_of_singleton.
    - intros v [Hv0| ->%list_elem_of_singleton]%elem_of_app; [by apply HV|done].
    - split_and!; [done|done|congruence].
    - rewrite length_app. simpl. lia. }
  destruct sw; simpl.
  - destruct Hpre as [-> Hnew]. apply Hbody; [done|done|by left].
  - destruct Hpre as (HB & Hat & Hns).
    destruct (r_defined _ _ _ Hok j Hj) as [m Hm]. rewrite Hm. simpl.
    case_bool_decide as Hcore; [|by eauto].
    apply Hbody; [done|done|]. right. exists j. split_and!; [done|done|congruence].
Qed.

Lemma track_loop_within fuel : ∀ sor_z st,
  (length (core_nodes grid) + 1 ≤ fuel)%nat →
  tracker_inv grid st → (∀ i, i ∈ sor_z → i ∈ core_nodes grid) →
  ∃ st', track_loop r hsd_ids grid fuel sor_z st = Done st'.
Proof.
  intros sor_z st Hfuel. revert st.
  induction sor_z as [|i rest IH]; intros st HI Hsub; [by eauto|].
  assert (i ∈ core_nodes grid) as Hi by (apply Hsub; left).
  assert (∀ x, x ∈ rest → x ∈ core_nodes grid) as Hsub'
    by (intros x Hx; apply Hsub; by right).
  destruct (track_loop_step r hsd_ids grid fuel i rest st Hok HI Hi)
    as [(Hc & ->)|[(Hc & Hs & h & Hh & ->)|(Hc & _ & ->)]].
  - by apply IH.
  - apply IH; [|done]. by apply (sink_state_inv r hsd_ids grid).
  - destruct (walk_within fuel true i 0 [] st [] HI Hi eq_refl) as [st1 Hw].
    + apply NoDup_nil_2.
    + by intros v ?%elem_of_nil.
    + done.
    + simpl. lia.
    + rewrite Hw. simpl. apply IH; [|done].
      by destruct (walk_spec r hsd_ids grid fuel true i 0 [] st st1 Hok HI Hi eq_refl Hc Hw).
Qed.

Lemma track_source_within fuel :
  (length (core_nodes grid) + 1 ≤ fuel)%nat →
  ∃ res, track_source r hsd_ids grid fuel = Done res.
Proof.
  intros Hfuel.
  destruct (sorted_core_nodes_perm r hsd_ids grid Hok) as (sor_z & Hs & Hp).
  unfold track_source. rewrite Hs. simpl.
  destruct (track_loop_within fuel sor_z (initial_state grid) Hfuel) as [st' Hst'].
  - apply initial_state_inv.
  - intros i Hi. by rewrite <- Hp.
  - unfold initial_state in Hst'. rewrite Hst'. simpl. eauto.
Qed.


End NoRaise.

(** *** Indexing errors *)

Lemma omapM_raises {A B} (f : A → outcome B) (l : list A) e x :
  (∀ y, y ∈ l → (∃ b, f y = Done b) ∨ f y = Raise e) →
  x ∈ l → f x = Raise e → omapM f l = Raise e.
Proof.
  induction l as [|y l IH]; intros Hf Hx Hfx; [by apply elem_of_nil in Hx|].
  simpl. destruct (Hf y) as [[b Hb]| ->]; [by left| |done].
  rewrite Hb. simpl.
  apply elem_of_cons in Hx as [->|Hx]; [congruence|].
  rewrite IH; [done| |done|done]. intros y' Hy'. apply Hf. by right.
Qed.

Lemma np_get_out_of_range {A} (l : list A) i :
  ¬ (- Z.of_nat (length l) ≤ i < Z.of_nat (length l)) → np_get l i = Raise LookupError.
Proof.
  intros Hi. unfold np_get, np_index.
  rewrite !bool_decide_eq_false_2 by lia. done.
Qed.

Lemma np_get_Done_or_LookupError {A} (l : list A) i :
  (∃ x, np_get l i = Done x) ∨ np_get l i = Raise LookupError.
Proof.
  unfold np_get. destruct (np_index _ _) as [k|]; [|by right].
  destruct (l !! k); [left; eauto|by right].
Qed.

(** *** Fractions *)

Lemma trapped_not_drains r grid (S : Z → Prop) x :
  trapped r grid S → S x → ¬ drains r grid x.
Proof.
  intros Htrap HS Hd. induction Hd as [j Hr|j m Hr Hne Hm|j m Hr Hne Hm _ IH];
    destruct (Htrap j HS) as (Hc & m' & Hm' & Hne' & HSm).
  - congruence.
  - destruct (Htrap m' HSm) as [Hc' _]. congruence.
  - apply IH. congruence.
Qed.

Section FractionBounds.

Context {Id : Type} `{EqDecision Id}.

Lemma occurrences_pos (k : Id) l : k ∈ l → (0 < occurrences k l)%nat.
Proof.
  intros Hk. unfold occurrences.
  assert (k ∈ filter (λ x, x = k) l) as Hin by (by apply list_elem_of_filter).
  destruct (filter _ l); [by apply elem_of_nil in Hin|simpl; lia].
Qed.

Lemma fraction_bounds (l : list Id) k :
  k ∈ l → (0 < fraction l k)%Q ∧ (fraction l k <= 1)%Q.
Proof.
  intros Hk. pose proof (occurrences_pos k l Hk) as Hpos.
  assert (occurrences k l ≤ length l)%nat as Hle by apply length_filter.
  assert (0 < inject_Z (Z.of_nat (length l)))%Q as Hlen.
  { rewrite <- (Zlt_Qlt 0). lia. }
  unfold fraction. split.
  - apply Qlt_shift_div_l; [done|]. rewrite Qmult_0_l, <- (Zlt_Qlt 0). lia.
  - apply Qle_shift_div_r; [done|]. rewrite Qmult_1_l, <- Zle_Qle. lia.
Qed.


End FractionBounds.

(** *** A missing identifier *)

Section MissingLabel.

Context {Id : Type}.
Variable r : Z → outcome Z.
Variable hsd_ids : Z → outcome Id.
Variable grid : Grid.

(** The labelling that keeps what [hsd_ids] gives, error or not, as
    the label. *)
Local Abbreviation kept := (λ c : Z, Done (hsd_ids c)).

Hypothesis Hnf : ∀ c, c ∈ core_nodes grid → hsd_ids c ≠ OutOfFuel.

Lemma visit_partial k a B st :
  k ∈ core_nodes grid →
  (∃ e, hsd_ids k = Raise e ∧ visit hsd_ids k a B st = Raise e) ∨
  visit kept k a (map Done B) (relabel Done st)
  = outcome_map (λ '(a', B', st'), (a', map Done B', relabel Done st'))
      (visit hsd_ids k a B st).
Proof.
  intros Hk. destruct (np_get (flow_accum st) k) as [fj| |] eqn:Hget.
  - destruct (decide (fj = 0)) as [->|Hne].
    + destruct (hsd_ids k) as [h|e|] eqn:Hh.
      * right. apply visit_relabel. intros _. by rewrite Hh.
      * left. exists e. split; [done|]. unfold visit. rewrite Hget. simpl.
        by rewrite Hh.
      * by destruct (Hnf k).
    + right. apply visit_relabel. intros Hz. congruence.
  - right. apply visit_relabel. intros Hz. congruence.
  - right. apply visit_relabel. intros Hz. congruence.
Qed.

Lemma walk_partial fuel : ∀ sw j a B st,
  (sw = true → j ∈ core_nodes grid) →
  (∃ c e, c ∈ core_nodes grid ∧ hsd_ids c = Raise e ∧
          walk r hsd_ids grid fuel sw j a B st = Raise e) ∨
  walk r kept grid fuel sw j a (map Done B) (relabel Done st)
  = outcome_map (relabel Done) (walk r hsd_ids grid fuel sw j a B st).
Proof.
  induction fuel as [|fuel IH]; intros sw j a B st Hj; [by right|].
  rewrite !walk_unfold.
  assert (∀ k, k ∈ core_nodes grid →
    (∃ c e, c ∈ core_nodes grid ∧ hsd_ids c = Raise e ∧
       ('(a', buf', st') ← visit hsd_ids k a B st;
        rj ← r k;
        if bool_decide (rj = k) then Done st'
        else walk r hsd_ids grid fuel false k a' buf' st') = Raise e) ∨
    ('(a', buf', st') ← visit kept k a (map Done B) (relabel Done st);
     rj ← r k;
     if bool_decide (rj = k) then Done st'
     else walk r kept grid fuel false k a' buf' st')
    = outcome_map (relabel Done)
        ('(a', buf', st') ← visit hsd_ids k a B st;
         rj ← r k;
         if bool_decide (rj = k) then Done st'
         else walk r hsd_ids grid fuel false k a' buf' st')) as Hbody.
  { intros k Hk. destruct (visit_partial k a B st Hk) as [(e & He & ->)| ->].
    { left. by exists k, e. }
    destruct (visit hsd_ids k a B st) as [[[a' B'] st1]| |]; simpl; [|by right|by right].
    destruct (r k) as [rk| |]; simpl; [|by right|by right].
    case_bool_decide; [by right|]. by apply IH. }
  destruct sw; simpl.
  - by apply Hbody, Hj.
  - destruct (r j) as [j'| |]; simpl; [|by right|by right].
    case_bool_decide; [by apply Hbody|by right].
Qed.

Lemma track_loop_partial fuel : ∀ sor_z st,
  (∀ i, i ∈ sor_z → i ∈ core_nodes grid) →
  (∃ c e, c ∈ core_nodes grid ∧ hsd_ids c = Raise e ∧
          track_loop r hsd_ids grid fuel sor_z st = Raise e) ∨
  track_loop r kept grid fuel sor_z (relabel Done st)
  = outcome_map (relabel Done) (track_loop r hsd_ids grid fuel sor_z st).
Proof.
  induction sor_z as [|i rest IH]; intros st Hsub; [by right|].
  assert (i ∈ core_nodes grid) as Hi by (apply Hsub; left).
  assert (∀ x, x ∈ rest → x ∈ core_nodes grid) as Hsub'
    by (intros x Hx; apply Hsub; by right).
  rewrite !track_loop_unfold. cbn [relabel alr_counted flow_accum hsd_upstr].
  case_bool_decide; [by apply IH|].
  destruct (r i) as [ri| |]; cbn [mbind outcome_bind obind outcome_map];
    [|by right|by right].
  case_bool_decide.
  - destruct (hsd_ids i) as [h|e|] eqn:Hh; cbn [mbind outcome_bind obind outcome_map].
    + destruct (np_get (flow_accum st) i) as [fi| |];
        cbn [mbind outcome_bind obind outcome_map]; [|by right|by right].
      destruct (np_set _ _ _) as [fa| |];
        cbn [mbind outcome_bind obind outcome_map]; [|by right|by right].
      match goal with |- _ ∨ _ = outcome_map _ (track_loop _ _ _ _ _ ?st2) =>
        destruct (IH st2 Hsub') as [Hl|Hr]; [by left|right] end.
      rewrite <- Hr. unfold relabel. simpl. by rewrite fmap_insert.
    + left. by exists i, e.
    + by destruct (Hnf i).
  - change (@nil (outcome Id)) with (map (@Done Id) []).
    change {| alr_counted := alr_counted st; flow_accum := flow_accum st;
              hsd_upstr := map Done <$> hsd_upstr st |} with (relabel (@Done Id) st).
    destruct (walk_partial fuel true i 0 [] st (λ _, Hi)) as [(c & e & Hc & He & ->)| ->].
    { left. by exists c, e. }
    destruct (walk r hsd_ids grid fuel true i 0 [] st) as [st1| |];
      cbn [mbind outcome_bind obind outcome_map]; [|by right|by right].
    by apply IH.
Qed.

Lemma track_source_partial fuel :
  (∃ c e, c ∈ core_nodes grid ∧ hsd_ids c = Raise e ∧
          track_source r hsd_ids grid fuel = Raise e) ∨
  track_source r kept grid fuel
  = outcome_map (λ '(hu, fa), (map Done <$> hu, fa)) (track_source r hsd_ids grid fuel).
Proof.
  unfold track_source.
  destruct (sorted_core_nodes grid) as [sor_z| |] eqn:Hs; simpl; [|by right|by right].
  assert (∀ i, i ∈ sor_z → i ∈ core_nodes grid) as Hsub.
  { unfold sorted_core_nodes in Hs. apply obind_Done in Hs as (ce & _ & Hs).
    by eapply np_take_elem. }
  destruct (track_loop_partial fuel sor_z
    {| alr_counted := []; flow_accum := replicate (number_of_nodes grid) 0;
       hsd_upstr := ∅ |} Hsub) as [(c & e & Hc & He & ->)|Hl].
  { left. by exists c, e. }
  right. unfold relabel in Hl at 1. simpl in Hl. rewrite fmap_empty in Hl. rewrite Hl.
  by destruct (track_loop r hsd_ids grid fuel sor_z _) as [st| |].
Qed.

Hypothesis Hok : inputs_ok r own_id grid.
Hypothesis Hac : acyclic r grid.

Lemma track_source_missing c e fuel :
  c ∈ core_nodes grid → hsd_ids c = Raise e →
  (length (core_nodes grid) + 1 ≤ fuel)%nat →
  ∃ c' e', c' ∈ core_nodes grid ∧ hsd_ids c' = Raise e' ∧
    track_source r hsd_ids grid fuel = Raise e'.
Proof.
  intros Hc He Hfuel.
  destruct (track_source_partial fuel) as [Hraise|Heq]; [done|].
  assert (inputs_ok r kept grid) as Hok'.
  { split; [apply Hok|apply Hok|apply Hok|]. intros c' _. eauto. }
  destruct (track_source_within r kept grid Hok' Hac fuel Hfuel) as [[huO faO] HO].
  rewrite HO in Heq.
  destruct (track_source r hsd_ids grid fuel) as [[hu fa]| |]; [|done|done].
  injection Heq as -> ->.
  destruct (track_source_labels r kept grid Hok' Hac fuel _ _ hsd_ids
              (λ _ _, eq_refl) HO c Hc) as (ups & _ & Hmem & Hhu & _).
  rewrite lookup_fmap in Hhu. destruct (hu !! c) as [l|]; [|done].
  injection Hhu as Hhu.
  assert (hsd_ids c ∈ map hsd_ids ups) as Hin.
  { apply list_elem_of_fmap. exists c. split; [done|].
    apply Hmem. split; [done|apply flows_here]. }
  rewrite <- Hhu in Hin. apply list_elem_of_fmap in Hin as (x & Hx & _). congruence.
Qed.

End MissingLabel.

(** *** The lists behind the returned dict *)

Section ReturnedLists.

Context {Id : Type}.
Variable h0 : heap Id.
Variable grid : HGrid.
Variable g : Grid.
Hypothesis Hgrid : grid_at grid h0 = Some g.

(** The heap version of [track_source] ends as the pure one does, and
    when it returns, the heap holds the returned dict and array as
    [rep] describes. *)
Lemma track_source_heap_rep r hsd_ids fuel :
  is_Some (h0 !! r) → is_Some (h0 !! hsd_ids) →
  sim (λ '(lhu, lfa) '(hu, fa) h',
         (length h0 ≤ lhu)%nat ∧ (length h0 ≤ lfa)%nat ∧
         ∃ la d alr, rep h0 la lfa lhu d alr fa hu h')
      (track_source_heap grid r hsd_ids fuel)
      (track_source (getitem_int_at h0 r) (getitem_id_at h0 hsd_ids) g fuel) h0.
Proof.
  intros Hr Hhsd. destruct (grid_at_inv h0 grid g Hgrid) as (Hcore & Hz & _ & _ & HN).
  unfold track_source_heap, track_source, sorted_core_nodes.
  rewrite !obind_assoc. cbn zeta.
  apply sim_bind_assoc. eapply sim_step; [by apply load_float_eq|].
  apply sim_bind_assoc. eapply sim_step; [by apply load_int_eq|].
  apply sim_bind_assoc, sim_bind_lift. intros e _.
  eapply sim_step; [reflexivity|].
  apply sim_bind_assoc. eapply sim_step; [by apply load_float_eq, list_lookup_middle|].
  apply sim_bind_assoc. eapply sim_step; [by apply load_int_eq, lookup_app_l_Some|].
  apply sim_bind_assoc, sim_bind_lift. intros s _.
  do 4 (eapply sim_step; [reflexivity|]).
  set (h1 := h0 ++ [NdFloat e]). set (h2 := h1 ++ [NdInt s]).
  set (h3 := h2 ++ [ListInt []]).
  set (h4 := h3 ++ [NdInt (replicate (h_number_of_nodes grid) 0)]).
  set (h5 := h4 ++ [DictRef ∅]).
  eapply sim_step.
  { apply load_int_eq. subst h5 h4 h3.
    do 3 apply lookup_app_l_Some. by apply list_lookup_middle. }
  assert (rep h0 (length h2) (length h3) (length h4) ∅ []
            (replicate (number_of_nodes g) 0) ∅ h5) as Hrep.
  { split.
    - exists [NdFloat e; NdInt s; ListInt [];
              NdInt (replicate (h_number_of_nodes grid) 0); DictRef ∅].
      subst h5 h4 h3 h2 h1. by rewrite <- !app_assoc.
    - subst h5 h4. do 2 apply lookup_app_l_Some. by apply list_lookup_middle.
    - subst h5. apply lookup_app_l_Some. rewrite HN. by apply list_lookup_middle.
    - by apply list_lookup_middle.
    - intros n. by rewrite !lookup_empty.
    - intros n n' ref. by rewrite lookup_empty. }
  assert (length h0 ≤ length h2)%nat as H2
    by (subst h2 h1; rewrite !length_app; simpl; lia).
  assert (length h0 ≤ length h3)%nat as H3
    by (subst h3 h2 h1; rewrite !length_app; simpl; lia).
  assert (length h0 ≤ length h4)%nat as H4
    by (subst h4 h3 h2 h1; rewrite !length_app; simpl; lia).
  apply (sim_bind (λ _ st' h', ∃ d', rep h0 (length h2) (length h3) (length h4) d'
                                  (alr_counted st') (flow_accum st') (hsd_upstr st') h')).
  - by apply (track_loop_heap_sim h0 _ _ _ H2 H3 H4 grid r hsd_ids g Hgrid Hr Hhsd
                fuel s [] _ ∅ ∅ h5).
  - intros _ st' h' [d' Hrep']. apply sim_ret. split_and!; [done|done|eauto].
Qed.

End ReturnedLists.

(** *** What the call reads *)

Section SameOnCore.

Context {Id : Type}.
Variable r r' : Z → outcome Z.
Variable hsd_ids hsd_ids' : Z → outcome Id.
Variable grid : Grid.

Hypothesis Hr : ∀ c, c ∈ core_nodes grid → r' c = r c.
Hypothesis Hh : ∀ c, c ∈ core_nodes grid → hsd_ids' c = hsd_ids c.

Lemma visit_same k a B st :
  k ∈ core_nodes grid → visit hsd_ids' k a B st = visit hsd_ids k a B st.
Proof. intros Hk. unfold visit. by rewrite (Hh k Hk). Qed.

Lemma walk_same fuel : ∀ sw j a B st,
  j ∈ core_nodes grid →
  walk r' hsd_ids' grid fuel sw j a B st = walk r hsd_ids grid fuel sw j a B st.
Proof.
  induction fuel as [|fuel IH]; intros sw j a B st Hj; [done|].
  rewrite !walk_unfold.
  assert (∀ k, k ∈ core_nodes grid →
    ('(a', buf', st') ← visit hsd_ids' k a B st;
     rj ← r' k;
     if bool_decide (rj = k) then Done st'
     else walk r' hsd_ids' grid fuel false k a' buf' st')
    = ('(a', buf', st') ← visit hsd_ids k a B st;
       rj ← r k;
       if bool_decide (rj = k) then Done st'
       else walk r hsd_ids grid fuel false k a' buf' st')) as Hbody.
  { intros k Hk. rewrite (visit_same k a B st Hk), (Hr k Hk).
    destruct (visit hsd_ids k a B st) as [[[a' B'] st1]| |]; simpl; [|done|done].
    destruct (r k) as [rk| |]; simpl; [|done|done].
    case_bool_decide; [done|]. by apply IH. }
  destruct sw; simpl.
  - by apply Hbody.
  - rewrite (Hr j Hj). destruct (r j) as [j'| |]; simpl; [|done|done].
    case_bool_decide; [by apply Hbody|done].
Qed.

Lemma track_loop_same fuel : ∀ sor_z st,
  (∀ i, i ∈ sor_z → i ∈ core_nodes grid) →
  track_loop r' hsd_ids' grid fuel sor_z st = track_loop r hsd_ids grid fuel sor_z st.
Proof.
  induction sor_z as [|i rest IH]; intros st Hsub; [done|].
  assert (i ∈ core_nodes grid) as Hi by (apply Hsub; left).
  assert (∀ x, x ∈ rest → x ∈ core_nodes grid) as Hsub'
    by (intros x Hx; apply Hsub; by right).
  rewrite !track_loop_unfold, (Hr i Hi), (Hh i Hi), (walk_same fuel true i 0 [] st Hi).
  case_bool_decide; [by apply IH|].
  destruct (r i) as [ri| |]; cbn [mbind outcome_bind obind]; [|done|done].
  case_bool_decide.
  - destruct (hsd_ids i) as [h| |]; cbn [mbind outcome_bind obind]; [|done|done].
    destruct (np_get (flow_accum st) i) as [fi| |]; cbn [mbind outcome_bind obind];
      [|done|done].
    destruct (np_set _ _ _) as [fa| |]; cbn [mbind outcome_bind obind]; [|done|done].
    by apply IH.
  - destruct (walk r hsd_ids grid fuel true i 0 [] st) as [st1| |];
      cbn [mbind outcome_bind obind]; [|done|done].
    by apply IH.
Qed.

Lemma track_source_same fuel :
  track_source r' hsd_ids' grid fuel = track_source r hsd_ids grid fuel.
Proof.
  unfold track_source.
  destruct (sorted_core_nodes grid) as [sor_z| |] eqn:Hs; simpl; [|done|done].
  rewrite track_loop_same; [done|].
  unfold sorted_core_nodes in Hs. apply obind_Done in Hs as (ce & _ & Hs).
  by eapply np_take_elem.
Qed.

End SameOnCore.

(** *** Arrays the decoder cannot use *)



(** * Main results *)

(** ** The worked scenario *)

Lemma scenario_inputs_ok :
  inputs_ok (dict_get scenario_r) (dict_get scenario_hsd) scenario_grid.
Proof. apply inputs_okb_correct. vm_compute. reflexivity. Qed.

Lemma scenario_acyclic : acyclic (dict_get scenario_r) scenario_grid.
Proof. apply (acyclicb_correct _ _ 3). vm_compute. reflexivity. Qed.

(** C1. On the worked scenario [track_source] returns, for any fuel
    of three or more, the upstream lists 1:[A], 2:[B], 3:[A,C,B],
    4:[A,C,D,B] and the accumulation array 0,1,1,3,4 (node 0 is the
    boundary node); the aggregator then gives at node 4 the
    identifiers A,C,D,B with fraction 1/4 each and at node 3 the
    identifiers A,C,B with fraction 1/3 each. *)
Theorem worked_scenario :
  (∀ fuel,
     track_source (dict_get scenario_r) (dict_get scenario_hsd) scenario_grid (3 + fuel)
     = Done (scenario_hsd_upstr, [0; 1; 1; 3; 4])) ∧
  ∃ uniq_ids coeff,
    find_unique_upstream_hsd_ids_and_fractions scenario_hsd_upstr = Done (uniq_ids, coeff) ∧
    uniq_ids !! 4 = Some ["A"; "C"; "D"; "B"]%string ∧
    coeff !! 4 = Some [1 # 4; 1 # 4; 1 # 4; 1 # 4]%Q ∧
    uniq_ids !! 3 = Some ["A"; "C"; "B"]%string ∧
    coeff !! 3 = Some [1 # 3; 1 # 3; 1 # 3]%Q.
Proof.
  split.
  - intros fuel. apply (track_source_more_fuel _ _ _ 3); [lia|].
    vm_compute. reflexivity.
  - rewrite find_unique_spec. eexists _, _. split; [reflexivity|].
    rewrite !lookup_fmap. vm_compute. done.
Qed.

(** ** Invariants of the result *)

(** C2. On well-formed inputs with an acyclic receiver map
    [track_source] returns once the fuel suffices, and whenever it
    returns, [flow_accum[n]] is the length of [hsd_upstr[n]] at every
    node [n], a node without an entry counting as an empty list. *)
Theorem flow_accum_is_length {Id : Type}
    (r : Z → outcome Z) (hsd_ids : Z → outcome Id) (grid : Grid) :
  inputs_ok r hsd_ids grid → acyclic r grid →
  (∃ f0, ∀ fuel, (f0 ≤ fuel)%nat → ∃ res, track_source r hsd_ids grid fuel = Done res) ∧
  (∀ fuel hu fa, track_source r hsd_ids grid fuel = Done (hu, fa) →
     length fa = number_of_nodes grid ∧
     ∀ n, 0 ≤ n < Z.of_nat (number_of_nodes grid) →
       fa !! Z.to_nat n = Some (Z.of_nat (length (default [] (hu !! n))))).
Proof.
  intros Hok Hac. split; [by apply track_source_terminates|].
  intros fuel hu fa Hts.
  destruct (track_source_returns r hsd_ids grid fuel hu fa Hok Hts)
    as (st & sor_z & -> & -> & _ & _ & HI & _).
  split; [apply HI|]. intros n Hn. by apply HI.
Qed.

Lemma flow_accum_is_length_witness :
  inputs_ok (dict_get scenario_r) (dict_get scenario_hsd) scenario_grid ∧
  acyclic (dict_get scenario_r) scenario_grid ∧
  (∃ f0, ∀ fuel, (f0 ≤ fuel)%nat →
     ∃ res, track_source (dict_get scenario_r) (dict_get scenario_hsd) scenario_grid fuel
            = Done res) ∧
  (∀ fuel hu fa,
     track_source (dict_get scenario_r) (dict_get scenario_hsd) scenario_grid fuel
     = Done (hu, fa) →
     length fa = number_of_nodes scenario_grid ∧
     ∀ n, 0 ≤ n < Z.of_nat (number_of_nodes scenario_grid) →
       fa !! Z.to_nat n = Some (Z.of_nat (length (default [] (hu !! n))))).
Proof.
  split; [exact scenario_inputs_ok|]. split; [exact scenario_acyclic|].
  exact (flow_accum_is_length _ _ _ scenario_inputs_ok scenario_acyclic).
Defined.

(** C10. On well-formed acyclic inputs, when [track_source] returns
    every core node has a non-empty entry in [hsd_upstr] and an
    accumulation of at least one, while a node outside the core has
    no entry and accumulation zero. *)
Theorem core_nodes_only {Id : Type}
    (r : Z → outcome Z) (hsd_ids : Z → outcome Id) (grid : Grid) :
  inputs_ok r hsd_ids grid → acyclic r grid →
  (∃ f0, ∀ fuel, (f0 ≤ fuel)%nat → ∃ res, track_source r hsd_ids grid fuel = Done res) ∧
  (∀ fuel hu fa, track_source r hsd_ids grid fuel = Done (hu, fa) →
     (∀ c, c ∈ core_nodes grid →
        ∃ l a, hu !! c = Some l ∧ (1 ≤ length l)%nat ∧
               fa !! Z.to_nat c = Some a ∧ 1 ≤ a) ∧
     (∀ n, n ∉ core_nodes grid →
        hu !! n = None ∧
        (0 ≤ n < Z.of_nat (number_of_nodes grid) → fa !! Z.to_nat n = Some 0))).
Proof.
  intros Hok Hac. split; [by apply track_source_terminates|].
  intros fuel hu fa Hts.
  destruct (track_source_returns r hsd_ids grid fuel hu fa Hok Hts)
    as (st & sor_z & -> & -> & _ & _ & HI & Hall).
  split.
  - intros c Hc. pose proof (core_in_range _ _ _ Hok c Hc) as Hrange.
    destruct (proj1 (inv_counted _ _ HI c) (Hall c Hc)) as [l Hl].
    exists l, (Z.of_nat (length l)).
    pose proof (inv_accum _ _ HI c Hrange) as Hfa. rewrite Hl in Hfa.
    assert (l ≠ []) as Hne by (intros ->; by apply (inv_nonempty _ _ HI c)).
    split_and!; [done| |done|]; destruct l; simpl; try done; lia.
  - intros n Hn.
    assert (hsd_upstr st !! n = None) as Hnone.
    { apply eq_None_not_Some. intros Hsome. by apply Hn, (inv_keys_core _ _ HI). }
    split; [done|]. intros Hrange.
    rewrite (inv_accum _ _ HI n Hrange), Hnone. done.
Qed.

Lemma core_nodes_only_witness :
  inputs_ok (dict_get scenario_r) (dict_get scenario_hsd) scenario_grid ∧
  acyclic (dict_get scenario_r) scenario_grid ∧
  (∃ f0, ∀ fuel, (f0 ≤ fuel)%nat →
     ∃ res, track_source (dict_get scenario_r) (dict_get scenario_hsd) scenario_grid fuel
            = Done res) ∧
  (∀ fuel hu fa,
     track_source (dict_get scenario_r) (dict_get scenario_hsd) scenario_grid fuel
     = Done (hu, fa) →
     (∀ c, c ∈ core_nodes scenario_grid →
        ∃ l a, hu !! c = Some l ∧ (1 ≤ length l)%nat ∧
               fa !! Z.to_nat c = Some a ∧ 1 ≤ a) ∧
     (∀ n, n ∉ core_nodes scenario_grid →
        hu !! n = None ∧
        (0 ≤ n < Z.of_nat (number_of_nodes scenario_grid) →
         fa !! Z.to_nat n = Some 0))).
Proof.
  split; [exact scenario_inputs_ok|]. split; [exact scenario_acyclic|].
  exact (core_nodes_only _ _ _ scenario_inputs_ok scenario_acyclic).
Defined.

(** ** Sinks *)

(** C5, as stated, fails on the worked scenario: node 4 is a sink,
    yet the call returns with four identifiers upstream of it. *)
Lemma sink_with_inflow_accumulates :
  inputs_ok (dict_get scenario_r) (dict_get scenario_hsd) scenario_grid ∧
  acyclic (dict_get scenario_r) scenario_grid ∧
  4 ∈ core_nodes scenario_grid ∧ dict_get scenario_r 4 = Done 4 ∧
  ∃ hu fa,
    track_source (dict_get scenario_r) (dict_get scenario_hsd) scenario_grid 3
    = Done (hu, fa) ∧
    fa !! 4%nat = Some 4 ∧ hu !! 4 = Some ["A"; "C"; "D"; "B"]%string ∧
    ¬ (fa !! 4%nat = Some 1 ∧ hu !! 4 = Some ["D"]%string).
Proof.
  split; [exact scenario_inputs_ok|]. split; [exact scenario_acyclic|].
  split; [vm_compute; set_solver|]. split; [done|].
  eexists _, _. split; [vm_compute; reflexivity|].
  split; [done|]. split; [done|]. by intros [[=] _].
Qed.

(** C5, amended. On well-formed acyclic inputs, a sink that is the
    receiver of no other core node has, when [track_source] returns,
    accumulation one and its own identifier as its only upstream
    entry. *)
Theorem sink_without_inflow {Id : Type}
    (r : Z → outcome Z) (hsd_ids : Z → outcome Id) (grid : Grid) (n : Z) (h : Id) :
  inputs_ok r hsd_ids grid → acyclic r grid →
  n ∈ core_nodes grid → r n = Done n → hsd_ids n = Done h → no_inflow r grid n →
  (∃ f0, ∀ fuel, (f0 ≤ fuel)%nat → ∃ res, track_source r hsd_ids grid fuel = Done res) ∧
  (∀ fuel hu fa, track_source r hsd_ids grid fuel = Done (hu, fa) →
     fa !! Z.to_nat n = Some 1 ∧ hu !! n = Some [h]).
Proof.
  intros Hok Hac Hn Hr Hh Hno. split; [by apply track_source_terminates|].
  intros fuel hu fa Hts.
  destruct (track_source_returns r hsd_ids grid fuel hu fa Hok Hts)
    as (st & sor_z & -> & -> & Hp & Hl & HI & _).
  assert (hsd_upstr st !! n = Some [h]) as Hentry.
  { assert (∀ i, i ∈ sor_z → i ∈ core_nodes grid) as Hsub
      by (intros i Hi; by rewrite <- Hp).
    destruct (track_loop_sink r hsd_ids grid fuel n h sor_z (initial_state grid) st
                Hok (initial_state_inv grid) Hsub Hr Hh Hno Hl) as [_ Hnew].
    apply Hnew; [simpl; by intros ?%elem_of_nil|by rewrite Hp]. }
  split; [|done].
  rewrite (inv_accum _ _ HI n (core_in_range _ _ _ Hok n Hn)), Hentry. done.
Qed.

Lemma basins_inputs_ok : inputs_ok (dict_get basins_r) (dict_get basins_hsd) basins_grid.
Proof. apply inputs_okb_correct. vm_compute. reflexivity. Qed.

Lemma basins_acyclic : acyclic (dict_get basins_r) basins_grid.
Proof. apply (acyclicb_correct _ _ 2). vm_compute. reflexivity. Qed.

Lemma basins_no_inflow : no_inflow (dict_get basins_r) basins_grid 3.
Proof.
  intros m Hm Hne. unfold basins_grid in Hm. simpl in Hm.
  repeat (apply elem_of_cons in Hm as [->|Hm]; [by vm_compute|]).
  by apply elem_of_nil in Hm.
Qed.

Lemma sink_without_inflow_witness :
  (∃ f0, ∀ fuel, (f0 ≤ fuel)%nat →
     ∃ res, track_source (dict_get basins_r) (dict_get basins_hsd) basins_grid fuel
            = Done res) ∧
  (∀ fuel hu fa,
     track_source (dict_get basins_r) (dict_get basins_hsd) basins_grid fuel
     = Done (hu, fa) →
     fa !! Z.to_nat 3 = Some 1 ∧ hu !! 3 = Some ["C"]%string).
Proof.
  apply (sink_without_inflow (dict_get basins_r) (dict_get basins_hsd) basins_grid 3 "C"%string).
  - exact basins_inputs_ok.
  - exact basins_acyclic.
  - vm_compute. set_solver.
  - reflexivity.
  - reflexivity.
  - exact basins_no_inflow.
Defined.

(** ** Cycles *)

Lemma cycle_inputs_ok : inputs_ok (dict_get cycle_r) (dict_get cycle_hsd) cycle_grid.
Proof. apply inputs_okb_correct. vm_compute. reflexivity. Qed.

(** Two distinct core nodes that are each other's receiver form a
    trapped set. *)
Lemma mutual_cycle_trapped (r : Z → outcome Z) (grid : Grid) (a b : Z) :
  a ∈ core_nodes grid → b ∈ core_nodes grid → a ≠ b →
  r a = Done b → r b = Done a →
  trapped r grid (λ x, x = a ∨ x = b).
Proof.
  intros Ha Hb Hne Hab Hba x [->| ->].
  - split; [done|]. exists b. eauto.
  - split; [done|]. exists a. eauto.
Qed.

Lemma cycle_trapped : trapped (dict_get cycle_r) cycle_grid on_cycle.
Proof.
  apply (mutual_cycle_trapped (dict_get cycle_r) cycle_grid 1 2); try done;
    unfold cycle_grid; simpl; set_solver.
Qed.

(** C3, as stated, fails on the mutual cycle 1 -> 2 -> 1: no amount
    of fuel makes the call end by raising. *)
Lemma mutual_cycle_raises_nothing :
  ¬ ∃ fuel e,
      track_source (dict_get cycle_r) (dict_get cycle_hsd) cycle_grid fuel = Raise e.
Proof.
  intros (fuel & e & Hraise).
  rewrite (track_source_trapped _ _ _ on_cycle 1 fuel cycle_inputs_ok cycle_trapped)
    in Hraise; [done|by left].
Qed.

(** C3, amended. On well-formed inputs whose receiver map holds a set
    of core nodes that receivers never leave and that has no sink, as
    every cycle among core nodes does, [track_source] neither returns
    nor raises: the walk is still running whatever the fuel. *)
Theorem cyclic_receivers_never_end {Id : Type}
    (r : Z → outcome Z) (hsd_ids : Z → outcome Id) (grid : Grid)
    (S : Z → Prop) (c : Z) :
  inputs_ok r hsd_ids grid → trapped r grid S → S c →
  ∀ fuel, track_source r hsd_ids grid fuel = OutOfFuel.
Proof. intros Hok Htrap HS fuel. by eapply track_source_trapped. Qed.

Lemma cyclic_receivers_never_end_witness :
  inputs_ok (dict_get cycle_r) (dict_get cycle_hsd) cycle_grid ∧
  trapped (dict_get cycle_r) cycle_grid on_cycle ∧ on_cycle 1 ∧
  ∀ fuel,
    track_source (dict_get cycle_r) (dict_get cycle_hsd) cycle_grid fuel = OutOfFuel.
Proof.
  split; [exact cycle_inputs_ok|]. split; [exact cycle_trapped|].
  split; [by left|].
  apply (cyclic_receivers_never_end _ _ _ on_cycle 1 cycle_inputs_ok cycle_trapped).
  by left.
Defined.

(** ** Aggregation *)



(** C8, as stated, fails on the map holding the single entry 7:[]:
    the aggregator returns, with no identifiers and no fractions at
    node 7. *)
Lemma empty_sequence_raises_nothing :
  find_unique_upstream_hsd_ids_and_fractions ({[ 7 := [] ]} : gmap Z (list string))
  = Done ({[ 7 := [] ]}, {[ 7 := [] ]}) ∧
  ¬ ∃ e, find_unique_upstream_hsd_ids_and_fractions ({[ 7 := [] ]} : gmap Z (list string))
         = Raise e.
Proof.
  split; [vm_compute; reflexivity|]. intros [e He]. vm_compute in He. discriminate.
Qed.

(** C8, amended. For a node whose upstream sequence is empty the
    aggregator returns an empty list of identifiers and an empty list
    of fractions; it performs no division and raises nothing. *)
Theorem empty_sequence_gives_empty_lists {Id : Type} `{EqDecision Id}
    (hsd_upstr : gmap Z (list Id)) (n : Z) :
  hsd_upstr !! n = Some [] →
  ∃ uniq_ids coeff,
    find_unique_upstream_hsd_ids_and_fractions hsd_upstr = Done (uniq_ids, coeff) ∧
    uniq_ids !! n = Some [] ∧ coeff !! n = Some [].
Proof.
  intros Hl. rewrite find_unique_spec. eexists _, _. split; [reflexivity|].
  by rewrite !lookup_fmap, Hl.
Qed.

Lemma empty_sequence_gives_empty_lists_witness :
  ∃ uniq_ids coeff,
    find_unique_upstream_hsd_ids_and_fractions
      ({[ 7 := []; 8 := ["A"%string] ]} : gmap Z (list string))
    = Done (uniq_ids, coeff) ∧
    uniq_ids !! 7 = Some [] ∧ coeff !! 7 = Some [].
Proof.
  apply (empty_sequence_gives_empty_lists
           ({[ 7 := []; 8 := ["A"%string] ]} : gmap Z (list string)) 7).
  reflexivity.
Defined.

(** ** Decoding *)

Lemma raster3_mesh_ok c : mesh_ok raster3 (raster3_codes c).
Proof. apply mesh_okb_correct. vm_compute. reflexivity. Qed.

(** C7. On a well-formed mesh whose core nodes all carry a code
    [2^k] with [k] in 0..7, the decoder returns, and the receiver of
    a core node with code [2^k] is the entry at position [k] of
    E, SE, S, SW, W, NW, N, NE, where E, N, W, S is the node's row of
    orthogonal neighbours and NE, NW, SW, SE its row of diagonals. *)
Theorem decoder_clockwise_from_east (grid : Grid) (flow_dir_arc : list Z) :
  mesh_ok grid flow_dir_arc →
  (∀ c, c ∈ core_nodes grid →
     ∃ k, 0 ≤ k ≤ 7 ∧ flow_dir_arc !! Z.to_nat c = Some (2 ^ k)) →
  ∃ r, convert_arc_flow_directions_to_landlab_node_ids grid flow_dir_arc = Done r ∧
    ∀ c k e n w s ne nw sw se,
      c ∈ core_nodes grid → 0 ≤ k ≤ 7 →
      flow_dir_arc !! Z.to_nat c = Some (2 ^ k) →
      neighbors_at_node grid !! Z.to_nat c = Some [e; n; w; s] →
      diagonals_at_node grid !! Z.to_nat c = Some [ne; nw; sw; se] →
      r !! Z.to_nat c = [e; se; s; sw; w; nw; n; ne] !! Z.to_nat k.
Proof.
  intros Hmesh Hcodes.
  assert (∀ c k, 0 ≤ k ≤ 7 → flow_dir_arc !! Z.to_nat c = Some (2 ^ k) →
            exponent_at flow_dir_arc c = k) as Hexp.
  { intros c k Hk Hc. unfold exponent_at, log2_astype_int. rewrite Hc. simpl.
    rewrite bool_decide_eq_true_2 by (apply Z.pow_pos_nonneg; lia).
    apply Z.log2_pow2. lia. }
  destruct (decoder_returns grid flow_dir_arc Hmesh) as (r & Hr & _ & Hin & _).
  { intros c Hc. destruct (Hcodes c Hc) as (k & Hk & Hck).
    rewrite (Hexp c k Hk Hck). lia. }
  exists r. split; [done|].
  intros c k e n w s ne nw sw se Hc Hk Hck Hn Hd.
  rewrite (Hin c Hc), (Hexp c k Hk Hck). unfold neighbors_of. rewrite Hn, Hd. simpl.
  destruct (lookup_lt_is_Some_2 [e; se; s; sw; w; nw; n; ne] (Z.to_nat k)) as [x ->];
    [simpl; lia|done].
Qed.

Lemma decoder_clockwise_from_east_witness :
  ∃ r, convert_arc_flow_directions_to_landlab_node_ids raster3 (raster3_codes 8) = Done r ∧
    ∀ c k e n w s ne nw sw se,
      c ∈ core_nodes raster3 → 0 ≤ k ≤ 7 →
      raster3_codes 8 !! Z.to_nat c = Some (2 ^ k) →
      neighbors_at_node raster3 !! Z.to_nat c = Some [e; n; w; s] →
      diagonals_at_node raster3 !! Z.to_nat c = Some [ne; nw; sw; se] →
      r !! Z.to_nat c = [e; se; s; sw; w; nw; n; ne] !! Z.to_nat k.
Proof.
  apply (decoder_clockwise_from_east raster3 (raster3_codes 8)).
  - exact (raster3_mesh_ok 8).
  - intros c Hc. unfold raster3 in Hc. simpl in Hc.
    apply list_elem_of_singleton in Hc as ->. exists 3. split; [lia|reflexivity].
Defined.

(** C4, as stated, fails on the raster with code 3 at its core node:
    3 is no power of two, yet the decoder returns and gives node 4
    the receiver 2, its south-east neighbour, as code 2 would. *)
Lemma code_three_is_coerced :
  (3 ∉ [1; 2; 4; 8; 16; 32; 64; 128]) ∧
  convert_arc_flow_directions_to_landlab_node_ids raster3 (raster3_codes 3)
  = Done [0; 0; 0; 0; 2; 0; 0; 0; 0] ∧
  convert_arc_flow_directions_to_landlab_node_ids raster3 (raster3_codes 2)
  = Done [0; 0; 0; 0; 2; 0; 0; 0; 0].
Proof.
  split; [|split; vm_compute; reflexivity].
  intros Hin. repeat (apply elem_of_cons in Hin as [[=]|Hin]). by apply elem_of_nil in Hin.
Qed.

(** C4, amended. The decoder has no error of its own for a code that
    is not a power of two.  On a well-formed mesh, when every core
    node carries a code between 1 and 255 the decoder returns and the
    receiver of a core node with code [c] is its neighbour at position
    [floor (log2 c)], clockwise from east, the other entries being
    zero; a core node with a code of 256 or more makes the whole call
    raise numpy's [ValueError].  Codes of nodes outside the core are
    not looked at. *)
Theorem decoder_truncates_codes (grid : Grid) (flow_dir_arc : list Z) :
  mesh_ok grid flow_dir_arc →
  ((∀ c, c ∈ core_nodes grid → 1 ≤ default 0 (flow_dir_arc !! Z.to_nat c) ≤ 255) →
   ∃ r, convert_arc_flow_directions_to_landlab_node_ids grid flow_dir_arc = Done r ∧
     length r = number_of_nodes grid ∧
     (∀ c, c ∈ core_nodes grid →
        r !! Z.to_nat c
        = neighbors_of grid c
            !! Z.to_nat (Z.log2 (default 0 (flow_dir_arc !! Z.to_nat c)))) ∧
     (∀ n, (n < number_of_nodes grid)%nat → Z.of_nat n ∉ core_nodes grid →
        r !! n = Some 0)) ∧
  (∀ c, c ∈ core_nodes grid → 256 ≤ default 0 (flow_dir_arc !! Z.to_nat c) →
     convert_arc_flow_directions_to_landlab_node_ids grid flow_dir_arc
     = Raise ValueError).
Proof.
  intros Hmesh. split.
  - intros Hcodes.
    assert (∀ c, c ∈ core_nodes grid →
              exponent_at flow_dir_arc c
              = Z.log2 (default 0 (flow_dir_arc !! Z.to_nat c))
              ∧ 0 ≤ exponent_at flow_dir_arc c < 8) as Hexp.
    { intros c Hc. pose proof (Hcodes c Hc) as Hrange.
      unfold exponent_at, log2_astype_int.
      rewrite bool_decide_eq_true_2 by lia. split; [done|].
      split; [apply Z.log2_nonneg|]. apply Z.log2_lt_pow2; lia. }
    destruct (decoder_returns grid flow_dir_arc Hmesh) as (r & Hr & Hlen & Hin & Hout).
    { intros c Hc. by apply Hexp. }
    exists r. split_and!; try done.
    intros c Hc. destruct (Hexp c Hc) as [Heq Hrange].
    rewrite (Hin c Hc), Heq.
    pose proof (neighbors_of_length grid flow_dir_arc Hmesh c Hc) as Hl.
    destruct (lookup_lt_is_Some_2 (neighbors_of grid c)
                (Z.to_nat (Z.log2 (default 0 (flow_dir_arc !! Z.to_nat c)))))
      as [x ->]; [lia|done].
  - intros c Hc Hbig. apply (decoder_raises grid flow_dir_arc Hmesh c Hc).
    unfold exponent_at, log2_astype_int.
    rewrite bool_decide_eq_true_2 by lia.
    assert (8 ≤ Z.log2 (default 0 (flow_dir_arc !! Z.to_nat c))) as Hlog
      by (apply Z.log2_le_pow2; [lia|change (2 ^ 8) with 256; lia]).
    lia.
Qed.

Lemma decoder_truncates_codes_witness :
  (∃ r, convert_arc_flow_directions_to_landlab_node_ids raster3 (raster3_codes 3) = Done r ∧
     length r = number_of_nodes raster3 ∧
     (∀ c, c ∈ core_nodes raster3 →
        r !! Z.to_nat c
        = neighbors_of raster3 c
            !! Z.to_nat (Z.log2 (default 0 (raster3_codes 3 !! Z.to_nat c)))) ∧
     (∀ n, (n < number_of_nodes raster3)%nat → Z.of_nat n ∉ core_nodes raster3 →
        r !! n = Some 0)) ∧
  convert_arc_flow_directions_to_landlab_node_ids raster3 (raster3_codes 300)
  = Raise ValueError.
Proof.
  split.
  - apply (proj1 (decoder_truncates_codes raster3 (raster3_codes 3) (raster3_mesh_ok 3))).
    intros c Hc. unfold raster3 in Hc. simpl in Hc.
    apply list_elem_of_singleton in Hc as ->. vm_compute. by split.
  - apply (proj2 (decoder_truncates_codes raster3 (raster3_codes 300)
                    (raster3_mesh_ok 300)) 4).
    + unfold raster3. simpl. by apply list_elem_of_singleton.
    + vm_compute. discriminate.
Defined.

(** ** Inputs *)

(** C9. Whatever the heap, the references and the fuel, and however
    the call ends, [track_source] and the decoder leave every object
    that existed when they were called as it was: the elevation
    field, the receiver map, the HSD assignment, the flow-direction
    codes and the arrays of the mesh among them.  What they write,
    they write to objects they have made themselves. *)
Theorem inputs_unchanged {Id : Type} :
  (∀ (grid : HGrid) (r hsd_ids fuel : nat) (h : heap Id),
     take (length h) (track_source_heap grid r hsd_ids fuel h).2 = h) ∧
  (∀ (grid : HGrid) (flow_dir_arc : nat) (h : heap Id),
     take (length h)
       (convert_arc_flow_directions_to_landlab_node_ids_heap grid flow_dir_arc h).2 = h).
Proof.
  split.
  - intros grid r hsd_ids fuel h.
    pose proof (track_source_heap_framed h grid r hsd_ids fuel) as Hwp.
    unfold wp in Hwp. apply framed_take.
    by destruct (track_source_heap _ _ _ _ _) as [[?|?|] h'].
  - intros grid flow_dir_arc h.
    pose proof (decoder_heap_framed h grid flow_dir_arc) as Hwp.
    unfold wp in Hwp. apply framed_take.
    by destruct (convert_arc_flow_directions_to_landlab_node_ids_heap _ _ _) as [[?|?|] h'].
Qed.

(** * Further results *)

(** ** What [track_source] computes *)

(** X1. On well-formed inputs with an acyclic receiver map
    [track_source] returns once the fuel suffices, and whenever it
    returns, the entry of a core node [n] holds the identifiers of
    exactly the core nodes whose receivers lead to [n] without
    leaving the core ([n] among them), one identifier for each such
    node, and [flow_accum[n]] is the number of these nodes. *)
Theorem upstream_nodes_recorded {Id : Type}
    (r : Z → outcome Z) (hsd_ids : Z → outcome Id) (grid : Grid) :
  inputs_ok r hsd_ids grid → acyclic r grid →
  (∃ f0, ∀ fuel, (f0 ≤ fuel)%nat → ∃ res, track_source r hsd_ids grid fuel = Done res) ∧
  (∀ fuel hu fa, track_source r hsd_ids grid fuel = Done (hu, fa) →
     ∀ n, n ∈ core_nodes grid →
       ∃ ups l,
         NoDup ups ∧
         (∀ m, m ∈ ups ↔ m ∈ core_nodes grid ∧ flows_to r grid m n) ∧
         hu !! n = Some l ∧
         Forall2 (λ m h, hsd_ids m = Done h) ups l ∧
         fa !! Z.to_nat n = Some (Z.of_nat (length ups))).
Proof.
  intros Hok Hac. split; [by apply track_source_terminates|].
  intros fuel hu fa Hts n Hn.
  destruct (hsd_defined _ _ _ Hok n Hn) as [h0 _].
  destruct (label_function r hsd_ids grid Hok h0) as [f Hf].
  destruct (track_source_labels r hsd_ids grid Hok Hac fuel hu fa f Hf Hts n Hn)
    as (ups & Hnd & Hmem & Hhu & Hfa).
  exists ups, (map f ups). split_and!; try done.
  apply Forall2_fmap_r, Forall_Forall2_diag, Forall_forall.
  intros m Hm. apply Hf. by apply Hmem.
Qed.

Lemma upstream_nodes_recorded_witness :
  inputs_ok (dict_get scenario_r) (dict_get scenario_hsd) scenario_grid ∧
  acyclic (dict_get scenario_r) scenario_grid ∧
  (∃ f0, ∀ fuel, (f0 ≤ fuel)%nat →
     ∃ res, track_source (dict_get scenario_r) (dict_get scenario_hsd) scenario_grid fuel
            = Done res) ∧
  (∀ fuel hu fa,
     track_source (dict_get scenario_r) (dict_get scenario_hsd) scenario_grid fuel
     = Done (hu, fa) →
     ∀ n, n ∈ core_nodes scenario_grid →
       ∃ ups l,
         NoDup ups ∧
         (∀ m, m ∈ ups ↔ m ∈ core_nodes scenario_grid
                          ∧ flows_to (dict_get scenario_r) scenario_grid m n) ∧
         hu !! n = Some l ∧
         Forall2 (λ m h, dict_get scenario_hsd m = Done h) ups l ∧
         fa !! Z.to_nat n = Some (Z.of_nat (length ups))).
Proof.
  split; [exact scenario_inputs_ok|]. split; [exact scenario_acyclic|].
  exact (upstream_nodes_recorded _ _ _ scenario_inputs_ok scenario_acyclic).
Defined.

(** X2. The accumulation equation. On well-formed acyclic inputs,
    when [track_source] returns, the entry of a core node [m] is, up
    to the order of its elements, the identifier of [m] followed by
    the entries of its donors (the core nodes other than [m] whose
    receiver is [m]), and [flow_accum[m]] is one more than the sum of
    the accumulations of its donors. *)
Theorem accumulation_equation {Id : Type}
    (r : Z → outcome Z) (hsd_ids : Z → outcome Id) (grid : Grid)
    (m : Z) (donors : list Z) :
  inputs_ok r hsd_ids grid → acyclic r grid →
  m ∈ core_nodes grid → NoDup donors →
  (∀ d, d ∈ donors ↔ d ∈ core_nodes grid ∧ d ≠ m ∧ r d = Done m) →
  (∃ f0, ∀ fuel, (f0 ≤ fuel)%nat → ∃ res, track_source r hsd_ids grid fuel = Done res) ∧
  (∀ fuel hu fa, track_source r hsd_ids grid fuel = Done (hu, fa) →
     ∃ h l,
       hsd_ids m = Done h ∧ hu !! m = Some l ∧
       l ≡ₚ h :: concat (map (λ d, default [] (hu !! d)) donors) ∧
       fa !! Z.to_nat m
       = Some (1 + py_sum (map (λ d, default 0 (fa !! Z.to_nat d)) donors))).
Proof.
  intros Hok Hac Hm Hnd Hdon. split; [by apply track_source_terminates|].
  intros fuel hu fa Hts.
  destruct (hsd_defined _ _ _ Hok m Hm) as [h0 _].
  destruct (label_function r hsd_ids grid Hok h0) as [f Hf].
  pose proof Hts as Hts0.
  rewrite (track_source_relabel r own_id hsd_ids grid f) in Hts0
    by (intros c Hc; by rewrite Hf).
  destruct (track_source r own_id grid fuel) as [[hu0 fa0]| |] eqn:Hnode; [|done|done].
  injection Hts0 as <- <-.
  pose proof (inputs_ok_own_id r hsd_ids grid Hok) as Hok0.
  destruct (upstream_through_donors r grid Hok0 Hac fuel hu0 fa0 m donors Hnode Hm Hnd Hdon)
    as (ups & Hups & Hperm).
  pose proof (track_source_upstream r grid Hok0 Hac fuel hu0 fa0 Hnode) as Hup.
  exists (f m), (map f ups). split_and!.
  - by apply Hf.
  - by rewrite lookup_fmap, Hups.
  - rewrite Hperm. cbn [map]. constructor.
    rewrite concat_map, map_map.
    erewrite map_ext; [done|]. intros d. simpl. rewrite lookup_fmap.
    by destruct (hu0 !! d).
  - destruct (Hup m Hm) as (ups' & Hups' & _ & _ & ->).
    assert (ups' = ups) as -> by congruence.
    rewrite (Permutation_length Hperm). cbn [length].
    rewrite Nat2Z.inj_succ, length_concat_sum, map_map. do 2 f_equal.
    unfold Z.succ. rewrite Z.add_comm. do 2 f_equal.
    apply map_ext_in. intros d (Hd & _)%list_elem_of_In%Hdon.
    by destruct (Hup d Hd) as (ud & -> & _ & _ & ->).
Qed.

Lemma scenario_donors :
  ∀ d, d ∈ [1; 2] ↔
    d ∈ core_nodes scenario_grid ∧ d ≠ 3 ∧ dict_get scenario_r d = Done 3.
Proof.
  intros d. unfold scenario_grid. simpl. split.
  - intros Hd. repeat (apply elem_of_cons in Hd as [->|Hd]; [by vm_compute; set_solver|]).
    by apply elem_of_nil in Hd.
  - intros (Hd & Hne & Hr).
    repeat (apply elem_of_cons in Hd as [->|Hd]; [set_solver|]).
    by apply elem_of_nil in Hd.
Qed.

Lemma accumulation_equation_witness :
  (∃ f0, ∀ fuel, (f0 ≤ fuel)%nat →
     ∃ res, track_source (dict_get scenario_r) (dict_get scenario_hsd) scenario_grid fuel
            = Done res) ∧
  (∀ fuel hu fa,
     track_source (dict_get scenario_r) (dict_get scenario_hsd) scenario_grid fuel
     = Done (hu, fa) →
     ∃ h l,
       dict_get scenario_hsd 3 = Done h ∧ hu !! 3 = Some l ∧
       l ≡ₚ h :: concat (map (λ d, default [] (hu !! d)) [1; 2]) ∧
       fa !! Z.to_nat 3
       = Some (1 + py_sum (map (λ d, default 0 (fa !! Z.to_nat d)) [1; 2]))).
Proof.
  apply (accumulation_equation (dict_get scenario_r) (dict_get scenario_hsd)
           scenario_grid 3 [1; 2]).
  - exact scenario_inputs_ok.
  - exact scenario_acyclic.
  - vm_compute. set_solver.
  - apply (bool_decide_unpack _). by vm_compute.
  - exact scenario_donors.
Defined.

(** X3. Every core node is counted at one outlet. On well-formed
    acyclic inputs whose core nodes are listed once each, when
    [track_source] returns, the entries of the outlets (the core
    nodes whose receiver is themselves or lies outside the core)
    together hold the identifiers of all core nodes, one for each
    node, and the accumulations of the outlets add up to the number
    of core nodes. *)
Theorem every_node_counted_at_one_outlet {Id : Type}
    (r : Z → outcome Z) (hsd_ids : Z → outcome Id) (grid : Grid) (outlets : list Z) :
  inputs_ok r hsd_ids grid → acyclic r grid →
  NoDup (core_nodes grid) → NoDup outlets →
  (∀ t, t ∈ outlets ↔
     t ∈ core_nodes grid ∧ ∀ m, r t = Done m → m ≠ t → m ∉ core_nodes grid) →
  (∃ f0, ∀ fuel, (f0 ≤ fuel)%nat → ∃ res, track_source r hsd_ids grid fuel = Done res) ∧
  (∀ fuel hu fa, track_source r hsd_ids grid fuel = Done (hu, fa) →
     (∃ ls, Forall2 (λ m h, hsd_ids m = Done h) (core_nodes grid) ls ∧
            concat (map (λ t, default [] (hu !! t)) outlets) ≡ₚ ls) ∧
     py_sum (map (λ t, default 0 (fa !! Z.to_nat t)) outlets)
     = Z.of_nat (length (core_nodes grid))).
Proof.
  intros Hok Hac Hcore Hnd Hout. split; [by apply track_source_terminates|].
  intros fuel hu fa Hts.
  destruct (core_nodes grid) as [|c0 cs] eqn:Hcs.
  { assert (outlets = []) as ->.
    { destruct outlets as [|t ?]; [done|].
      assert (t ∈ []) as Hin by (apply Hout; left). by apply elem_of_nil in Hin. }
    split; [|done]. exists []. by split. }
  rewrite <- Hcs in *.
  assert (c0 ∈ core_nodes grid) as Hc0 by (rewrite Hcs; left).
  destruct (hsd_defined _ _ _ Hok c0 Hc0) as [h0 _].
  destruct (label_function r hsd_ids grid Hok h0) as [f Hf].
  pose proof Hts as Hts0.
  rewrite (track_source_relabel r own_id hsd_ids grid f) in Hts0
    by (intros c Hc; by rewrite Hf).
  destruct (track_source r own_id grid fuel) as [[hu0 fa0]| |] eqn:Hnode; [|done|done].
  injection Hts0 as <- <-.
  pose proof (inputs_ok_own_id r hsd_ids grid Hok) as Hok0.
  pose proof (upstream_of_outlets r grid Hok0 Hac fuel hu0 fa0 outlets (core_nodes grid)
                Hnode Hnd Hout Hcore (λ x, reflexivity _)) as Hperm.
  pose proof (track_source_upstream r grid Hok0 Hac fuel hu0 fa0 Hnode) as Hup.
  split.
  - exists (map f (core_nodes grid)). split.
    + apply Forall2_fmap_r, Forall_Forall2_diag, Forall_forall. intros m Hm. by apply Hf.
    + rewrite <- Hperm, concat_map, map_map.
      erewrite map_ext; [done|]. intros t. simpl. rewrite lookup_fmap.
      by destruct (hu0 !! t).
  - rewrite <- (Permutation_length Hperm), length_concat_sum, map_map. f_equal.
    apply map_ext_in. intros t (Ht & _)%list_elem_of_In%Hout.
    by destruct (Hup t Ht) as (ut & -> & _ & _ & ->).
Qed.

Lemma basins_outlets :
  ∀ t, t ∈ [2; 3] ↔
    t ∈ core_nodes basins_grid ∧
    ∀ m, dict_get basins_r t = Done m → m ≠ t → m ∉ core_nodes basins_grid.
Proof.
  intros t. unfold basins_grid. simpl. split.
  - intros Ht. repeat (apply elem_of_cons in Ht as [->|Ht];
      [split; [set_solver|]; intros m Hm; vm_compute in Hm; congruence|]).
    by apply elem_of_nil in Ht.
  - intros (Ht & Hend).
    repeat (apply elem_of_cons in Ht as [->|Ht];
      [first [set_solver | by destruct (Hend 2); [|lia|set_solver]]|]).
    by apply elem_of_nil in Ht.
Qed.

Lemma every_node_counted_at_one_outlet_witness :
  (∃ f0, ∀ fuel, (f0 ≤ fuel)%nat →
     ∃ res, track_source (dict_get basins_r) (dict_get basins_hsd) basins_grid fuel
            = Done res) ∧
  (∀ fuel hu fa,
     track_source (dict_get basins_r) (dict_get basins_hsd) basins_grid fuel
     = Done (hu, fa) →
     (∃ ls, Forall2 (λ m h, dict_get basins_hsd m = Done h) (core_nodes basins_grid) ls ∧
            concat (map (λ t, default [] (hu !! t)) [2; 3]) ≡ₚ ls) ∧
     py_sum (map (λ t, default 0 (fa !! Z.to_nat t)) [2; 3])
     = Z.of_nat (length (core_nodes basins_grid))).
Proof.
  apply (every_node_counted_at_one_outlet (dict_get basins_r) (dict_get basins_hsd)
           basins_grid [2; 3]).
  - exact basins_inputs_ok.
  - exact basins_acyclic.
  - apply (bool_decide_unpack _). by vm_compute.
  - apply (bool_decide_unpack _). by vm_compute.
  - exact basins_outlets.
Defined.

(** X4. The elevation field only fixes the order inside the lists.
    On well-formed acyclic inputs, [track_source] run with any other
    elevation field of the right size returns the same [flow_accum],
    and for every node either no entry in both runs or entries that
    are permutations of each other. *)
Theorem elevation_fixes_order_only {Id : Type}
    (r : Z → outcome Z) (hsd_ids : Z → outcome Id) (grid : Grid) (z : list Q) :
  inputs_ok r hsd_ids grid → acyclic r grid → length z = number_of_nodes grid →
  (∃ f0, ∀ fuel, (f0 ≤ fuel)%nat →
     ∃ res res', track_source r hsd_ids grid fuel = Done res ∧
                 track_source r hsd_ids (with_elevation grid z) fuel = Done res') ∧
  (∀ fuel fuel' hu fa hu' fa',
     track_source r hsd_ids grid fuel = Done (hu, fa) →
     track_source r hsd_ids (with_elevation grid z) fuel' = Done (hu', fa') →
     fa' = fa ∧
     ∀ n, match hu !! n, hu' !! n with
          | Some l, Some l' => l ≡ₚ l'
          | None, None => True
          | _, _ => False
          end).
Proof.
  intros Hok Hac Hz.
  pose proof (inputs_ok_with_elevation r hsd_ids grid z Hok Hz) as Hok'.
  pose proof (acyclic_with_elevation r grid z Hac) as Hac'.
  split.
  { destruct (track_source_terminates r hsd_ids grid Hok Hac) as [f0 Hf0].
    destruct (track_source_terminates r hsd_ids _ Hok' Hac') as [f1 Hf1].
    exists (f0 `max` f1)%nat. intros fuel Hfuel.
    destruct (Hf0 fuel) as [res Hres]; [lia|].
    destruct (Hf1 fuel) as [res' Hres']; [lia|]. eauto. }
  intros fuel fuel' hu fa hu' fa' Hts Hts'.
  destruct (track_source_returns r hsd_ids grid fuel hu fa Hok Hts)
    as (st & sor_z & Hhu & Hfa & _ & _ & HI & _).
  destruct (track_source_returns r hsd_ids _ fuel' hu' fa' Hok' Hts')
    as (st' & sor_z' & Hhu' & Hfa' & _ & _ & HI' & _).
  assert (∀ n, n ∈ core_nodes grid →
    ∃ l l', hu !! n = Some l ∧ hu' !! n = Some l' ∧ l ≡ₚ l' ∧
      fa !! Z.to_nat n = Some (Z.of_nat (length l)) ∧
      fa' !! Z.to_nat n = Some (Z.of_nat (length l'))) as Hcore.
  { intros n Hn. destruct (hsd_defined _ _ _ Hok n Hn) as [h0 _].
    destruct (label_function r hsd_ids grid Hok h0) as [f Hf].
    destruct (track_source_labels r hsd_ids grid Hok Hac fuel hu fa f Hf Hts n Hn)
      as (ups & Hnd & Hmem & Hl & Hlen).
    destruct (track_source_labels r hsd_ids _ Hok' Hac' fuel' hu' fa' f Hf Hts' n Hn)
      as (ups' & Hnd' & Hmem' & Hl' & Hlen').
    assert (ups ≡ₚ ups') as Hperm.
    { apply NoDup_Permutation; [done|done|]. intros x. rewrite Hmem, Hmem'. simpl.
      split; intros [Hx Hfl]; (split; [done|]);
        by eapply flows_to_same_core; [|exact Hfl]. }
    exists (map f ups), (map f ups'). rewrite !length_map.
    split_and!; [done|done|by apply Permutation_map|done|done]. }
  assert (∀ n, n ∉ core_nodes grid → hu !! n = None ∧ hu' !! n = None) as Hout.
  { intros n Hn. subst hu hu'. split; apply eq_None_not_Some; intros Hsome; apply Hn.
    - by apply (inv_keys_core _ _ HI).
    - by apply (inv_keys_core _ _ HI') in Hsome. }
  split.
  - apply list_eq. intros i.
    destruct (decide (i < number_of_nodes grid)%nat) as [Hi|Hi].
    + destruct (decide (Z.of_nat i ∈ core_nodes grid)) as [Hc|Hc].
      * destruct (Hcore _ Hc) as (l & l' & _ & _ & Hperm & H1 & H2).
        rewrite Nat2Z.id in H1, H2. rewrite H1, H2.
        by rewrite (Permutation_length Hperm).
      * destruct (Hout _ Hc) as [H1 H2]. subst fa fa'.
        pose proof (inv_accum _ _ HI (Z.of_nat i)) as Ha.
        pose proof (inv_accum _ _ HI' (Z.of_nat i)) as Ha'. simpl in Ha'.
        rewrite Nat2Z.id in Ha, Ha'. rewrite Ha, Ha' by lia.
        subst hu hu'. by rewrite H1, H2.
    + subst fa fa'. rewrite !lookup_ge_None_2; [done| |].
      * rewrite (inv_size _ _ HI). lia.
      * rewrite (inv_size _ _ HI'). simpl. lia.
  - intros n. destruct (decide (n ∈ core_nodes grid)) as [Hc|Hc].
    + by destruct (Hcore _ Hc) as (l & l' & -> & -> & Hperm & _).
    + by destruct (Hout _ Hc) as [-> ->].
Qed.

Lemma elevation_fixes_order_only_witness :
  (∃ f0, ∀ fuel, (f0 ≤ fuel)%nat →
     ∃ res res',
       track_source (dict_get scenario_r) (dict_get scenario_hsd) scenario_grid fuel
       = Done res ∧
       track_source (dict_get scenario_r) (dict_get scenario_hsd)
         (with_elevation scenario_grid [0; 1; 2; 3; 4]%Q) fuel = Done res') ∧
  (∀ fuel fuel' hu fa hu' fa',
     track_source (dict_get scenario_r) (dict_get scenario_hsd) scenario_grid fuel
     = Done (hu, fa) →
     track_source (dict_get scenario_r) (dict_get scenario_hsd)
       (with_elevation scenario_grid [0; 1; 2; 3; 4]%Q) fuel' = Done (hu', fa') →
     fa' = fa ∧
     ∀ n, match hu !! n, hu' !! n with
          | Some l, Some l' => l ≡ₚ l'
          | None, None => True
          | _, _ => False
          end).
Proof.
  apply (elevation_fixes_order_only (dict_get scenario_r) (dict_get scenario_hsd)
           scenario_grid [0; 1; 2; 3; 4]%Q).
  - exact scenario_inputs_ok.
  - exact scenario_acyclic.
  - reflexivity.
Defined.


(** ** Outcomes of [track_source] *)

(** X6. On well-formed inputs [track_source] never raises. It returns
    once the fuel suffices when every core node drains, and whatever
    the fuel it has not returned when some core node does not. *)
Theorem returns_or_runs_forever {Id : Type}
    (r : Z → outcome Z) (hsd_ids : Z → outcome Id) (grid : Grid) :
  inputs_ok r hsd_ids grid →
  (∀ fuel e, track_source r hsd_ids grid fuel ≠ Raise e) ∧
  (acyclic r grid →
     ∃ f0, ∀ fuel, (f0 ≤ fuel)%nat → ∃ res, track_source r hsd_ids grid fuel = Done res) ∧
  (∀ c, c ∈ core_nodes grid → ¬ drains r grid c →
     ∀ fuel, track_source r hsd_ids grid fuel = OutOfFuel).
Proof.
  intros Hok. split_and!.
  - intros fuel e. by apply track_source_no_raise.
  - by apply track_source_terminates.
  - intros c Hc Hnd fuel.
    by apply (track_source_trapped r hsd_ids grid _ c fuel Hok
                (undrained_trapped r hsd_ids grid Hok)).
Qed.

Lemma returns_or_runs_forever_witness :
  (∀ fuel e,
     track_source (dict_get cycle_r) (dict_get cycle_hsd) cycle_grid fuel ≠ Raise e) ∧
  (∀ fuel, track_source (dict_get cycle_r) (dict_get cycle_hsd) cycle_grid fuel
           = OutOfFuel).
Proof.
  destruct (returns_or_runs_forever (dict_get cycle_r) (dict_get cycle_hsd) cycle_grid
              cycle_inputs_ok) as (Hnever & _ & Hruns).
  split; [exact Hnever|]. apply (Hruns 1).
  - vm_compute. set_solver.
  - apply (trapped_not_drains _ _ on_cycle); [exact cycle_trapped|by left].
Defined.

(** X7. A bound on the work of a segment. On well-formed acyclic
    inputs no segment makes more iterations of its [while] loop than
    there are entries in [core_nodes], plus one: with that much fuel
    the call returns, and more fuel does not change the result. *)
Theorem segments_are_bounded {Id : Type}
    (r : Z → outcome Z) (hsd_ids : Z → outcome Id) (grid : Grid) :
  inputs_ok r hsd_ids grid → acyclic r grid →
  ∃ res, ∀ fuel, (length (core_nodes grid) + 1 ≤ fuel)%nat →
    track_source r hsd_ids grid fuel = Done res.
Proof.
  intros Hok Hac.
  destruct (track_source_within r hsd_ids grid Hok Hac (length (core_nodes grid) + 1))
    as [res Hres]; [done|].
  exists res. intros fuel Hfuel.
  by apply (track_source_more_fuel r hsd_ids grid (length (core_nodes grid) + 1)).
Qed.

Lemma segments_are_bounded_witness :
  ∃ res, ∀ fuel, (length (core_nodes scenario_grid) + 1 ≤ fuel)%nat →
    track_source (dict_get scenario_r) (dict_get scenario_hsd) scenario_grid fuel
    = Done res.
Proof.
  exact (segments_are_bounded _ _ _ scenario_inputs_ok scenario_acyclic).
Defined.

(** ** Edge cases of [track_source] *)

(** X8. A core node that does not index the elevation field makes
    the call raise numpy's IndexError at [z[core_nodes]], before any
    node is visited, whatever the receivers and identifiers are. *)
Theorem core_node_outside_elevation {Id : Type}
    (r : Z → outcome Z) (hsd_ids : Z → outcome Id) (grid : Grid) (c : Z) (fuel : nat) :
  c ∈ core_nodes grid →
  ¬ (- Z.of_nat (length (topographic__elevation grid)) ≤ c
     < Z.of_nat (length (topographic__elevation grid))) →
  track_source r hsd_ids grid fuel = Raise LookupError.
Proof.
  intros Hc Hout. unfold track_source, sorted_core_nodes, np_take.
  rewrite (omapM_raises _ _ LookupError c); [done| |done|].
  - intros y _. apply np_get_Done_or_LookupError.
  - by apply np_get_out_of_range.
Qed.

Lemma core_node_outside_elevation_witness :
  track_source (dict_get scenario_r) (dict_get scenario_hsd)
    (with_elevation scenario_grid [0; 10; 9; 5]%Q) 3 = Raise LookupError.
Proof.
  apply (core_node_outside_elevation _ _ (with_elevation scenario_grid [0; 10; 9; 5]%Q) 4).
  - vm_compute. set_solver.
  - simpl. lia.
Defined.

(** X9. A core node without an identifier. When the mesh and the
    receivers are well-formed and acyclic but [hsd_ids] raises at
    some core node, the call does not return: run long enough, it
    raises an exception that [hsd_ids] raises at a core node (the
    KeyError of a dict that lacks the node). *)
Theorem missing_identifier_raises {Id : Type}
    (r : Z → outcome Z) (hsd_ids : Z → outcome Id) (grid : Grid) (c : Z) (e : exn) :
  (∀ c', c' ∈ core_nodes grid → 0 ≤ c' < Z.of_nat (number_of_nodes grid)) →
  length (topographic__elevation grid) = number_of_nodes grid →
  (∀ c', c' ∈ core_nodes grid → ∃ m, r c' = Done m) →
  acyclic r grid →
  (∀ c', c' ∈ core_nodes grid → hsd_ids c' ≠ OutOfFuel) →
  c ∈ core_nodes grid → hsd_ids c = Raise e →
  ∀ fuel, (length (core_nodes grid) + 1 ≤ fuel)%nat →
    ∃ c' e', c' ∈ core_nodes grid ∧ hsd_ids c' = Raise e' ∧
      track_source r hsd_ids grid fuel = Raise e'.
Proof.
  intros Hrange Hz Hr Hac Hnf Hc He fuel Hfuel.
  apply (track_source_missing r hsd_ids grid Hnf) with c e; try done.
  split; [done|done|done|]. intros c' _. by exists c'.
Qed.

Lemma scenario_without_3 :
  ∀ c', c' ∈ core_nodes scenario_grid →
    dict_get ({[ 1 := "A"; 2 := "B"; 4 := "D" ]} : gmap Z string) c' ≠ OutOfFuel.
Proof. intros c' _. unfold dict_get. by destruct (_ !! c'). Qed.

Lemma missing_identifier_raises_witness :
  ∃ c' e', c' ∈ core_nodes scenario_grid ∧
    dict_get ({[ 1 := "A"; 2 := "B"; 4 := "D" ]} : gmap Z string) c' = Raise e' ∧
    track_source (dict_get scenario_r)
      (dict_get ({[ 1 := "A"; 2 := "B"; 4 := "D" ]} : gmap Z string))
      scenario_grid 5 = Raise e'.
Proof.
  apply (missing_identifier_raises (dict_get scenario_r)
           (dict_get ({[ 1 := "A"; 2 := "B"; 4 := "D" ]} : gmap Z string))
           scenario_grid 3 LookupError).
  - apply scenario_inputs_ok.
  - apply scenario_inputs_ok.
  - apply scenario_inputs_ok.
  - exact scenario_acyclic.
  - exact scenario_without_3.
  - vm_compute. set_solver.
  - reflexivity.
  - simpl. lia.
Defined.

(** X10. With no core node the call returns at once, for any receivers,
    identifiers and elevations: an empty dict and an array of zeros
    with one entry per node; the aggregator maps the empty dict to
    two empty dicts. *)
Theorem empty_core {Id : Type} `{EqDecision Id}
    (r : Z → outcome Z) (hsd_ids : Z → outcome Id) (grid : Grid) (fuel : nat) :
  core_nodes grid = [] →
  track_source r hsd_ids grid fuel = Done (∅, replicate (number_of_nodes grid) 0) ∧
  find_unique_upstream_hsd_ids_and_fractions (∅ : gmap Z (list Id)) = Done (∅, ∅).
Proof.
  intros Hcore. split.
  - unfold track_source, sorted_core_nodes. by rewrite Hcore.
  - by rewrite find_unique_spec, !fmap_empty.
Qed.

Lemma empty_core_witness :
  track_source (dict_get scenario_r) (dict_get scenario_hsd)
    {| number_of_nodes := 2; core_nodes := []; topographic__elevation := [0; 1]%Q;
       neighbors_at_node := []; diagonals_at_node := [] |} 0
  = Done (∅, replicate 2 0) ∧
  find_unique_upstream_hsd_ids_and_fractions (∅ : gmap Z (list string)) = Done (∅, ∅).
Proof.
  apply (empty_core (dict_get scenario_r) (dict_get scenario_hsd)
           {| number_of_nodes := 2; core_nodes := []; topographic__elevation := [0; 1]%Q;
              neighbors_at_node := []; diagonals_at_node := [] |} 0).
  reflexivity.
Defined.

(** X11. The call reads the receivers and the identifiers at core
    nodes only: two receiver maps that agree at every core node, and
    two identifier maps that do, give the same outcome, whatever they
    hold or raise elsewhere. *)
Theorem reads_only_core_nodes {Id : Type}
    (r r' : Z → outcome Z) (hsd_ids hsd_ids' : Z → outcome Id) (grid : Grid)
    (fuel : nat) :
  (∀ c, c ∈ core_nodes grid → r' c = r c) →
  (∀ c, c ∈ core_nodes grid → hsd_ids' c = hsd_ids c) →
  track_source r' hsd_ids' grid fuel = track_source r hsd_ids grid fuel.
Proof. intros Hr Hh. by apply track_source_same. Qed.

Lemma scenario_same_on_core :
  ∀ c, c ∈ core_nodes scenario_grid →
    dict_get (<[0 := 7]> scenario_r) c = dict_get scenario_r c.
Proof.
  intros c Hc. unfold scenario_grid in Hc. simpl in Hc.
  repeat (apply elem_of_cons in Hc as [->|Hc]; [done|]).
  by apply elem_of_nil in Hc.
Qed.

Lemma reads_only_core_nodes_witness :
  track_source (dict_get (<[0 := 7]> scenario_r)) (dict_get scenario_hsd) scenario_grid 3
  = track_source (dict_get scenario_r) (dict_get scenario_hsd) scenario_grid 3.
Proof.
  apply (reads_only_core_nodes (dict_get scenario_r) (dict_get (<[0 := 7]> scenario_r))
           (dict_get scenario_hsd) (dict_get scenario_hsd) scenario_grid 3).
  - exact scenario_same_on_core.
  - reflexivity.
Defined.

(** ** The aggregator and the whole chain *)

(** X12. The aggregator never raises. Its two dicts have the keys of
    its argument; at every key the fractions stand position by
    position beside the identifiers, and each fraction is positive
    and at most one. *)
Theorem aggregator_shape {Id : Type} `{EqDecision Id} (hsd_upstr : gmap Z (list Id)) :
  ∃ uniq_ids coeff,
    find_unique_upstream_hsd_ids_and_fractions hsd_upstr = Done (uniq_ids, coeff) ∧
    dom uniq_ids = dom hsd_upstr ∧ dom coeff = dom hsd_upstr ∧
    ∀ n ids cs, uniq_ids !! n = Some ids → coeff !! n = Some cs →
      length cs = length ids ∧ Forall (λ c, (0 < c)%Q ∧ (c <= 1)%Q) cs.
Proof.
  rewrite find_unique_spec. eexists _, _. split; [reflexivity|].
  rewrite !dom_fmap_L. split_and!; [done|done|].
  intros n ids cs. rewrite !lookup_fmap.
  destruct (hsd_upstr !! n) as [l|]; [|done]. simpl. intros [= <-] [= <-].
  split; [by rewrite length_map|].
  apply Forall_fmap, Forall_forall. intros k Hk. rewrite elem_of_first_seen in Hk.
  by apply fraction_bounds.
Qed.



(** ** The decoder feeding [track_source] *)

(** X14. On a well-formed mesh whose core nodes carry codes from 1 to
    255, the array the decoder returns is a receiver map
    [track_source] accepts on the same mesh: it is defined at every
    core node, where it names one of the node's eight neighbours, and
    [track_source] run on it, with an elevation field of the right
    size and identifiers for all core nodes, never raises. *)
Theorem decoded_receivers_are_accepted {Id : Type}
    (grid : Grid) (flow_dir_arc : list Z) (hsd_ids : Z → outcome Id) :
  mesh_ok grid flow_dir_arc →
  (∀ c, c ∈ core_nodes grid →
     ∃ v, flow_dir_arc !! Z.to_nat c = Some v ∧ 1 ≤ v ≤ 255) →
  length (topographic__elevation grid) = number_of_nodes grid →
  (∀ c, c ∈ core_nodes grid → ∃ h, hsd_ids c = Done h) →
  ∃ rv, convert_arc_flow_directions_to_landlab_node_ids grid flow_dir_arc = Done rv ∧
    inputs_ok (np_get rv) hsd_ids grid ∧
    (∀ c, c ∈ core_nodes grid →
       ∃ m, np_get rv c = Done m ∧ m ∈ neighbors_of grid c) ∧
    (∀ fuel e, track_source (np_get rv) hsd_ids grid fuel ≠ Raise e).
Proof.
  intros Hmesh Hcodes Hz Hhsd.
  destruct (decoder_returns grid flow_dir_arc Hmesh) as (rv & Hrv & Hlen & Hin & _).
  { intros c Hc. destruct (Hcodes c Hc) as (v & Hv & Hrange).
    unfold exponent_at, log2_astype_int. rewrite Hv. simpl.
    rewrite bool_decide_eq_true_2 by lia. split; [apply Z.log2_nonneg|].
    apply Z.log2_lt_pow2; [lia|]. change (2 ^ 8) with 256. lia. }
  assert (∀ c, c ∈ core_nodes grid →
            ∃ m, np_get rv c = Done m ∧ m ∈ neighbors_of grid c) as Hrec.
  { intros c Hc. pose proof (mesh_core_in_range _ _ Hmesh c Hc) as Hrange.
    destruct (np_get_in_range rv c) as (m & Hm & Hget); [by rewrite Hlen|].
    exists m. split; [done|]. rewrite (Hin c Hc) in Hm. injection Hm as <-.
    destruct (Hcodes c Hc) as (v & Hv & Hv').
    destruct (lookup_lt_is_Some_2 (neighbors_of grid c)
                (Z.to_nat (exponent_at flow_dir_arc c))) as [x Hx].
    - rewrite (neighbors_of_length grid flow_dir_arc Hmesh c Hc).
      unfold exponent_at, log2_astype_int. rewrite Hv. simpl.
      rewrite bool_decide_eq_true_2 by lia.
      assert (Z.log2 v < 8); [|pose proof (Z.log2_nonneg v); lia].
      apply Z.log2_lt_pow2; [lia|]. change (2 ^ 8) with 256. lia.
    - rewrite Hx. simpl. by eapply list_elem_of_lookup_2. }
  assert (inputs_ok (np_get rv) hsd_ids grid) as Hok.
  { split; [apply Hmesh|done| |done].
    intros c Hc. destruct (Hrec c Hc) as (m & Hm & _). eauto. }
  exists rv. split_and!; [done|done|done|].
  intros fuel e. by apply track_source_no_raise.
Qed.

Lemma decoded_receivers_are_accepted_witness :
  ∃ rv, convert_arc_flow_directions_to_landlab_node_ids raster3 (raster3_codes 8) = Done rv ∧
    inputs_ok (np_get rv) (dict_get ({[ 4 := "A" ]} : gmap Z string)) raster3 ∧
    (∀ c, c ∈ core_nodes raster3 →
       ∃ m, np_get rv c = Done m ∧ m ∈ neighbors_of raster3 c) ∧
    (∀ fuel e,
       track_source (np_get rv) (dict_get ({[ 4 := "A" ]} : gmap Z string)) raster3 fuel
       ≠ Raise e).
Proof.
  apply (decoded_receivers_are_accepted raster3 (raster3_codes 8)
           (dict_get ({[ 4 := "A" ]} : gmap Z string))).
  - exact (raster3_mesh_ok 8).
  - intros c Hc. unfold raster3 in Hc. simpl in Hc.
    apply list_elem_of_singleton in Hc as ->. exists 8. split; [reflexivity|lia].
  - reflexivity.
  - intros c Hc. unfold raster3 in Hc. simpl in Hc.
    apply list_elem_of_singleton in Hc as ->. by exists "A"%string.
Defined.



(** ** The objects [track_source] returns *)

(** X16. Run on a heap, [track_source] ends the way it does on the
    values the heap holds at the call. When it returns, the array and
    the dict it returns are objects made during the call, every key
    of the dict refers to a list made during the call that holds the
    entry of that key, and no two keys refer to the same list. *)
Theorem upstream_lists_are_unshared {Id : Type}
    (h0 : heap Id) (grid : HGrid) (g : Grid) (r hsd_ids fuel : nat) :
  grid_at grid h0 = Some g → is_Some (h0 !! r) → is_Some (h0 !! hsd_ids) →
  sim (λ '(lhu, lfa) '(hu, fa) h',
         h' !! lfa = Some (NdInt fa) ∧ (length h0 ≤ lfa)%nat ∧
         ∃ d, h' !! lhu = Some (DictRef d) ∧ (length h0 ≤ lhu)%nat ∧
           (∀ n, match d !! n with
                 | Some ref =>
                     (length h0 ≤ ref)%nat ∧
                     ∃ v, h' !! ref = Some (ListId v) ∧ hu !! n = Some v
                 | None => hu !! n = None
                 end) ∧
           (∀ n n' ref, d !! n = Some ref → d !! n' = Some ref → n = n'))
      (track_source_heap grid r hsd_ids fuel)
      (track_source (getitem_int_at h0 r) (getitem_id_at h0 hsd_ids) g fuel) h0.
Proof.
  intros Hgrid Hr Hhsd.
  eapply sim_mono; [by apply track_source_heap_rep|].
  intros [lhu lfa] [hu fa] h' (Hlhu & Hlfa & la & d & alr & Hrep).
  split_and!; [apply Hrep|done|]. exists d.
  split_and!; [apply Hrep|done|apply Hrep|apply Hrep].
Qed.

Lemma upstream_lists_are_unshared_witness :
  is_done (track_source_heap scenario_hgrid 4 5 3 scenario_heap).1 = true ∧
  sim (λ '(lhu, lfa) '(hu, fa) h',
         h' !! lfa = Some (NdInt fa) ∧ (length scenario_heap ≤ lfa)%nat ∧
         ∃ d, h' !! lhu = Some (DictRef d) ∧ (length scenario_heap ≤ lhu)%nat ∧
           (∀ n, match d !! n with
                 | Some ref =>
                     (length scenario_heap ≤ ref)%nat ∧
                     ∃ v, h' !! ref = Some (ListId v) ∧ hu !! n = Some v
                 | None => hu !! n = None
                 end) ∧
           (∀ n n' ref, d !! n = Some ref → d !! n' = Some ref → n = n'))
      (track_source_heap scenario_hgrid 4 5 3)
      (track_source (getitem_int_at scenario_heap 4) (getitem_id_at scenario_heap 5)
         scenario_grid 3) scenario_heap.
Proof.
  split; [vm_compute; reflexivity|].
  apply (upstream_lists_are_unshared scenario_heap scenario_hgrid scenario_grid 4 5 3).
  - reflexivity.
  - by eexists.
  - by eexists.
Defined.
